(** * Semantic search engine: knowledge graph, ranking strategies, league

    A shallow embedding of [semantic_search_engine/data.py],
    [semantic_search_engine/search_strategies.py],
    [semantic_search_engine/self_improver.py] and the sources
    [sources/science.py] and [sources/websnippets.py], and the properties
    of the graph, of the ranking strategies and of the evaluation league
    proved over it.

    Modelling conventions.
    - Python [float] scores are read as real numbers ([R]): rounding,
      infinities and NaN are outside the model.  [math.log] is [ln].
    - Python [int] is [Z] where it can be negative ([limit], [k],
      [walk_depth]) and [nat] where it counts ([len], [Counter] values).
    - Python [str] is [string]; the characters are read as code points
      below 128, on which [str.lower], [str.split] and [str.strip] are the
      functions [lower], [split] and [strip] below.
    - A Python [dict] is an association list in insertion order with at
      most one entry per key ([Dict]); a [defaultdict] is a [Dict] whose
      reads insert the default.  A Python [set] of strings is a
      duplicate-free list; the order in which Python enumerates a set is
      not specified, the model enumerates it in insertion order.
    - [KeyError] is [None]: every function that can raise returns an
      [option].
    - Objects with mutable attributes are passed and returned as values:
      [search] returns the strategy as the call leaves it. *)

From Stdlib Require Import List String Ascii Bool Arith ZArith Lia.
From Stdlib Require Import Permutation Sorted.
From Stdlib Require Import Reals Lra.
Import ListNotations.

Set Implicit Arguments.

(* ================================================================== *)
(** * Python primitives *)
(* ================================================================== *)

Module Py.

(** ** Strings *)

(** [c.isspace()] on code points below 128: TAB..CR, FS..US and space. *)
Definition isspace (c : ascii) : bool :=
  let n := nat_of_ascii c in
  ((9 <=? n)%nat && (n <=? 13)%nat) || ((28 <=? n)%nat && (n <=? 32)%nat).

Definition lower_char (c : ascii) : ascii :=
  let n := nat_of_ascii c in
  if (65 <=? n)%nat && (n <=? 90)%nat then ascii_of_nat (n + 32) else c.

(** [s.lower()] *)
Fixpoint lower (s : string) : string :=
  match s with
  | EmptyString => EmptyString
  | String c s' => String (lower_char c) (lower s')
  end.

(** [s.lstrip()], [s.rstrip()], [s.strip()] *)
Fixpoint lstrip (s : string) : string :=
  match s with
  | EmptyString => EmptyString
  | String c s' => if isspace c then lstrip s' else s
  end.

Fixpoint rstrip (s : string) : string :=
  match s with
  | EmptyString => EmptyString
  | String c s' =>
      match rstrip s' with
      | EmptyString => if isspace c then EmptyString else String c EmptyString
      | r => String c r
      end
  end.

Definition strip (s : string) : string := rstrip (lstrip s).

(** Truth value of a string: [bool(s)]. *)
Definition truthy (s : string) : bool :=
  match s with EmptyString => false | _ => true end.

(** [s.split()]: the maximal runs of non-whitespace characters. *)
Fixpoint split_run (cur : string) (s : string) : list string :=
  match s with
  | EmptyString => if truthy cur then [cur] else []
  | String c s' =>
      if isspace c
      then (if truthy cur then cur :: split_run EmptyString s'
            else split_run EmptyString s')
      else split_run (cur ++ String c EmptyString)%string s'
  end.

Definition split (s : string) : list string := split_run EmptyString s.

(** [s.split(sep)] for a non-empty [sep]: cut at the occurrences of [sep]
    found from left to right, without overlap.  [skip] counts the characters
    of a matched separator still to be passed over. *)
Fixpoint split_sep_from (sep : string) (skip : nat) (cur : string) (s : string)
  : list string :=
  match s with
  | EmptyString => [cur]
  | String c s' =>
      match skip with
      | S k => split_sep_from sep k cur s'
      | O =>
          if prefix sep s
          then cur :: split_sep_from sep (String.length sep - 1) EmptyString s'
          else split_sep_from sep 0 (cur ++ String c EmptyString)%string s'
      end
  end.

Definition split_sep (sep s : string) : list string :=
  split_sep_from sep 0 EmptyString s.

(** [sub in s] *)
Fixpoint contains (sub s : string) : bool :=
  prefix sub s ||
  match s with
  | EmptyString => false
  | String _ s' => contains sub s'
  end.

(** [sep.join(l)] *)
Definition join (sep : string) (l : list string) : string := String.concat sep l.

(** ** Sequences *)

(** [l[:k]]: a negative [k] counts from the end. *)
Definition slice_to (A : Type) (l : list A) (k : Z) : list A :=
  if (0 <=? k)%Z then firstn (Z.to_nat k) l
  else firstn (List.length l - Z.to_nat (- k)) l.

(** [any(p(x) for x in l)] and [sum(1 for x in l if p(x))] *)
Definition any (A : Type) (p : A -> bool) (l : list A) : bool := existsb p l.
Definition count (A : Type) (p : A -> bool) (l : list A) : nat :=
  List.length (filter p l).

(** [enumerate(l, start=n)] *)
Fixpoint enumerate (A : Type) (n : nat) (l : list A) : list (nat * A) :=
  match l with
  | [] => []
  | x :: l' => (n, x) :: enumerate (S n) l'
  end.

(** ** Sets of strings *)

Definition mem (x : string) (l : list string) : bool :=
  existsb (String.eqb x) l.

(** [s.add(x)] *)
Definition set_add (x : string) (s : list string) : list string :=
  if mem x s then s else s ++ [x].

(** [set(l)] *)
Definition set_of (l : list string) : list string :=
  fold_left (fun s x => set_add x s) l [].

(** ** Dictionaries with string keys *)

Definition Dict (V : Type) : Type := list (string * V).

(** [d.get(k)] / [d[k]]: [None] is the missing key. *)
Fixpoint get (V : Type) (k : string) (d : Dict V) : option V :=
  match d with
  | [] => None
  | (k', v) :: d' => if String.eqb k k' then Some v else get k d'
  end.

(** [d.get(k, dflt)] *)
Definition get_or (V : Type) (k : string) (dflt : V) (d : Dict V) : V :=
  match get k d with Some v => v | None => dflt end.

(** [k in d] *)
Definition has (V : Type) (k : string) (d : Dict V) : bool :=
  match get k d with Some _ => true | None => false end.

(** [d[k] = v]: an existing key keeps its position, a new one goes last. *)
Fixpoint set (V : Type) (k : string) (v : V) (d : Dict V) : Dict V :=
  match d with
  | [] => [(k, v)]
  | (k', v') :: d' =>
      if String.eqb k k' then (k', v) :: d' else (k', v') :: set k v d'
  end.

(** [d.setdefault(k, dflt)] as far as [d] is concerned; also the effect on a
    [defaultdict] of reading [d[k]]. *)
Definition setdefault (V : Type) (k : string) (dflt : V) (d : Dict V) : Dict V :=
  if has k d then d else d ++ [(k, dflt)].

Definition keys (V : Type) (d : Dict V) : list string := map fst d.
Definition values (V : Type) (d : Dict V) : list V := map snd d.

(** [{k: f(v) for k, v in d.items()}] *)
Definition map_values (V W : Type) (f : V -> W) (d : Dict V) : Dict W :=
  map (fun kv => (fst kv, f (snd kv))) d.

(** ** Numbers *)

Local Open Scope R_scope.

(** [max(a, b)]: the first argument unless the second is greater. *)
Definition max (a b : R) : R := if Rlt_dec a b then b else a.

(** [l.sort(key=key, reverse=True)]: a stable sort into descending order of
    the keys; elements with equal keys keep their relative order. *)
Fixpoint insert_desc (A : Type) (key : A -> R) (x : A) (l : list A) : list A :=
  match l with
  | [] => [x]
  | y :: l' =>
      if Rlt_dec (key x) (key y) then y :: insert_desc key x l' else x :: l
  end.

Fixpoint sort_desc (A : Type) (key : A -> R) (l : list A) : list A :=
  match l with
  | [] => []
  | x :: l' => insert_desc key x (sort_desc key l')
  end.

End Py.

(** Sequencing of calls that can raise. *)
Notation "'do' x <- c ; k" :=
  (match c with Some x => k | None => None end)
  (at level 10, x pattern, c at level 100, k at level 200).

(* ================================================================== *)
(** * data.py: the knowledge graph *)
(* ================================================================== *)

Module Data.

Import Py.
Local Open Scope string_scope.

(** [Node].  Of [metadata] the code reads the keys ["description"] and
    ["tags"], with [""] and [[]] for a missing key and every value passed
    through [str]; the record holds those two values as strings. *)
Record Node : Type := {
  node_id : string;
  label : string;
  kind : string;
  description : string;
  tags : list string
}.

(** [Hyperedge]; its [metadata] is never read. *)
Record Hyperedge : Type := {
  edge_id : string;
  relation : string;
  node_ids : list string;
  weight : R
}.

Definition text_signature (n : Node) : string :=
  strip (label n ++ " " ++ kind n ++ " " ++ description n ++ " "
         ++ join " " (tags n)).

Record KnowledgeGraph : Type := {
  nodes : Dict Node;
  hyperedges : Dict Hyperedge;
  _node_to_edges : Dict (list string)
}.

(** [KnowledgeGraph()] *)
Definition empty : KnowledgeGraph :=
  {| nodes := []; hyperedges := []; _node_to_edges := [] |}.

Definition add_node (g : KnowledgeGraph) (node : Node) : KnowledgeGraph :=
  {| nodes := set (node_id node) node (nodes g);
     hyperedges := hyperedges g;
     _node_to_edges := setdefault (node_id node) [] (_node_to_edges g) |}.

(** One turn of the loop of [add_hyperedge]:
    [self._node_to_edges.setdefault(node_id, set()).add(edge.id)]. *)
Definition link (eid : string) (index : Dict (list string)) (nid : string)
  : Dict (list string) :=
  set nid (set_add eid (get_or nid [] index)) index.

Definition add_hyperedge (g : KnowledgeGraph) (edge : Hyperedge) : KnowledgeGraph :=
  {| nodes := nodes g;
     hyperedges := set (edge_id edge) edge (hyperedges g);
     _node_to_edges := fold_left (link (edge_id edge)) (node_ids edge)
                                 (_node_to_edges g) |}.

(** The nodes one edge yields to [neighbors(node_id)]. *)
Definition related (g : KnowledgeGraph) (nid : string) (edge : Hyperedge)
  : option (list Node) :=
  fold_right
    (fun related_id rest =>
       do ns <- rest;
       if negb (String.eqb related_id nid) && has related_id (nodes g)
       then do n <- get related_id (nodes g); Some (n :: ns)
       else Some ns)
    (Some []) (node_ids edge).

(** [neighbors(node_id)], the generator read to its end; [None] when
    [self.hyperedges[edge_id]] raises. *)
Definition neighbors (g : KnowledgeGraph) (nid : string) : option (list Node) :=
  fold_right
    (fun eid rest =>
       do ns <- rest;
       do edge <- get eid (hyperedges g);
       do here <- related g nid edge;
       Some (here ++ ns)%list)
    (Some []) (get_or nid [] (_node_to_edges g)).

Definition all_nodes (g : KnowledgeGraph) : list Node := values (nodes g).

(** The graphs that [add_node] and [add_hyperedge] build. *)
Inductive built : KnowledgeGraph -> Prop :=
| built_empty : built empty
| built_add_node g n : built g -> built (add_node g n)
| built_add_hyperedge g e : built g -> built (add_hyperedge g e).

(** [related_edges(node_id)], the generator read to its end; [None] when
    [self.hyperedges[edge_id]] raises. *)
Definition related_edges (g : KnowledgeGraph) (nid : string)
  : option (list Hyperedge) :=
  fold_right
    (fun eid rest =>
       do es <- rest;
       do edge <- get eid (hyperedges g);
       Some (edge :: es))
    (Some []) (get_or nid [] (_node_to_edges g)).

Definition all_edges (g : KnowledgeGraph) : list Hyperedge := values (hyperedges g).

(** [Source]: what [nodes()] and [hyperedges()] yield, read to their end. *)
Record Source : Type := {
  source_name : string;
  source_nodes : list Node;
  source_hyperedges : list Hyperedge
}.

(** One turn of the loop of [from_sources]: every node of the source, then
    every hyperedge. *)
Definition add_source (g : KnowledgeGraph) (source : Source) : KnowledgeGraph :=
  fold_left add_hyperedge (source_hyperedges source)
            (fold_left add_node (source_nodes source) g).

Definition from_sources (sources : list Source) : KnowledgeGraph :=
  fold_left add_source sources empty.

End Data.

(* ================================================================== *)
(** * search_strategies.py *)
(* ================================================================== *)

Record SearchResult : Type := {
  node : Data.Node;
  score : R;
  strategy : string
}.

(** ** VectorSemanticSearch *)

Module Vector.

Import Py Data.
Local Open Scope R_scope.

Definition name : string := "vector".

Definition _tokenize (text : string) : list string :=
  map lower (filter (fun token => truthy (strip token)) (split text)).

(** [term_doc_frequency[term] += 1] on a [defaultdict(int)] *)
Definition bump (freq : Dict nat) (term : string) : Dict nat :=
  set term (get_or term 0%nat freq + 1)%nat freq.

(** The loop of [_build_index] over the nodes. *)
Definition term_doc_frequency (nodes : list Node) : Dict nat :=
  fold_left
    (fun freq node => fold_left bump (set_of (_tokenize (text_signature node))) freq)
    nodes [].

(** [_build_index]: the table it stores in [self._idf]. *)
Definition _build_index (nodes : list Node) : Dict R :=
  let doc_count := List.length nodes in
  map_values (fun freq => ln (INR (doc_count + 1) / INR (freq + 1)) + 1)
             (term_doc_frequency nodes).

(** [Counter(tokens)] *)
Definition Counter (tokens : list string) : Dict nat := fold_left bump tokens [].

Definition _score (idf : Dict R) (node : Node) (query_terms : list string) : R :=
  let counts := Counter (_tokenize (text_signature node)) in
  fold_left
    (fun score term =>
       let tf := get_or term 0%nat counts in
       if (tf =? 0)%nat then score
       else score + (1 + ln (INR tf)) * get_or term 0 idf)
    query_terms 0.

(** [search], from the table [idf] the instance holds: the results and the
    table the instance holds afterwards. *)
Definition search (idf : Dict R) (g : KnowledgeGraph) (query : string) (limit : Z)
  : list SearchResult * Dict R :=
  let nodes := all_nodes g in
  let idf := match idf with [] => _build_index nodes | _ => idf end in
  let query_terms := _tokenize query in
  let scored :=
    map (fun node => {| node := node; score := _score idf node query_terms;
                        strategy := name |}) nodes in
  let scored := sort_desc score scored in
  (slice_to (filter (fun r => if Rlt_dec 0 (score r) then true else false) scored)
            limit,
   idf).

End Vector.

(** ** GraphTraversalSearch *)

Module GraphTraversal.

Import Py Data.
Local Open Scope R_scope.

Definition name : string := "graph".

(** The query's keywords; only membership in the set is used. *)
Definition keywords (query : string) : list string :=
  set_of (map lower (filter (fun token => truthy (strip token)) (split query))).

Definition seeded (keywords : list string) (node : Node) : bool :=
  any (fun keyword => contains keyword (lower (text_signature node))) keywords.

Definition base_scores (g : KnowledgeGraph) (keywords : list string) : Dict R :=
  fold_left
    (fun base node => if seeded keywords node then set (node_id node) 1 base else base)
    (all_nodes g) [].

(** The body of the innermost loop, for one [neighbor] of a frontier entry
    with score [score]. *)
Definition push (score : R) (st : Dict R * list (string * R)) (neighbor : Node)
  : Dict R * list (string * R) :=
  let '(propagation, next_frontier) := st in
  let propagated := score * 0.6 in
  if Rlt_dec 0.01 propagated then
    let propagation := setdefault (node_id neighbor) 0 propagation in
    let propagation :=
      if Rlt_dec (get_or (node_id neighbor) 0 propagation) propagated
      then set (node_id neighbor)
               (max (get_or (node_id neighbor) 0 propagation) propagated)
               propagation
      else propagation in
    (propagation, next_frontier ++ [(node_id neighbor, propagated)])
  else st.

(** One hop: the loop over the frontier. *)
Fixpoint hop (g : KnowledgeGraph) (frontier : list (string * R))
    (st : Dict R * list (string * R)) : option (Dict R * list (string * R)) :=
  match frontier with
  | [] => Some st
  | (nid, score) :: frontier' =>
      do ns <- neighbors g nid;
      hop g frontier' (fold_left (push score) ns st)
  end.

(** [for _ in range(depth)] *)
Fixpoint walk (g : KnowledgeGraph) (depth : nat) (propagation : Dict R)
    (frontier : list (string * R)) : option (Dict R) :=
  match depth with
  | O => Some propagation
  | S depth' =>
      do st <- hop g frontier (propagation, []);
      walk g depth' (fst st) (snd st)
  end.

Definition combine (base propagation : Dict R) : Dict R :=
  let combined :=
    fold_left (fun c kv => set (fst kv) (get_or (fst kv) 0 c + snd kv) c) base [] in
  fold_left (fun c kv => set (fst kv) (max (get_or (fst kv) 0 c) (snd kv)) c)
            propagation combined.

Fixpoint collect (g : KnowledgeGraph) (combined : Dict R) : option (list SearchResult) :=
  match combined with
  | [] => Some []
  | (nid, sc) :: rest =>
      do n <- get nid (nodes g);
      do rs <- collect g rest;
      Some ({| node := n; score := sc; strategy := name |} :: rs)
  end.

Definition search (walk_depth : Z) (g : KnowledgeGraph) (query : string) (limit : Z)
  : option (list SearchResult) :=
  let base := base_scores g (keywords query) in
  do propagation <- walk g (Z.to_nat walk_depth) [] base;
  do results <- collect g (combine base propagation);
  Some (slice_to (sort_desc score results) limit).

End GraphTraversal.

(** ** OntologyLensSearch *)

Module OntologyLens.

Import Py Data.
Local Open Scope R_scope.

Definition name : string := "ontology".

Definition filters (query : string) : list string :=
  map (fun segment => lower (strip segment))
      (filter (fun segment => truthy (strip segment)) (split_sep " and " query)).

Definition match_count (filters : list string) (node : Node) : nat :=
  let tags := map lower (tags node) in
  count (fun filt => any (fun tag => contains filt tag) tags) filters.

Definition search (g : KnowledgeGraph) (query : string) (limit : Z)
  : list SearchResult :=
  let filters := filters query in
  let results :=
    fold_left
      (fun results node =>
         let match_count := match_count filters node in
         if (match_count =? 0)%nat then results
         else results ++ [{| node := node;
                             score := INR match_count / INR (List.length filters);
                             strategy := name |}])
      (all_nodes g) [] in
  slice_to (sort_desc score results) limit.

End OntologyLens.

(** ** The strategies, and HybridSelfImprovingSearch *)

#[local] Unset Elimination Schemes.

(** A strategy object: its class and its attributes ([_idf], [walk_depth],
    [strategies] and [weights]).  The induction principle that goes through
    the constituents of a hybrid is [Strategy_ind] below. *)
Inductive Strategy : Type :=
| VectorSemanticSearch (_idf : Py.Dict R)
| GraphTraversalSearch (walk_depth : Z)
| OntologyLensSearch
| HybridSelfImprovingSearch (strategies : list Strategy) (weights : Py.Dict R).

#[local] Set Elimination Schemes.

Module Hybrid.

Import Py Data.
Local Open Scope R_scope.

Definition name : string := "hybrid".

(** The loop over the ranked list of one constituent. *)
Definition fuse_one (weight : R)
    (st : Dict R * Dict Node) (ranked : nat * SearchResult) : Dict R * Dict Node :=
  let '(score_by_node, node_obj) := st in
  let '(rank, result) := ranked in
  let contribution := weight / INR rank in
  let nid := node_id (node result) in
  (set nid (get_or nid 0 score_by_node + contribution) score_by_node,
   set nid (node result) node_obj).

(** The loop over [strategy_results.items()]. *)
Definition fuse (weights : Dict R) (strategy_results : Dict (list SearchResult))
  : Dict R * Dict Node :=
  fold_left
    (fun st entry =>
       let weight := get_or (fst entry) 1 weights in
       fold_left (fuse_one weight) (enumerate 1 (snd entry)) st)
    strategy_results ([], []).

Fixpoint merge (node_obj : Dict Node) (score_by_node : Dict R)
  : option (list SearchResult) :=
  match score_by_node with
  | [] => Some []
  | (nid, sc) :: rest =>
      do n <- get nid node_obj;
      do rs <- merge node_obj rest;
      Some ({| node := n; score := sc; strategy := name |} :: rs)
  end.

(** [search] once every constituent has been run. *)
Definition rank_fusion (weights : Dict R)
    (strategy_results : Dict (list SearchResult)) (limit : Z)
  : option (list SearchResult) :=
  let '(score_by_node, node_obj) := fuse weights strategy_results in
  do merged <- merge node_obj score_by_node;
  Some (slice_to (sort_desc score merged) limit).

(** [update_weights] on the weight map. *)
Definition update_weights (weights : Dict R) (performance : Dict R)
    (learning_rate : R) : Dict R :=
  fold_left
    (fun weights entry =>
       let current := get_or (fst entry) 1 weights in
       set (fst entry) (max 0.1 (current + learning_rate * snd entry)) weights)
    performance weights.

End Hybrid.

Definition name (s : Strategy) : string :=
  match s with
  | VectorSemanticSearch _ => Vector.name
  | GraphTraversalSearch _ => GraphTraversal.name
  | OntologyLensSearch => OntologyLens.name
  | HybridSelfImprovingSearch _ _ => Hybrid.name
  end.

(** [{strategy.name: 1.0 for strategy in strategies}] *)
Definition initial_weights (strategies : list Strategy) : Py.Dict R :=
  fold_left (fun w s => Py.set (name s) 1%R w) strategies [].

(** [HybridSelfImprovingSearch(strategies)] *)
Definition new_hybrid (strategies : list Strategy) : Strategy :=
  HybridSelfImprovingSearch strategies (initial_weights strategies).

Section RunAll.

Variable search1 : Strategy -> option (list SearchResult * Strategy).

(** The first loop of the hybrid's [search]: every constituent is run in
    turn and its list stored under its name. *)
Fixpoint run_all (l : list Strategy) (strategy_results : Py.Dict (list SearchResult))
  : option (Py.Dict (list SearchResult) * list Strategy) :=
  match l with
  | [] => Some (strategy_results, [])
  | s :: l' =>
      do rs <- search1 s;
      do rest <- run_all l' (Py.set (name s) (fst rs) strategy_results);
      Some (fst rest, snd rs :: snd rest)
  end.

End RunAll.

(** [strategy.search(graph, query, limit)]: the results and the strategy
    object after the call. *)
Fixpoint search (s : Strategy) (g : Data.KnowledgeGraph) (query : string) (limit : Z)
  : option (list SearchResult * Strategy) :=
  match s with
  | VectorSemanticSearch idf =>
      let '(results, idf') := Vector.search idf g query limit in
      Some (results, VectorSemanticSearch idf')
  | GraphTraversalSearch walk_depth =>
      do results <- GraphTraversal.search walk_depth g query limit;
      Some (results, s)
  | OntologyLensSearch => Some (OntologyLens.search g query limit, s)
  | HybridSelfImprovingSearch strategies weights =>
      do ran <- run_all (fun s' => search s' g query limit) strategies [];
      do merged <- Hybrid.rank_fusion weights (fst ran) limit;
      Some (merged, HybridSelfImprovingSearch (snd ran) weights)
  end.

(** The hybrid's [search] over its two attributes: the results and the
    constituent objects after the call. *)
Definition search_hybrid (strategies : list Strategy) (weights : Py.Dict R)
    (g : Data.KnowledgeGraph) (query : string) (limit : Z)
  : option (list SearchResult * list Strategy) :=
  do ran <- run_all (fun s => search s g query limit) strategies [];
  do merged <- Hybrid.rank_fusion weights (fst ran) limit;
  Some (merged, snd ran).

(* ================================================================== *)
(** * self_improver.py: the league *)
(* ================================================================== *)

Module League.

Import Py Data.
Local Open Scope R_scope.

Record QueryExample : Type := {
  query : string;
  relevant_ids : list string
}.

(** [SearchLeague].  [self.hybrid] is built over the very strategy objects
    of [self.strategies]: the record holds them once, with the hybrid's
    weight map beside them. *)
Record SearchLeague : Type := {
  graph : KnowledgeGraph;
  strategies : list Strategy;
  evaluation_set : list QueryExample;
  hybrid_weights : Dict R
}.

Definition hybrid (l : SearchLeague) : Strategy :=
  HybridSelfImprovingSearch (strategies l) (hybrid_weights l).

(** [SearchLeague(graph, strategies, evaluation_set)] *)
Definition new (g : KnowledgeGraph) (strategies : list Strategy)
    (evaluation_set : list QueryExample) : SearchLeague :=
  {| graph := g; strategies := strategies; evaluation_set := evaluation_set;
     hybrid_weights := initial_weights strategies |}.

Definition _precision_at_k (results : list SearchResult) (relevant_ids : list string)
    (k : Z) : R :=
  let top_k := slice_to results k in
  match top_k with
  | [] => 0
  | _ =>
      let relevant := set_of relevant_ids in
      let hits := count (fun result => mem (node_id (node result)) relevant) top_k in
      INR hits / INR (List.length top_k)
  end.

(** [{strategy.name: 0.0 for strategy in self.strategies}] *)
Definition zeros (strategies : list Strategy) : Dict R :=
  fold_left (fun d s => set (name s) 0 d) strategies [].

(** The first inner loop of [run_round]: each strategy is run on the example
    and its precision added to [performance]. *)
Fixpoint score_each (g : KnowledgeGraph) (example : QueryExample)
    (l : list Strategy) (performance : Dict R) : option (Dict R * list Strategy) :=
  match l with
  | [] => Some (performance, [])
  | s :: l' =>
      do rs <- search s g (query example) 5;
      let sc := _precision_at_k (fst rs) (relevant_ids example) 5 in
      do old <- get (name s) performance;
      do rest <- score_each g example l' (set (name s) (old + sc) performance);
      Some (fst rest, snd rs :: snd rest)
  end.

(** The second inner loop: each strategy is run again and the hybrid's
    advantage over it added to [hybrid_performance]. *)
Fixpoint compare_each (g : KnowledgeGraph) (example : QueryExample) (hybrid_score : R)
    (l : list Strategy) (hybrid_performance : Dict R)
  : option (Dict R * list Strategy) :=
  match l with
  | [] => Some (hybrid_performance, [])
  | s :: l' =>
      do rs <- search s g (query example) 5;
      let individual_score := _precision_at_k (fst rs) (relevant_ids example) 5 in
      do old <- get (name s) hybrid_performance;
      do rest <- compare_each g example hybrid_score l'
                   (set (name s) (old + (hybrid_score - individual_score))
                        hybrid_performance);
      Some (fst rest, snd rs :: snd rest)
  end.

(** What the loop over the examples carries: the strategy objects and the
    two accumulators. *)
Record Tally : Type := {
  objects : list Strategy;
  performance : Dict R;
  hybrid_performance : Dict R
}.

(** The loop of [run_round] over the evaluation set. *)
Fixpoint evaluate (g : KnowledgeGraph) (weights : Dict R)
    (examples : list QueryExample) (t : Tally) : option Tally :=
  match examples with
  | [] => Some t
  | example :: examples' =>
      do scored <- score_each g example (objects t) (performance t);
      do hyb <- search_hybrid (snd scored) weights g (query example) 5;
      let hybrid_score := _precision_at_k (fst hyb) (relevant_ids example) 5 in
      do compared <- compare_each g example hybrid_score (snd hyb)
                       (hybrid_performance t);
      evaluate g weights examples'
        {| objects := snd compared; performance := fst scored;
           hybrid_performance := fst compared |}
  end.

(** [for name in performance: ... /= query_count], over the keys [names]. *)
Fixpoint normalize (query_count : R) (names : list string)
    (st : Dict R * Dict R) : option (Dict R * Dict R) :=
  match names with
  | [] => Some st
  | name :: names' =>
      do p <- get name (fst st);
      let performance := set name (p / query_count) (fst st) in
      do h <- get name (snd st);
      normalize query_count names'
        (performance, set name (h / query_count) (snd st))
  end.

(** [run_round]: the returned score map and the league afterwards. *)
Definition run_round (l : SearchLeague) : option (Dict R * SearchLeague) :=
  do t <- evaluate (graph l) (hybrid_weights l) (evaluation_set l)
            {| objects := strategies l; performance := zeros (strategies l);
               hybrid_performance := zeros (strategies l) |};
  let query_count := INR (Nat.max (List.length (evaluation_set l)) 1) in
  do means <- normalize query_count (keys (performance t))
                (performance t, hybrid_performance t);
  Some (fst means,
        {| graph := graph l; strategies := objects t;
           evaluation_set := evaluation_set l;
           hybrid_weights :=
             Hybrid.update_weights (hybrid_weights l) (snd means) 0.1 |}).

(** [max(scores, key=scores.get)] from the second key on: the first key
    of the greatest value. *)
Fixpoint max_by (scores : Dict R) (best : string) (names : list string) : string :=
  match names with
  | [] => best
  | name :: names' =>
      max_by scores
             (if Rlt_dec (get_or best 0 scores) (get_or name 0 scores)
              then name else best)
             names'
  end.

(** [max(scores, key=scores.get)]; [None] is the [ValueError] of an empty
    map. *)
Definition best_name (scores : Dict R) : option string :=
  match keys scores with
  | [] => None
  | name :: names => Some (max_by scores name names)
  end.

(** [champion]: the strategy returned and the league afterwards. *)
Definition champion (l : SearchLeague) : option (Strategy * SearchLeague) :=
  do round <- run_round l;
  do best <- best_name (fst round);
  Some (match find (fun s => String.eqb (name s) best) (strategies (snd round)) with
        | Some s => s
        | None => hybrid (snd round)
        end,
        snd round).

(** [n] calls of [run_round], one after the other. *)
Fixpoint rounds (n : nat) (l : SearchLeague) : option SearchLeague :=
  match n with
  | O => Some l
  | S n' => do round <- run_round l; rounds n' (snd round)
  end.

(** [build_demo_league(graph)] *)
Definition build_demo_league (g : KnowledgeGraph) : SearchLeague :=
  new g
      [VectorSemanticSearch []; GraphTraversalSearch 2; OntologyLensSearch]
      [{| query := "deep learning transformers"%string;
          relevant_ids := ["paper:attention_is_all_you_need"%string] |};
       {| query := "file specification api"%string;
          relevant_ids := ["web:spec:openapi"%string] |};
       {| query := "biology protein folding"%string;
          relevant_ids := ["paper:alphafold"%string] |}].

End League.

(* ================================================================== *)
(** * sources/science.py and sources/websnippets.py *)
(* ================================================================== *)

Module Science.

Import Py Data.
Local Open Scope string_scope.

(** An entry of [self._papers]. *)
Record Paper : Type := {
  paper_id : string;
  title : string;
  year : Z;
  authors : list string;
  abstract : string;
  topics : list string
}.

(** [nodes()] over the papers [papers]. *)
Definition nodes (papers : list Paper) : list Node :=
  map (fun paper =>
         {| node_id := paper_id paper; label := title paper; kind := "paper";
            description := abstract paper; tags := topics paper |})
      papers.

(** [topic_to_papers.setdefault(topic, []).append(paper["id"])] *)
Definition file_under (pid : string) (topic_to_papers : Dict (list string))
    (topic : string) : Dict (list string) :=
  set topic (get_or topic [] topic_to_papers ++ [pid])%list topic_to_papers.

(** The first loop of [hyperedges()]. *)
Definition topic_to_papers (papers : list Paper) : Dict (list string) :=
  fold_left (fun d paper => fold_left (file_under (paper_id paper)) (topics paper) d)
            papers [].

(** [hyperedges()] over the papers [papers]. *)
Definition hyperedges (papers : list Paper) : list Hyperedge :=
  map (fun entry : string * list string =>
         {| edge_id := "topic:" ++ fst entry; relation := "shares-topic";
            node_ids := snd entry; weight := 1%R |})
      (filter (fun entry : string * list string =>
                 (1 <? List.length (snd entry))%nat)
              (topic_to_papers papers)).

(** The source over the papers [papers]. *)
Definition source (papers : list Paper) : Source :=
  {| source_name := "science:sample"; source_nodes := nodes papers;
     source_hyperedges := hyperedges papers |}.

(** [self._papers] as [__init__] sets it. *)
Definition sample_papers : list Paper :=
  [{| paper_id := "paper:attention_is_all_you_need";
      title := "Attention Is All You Need";
      year := 2017;
      authors := ["Vaswani"; "Shazeer"; "Parmar"];
      abstract :=
        "Transformer architecture using self-attention for machine translation.";
      topics := ["deep learning"; "transformers"; "nlp"] |};
   {| paper_id := "paper:imagenet_classification";
      title := "ImageNet Classification with Deep Convolutional Neural Networks";
      year := 2012;
      authors := ["Krizhevsky"; "Sutskever"; "Hinton"];
      abstract :=
        "Introduces AlexNet and demonstrates breakthrough performance on ImageNet.";
      topics := ["computer vision"; "cnn"; "deep learning"] |};
   {| paper_id := "paper:alphafold";
      title := "Highly accurate protein structure prediction with AlphaFold";
      year := 2021;
      authors := ["Jumper"; "Evans"; "Hassabis"];
      abstract :=
        "AlphaFold models protein folding with transformer-like networks and evolutionary data.";
      topics := ["biology"; "deep learning"; "protein folding"] |}].

(** [SamplePapersSource()] *)
Definition SamplePapersSource : Source := source sample_papers.

End Science.

Module WebSnippets.

Import Py Data.
Local Open Scope string_scope.

(** An entry of [self._snippets]. *)
Record Snippet : Type := {
  snippet_id : string;
  snippet_title : string;
  summary : string;
  url : string;
  snippet_tags : list string
}.

(** [nodes()] over the snippets [snippets]. *)
Definition nodes (snippets : list Snippet) : list Node :=
  map (fun snippet =>
         {| node_id := snippet_id snippet; label := snippet_title snippet;
            kind := "web"; description := summary snippet;
            tags := snippet_tags snippet |})
      snippets.

(** [hyperedges()] over the snippets [snippets]. *)
Definition hyperedges (snippets : list Snippet) : list Hyperedge :=
  map (fun snippet =>
         {| edge_id := "web:tag:" ++ snippet_id snippet; relation := "tagged";
            node_ids := [snippet_id snippet]; weight := 1%R |})
      snippets.

(** The source over the snippets [snippets]. *)
Definition source (snippets : list Snippet) : Source :=
  {| source_name := "web:snippets"; source_nodes := nodes snippets;
     source_hyperedges := hyperedges snippets |}.

(** [self._snippets] as [__init__] sets it. *)
Definition sample_snippets : list Snippet :=
  [{| snippet_id := "web:wikipedia:deep_learning";
      snippet_title := "Deep learning - Wikipedia";
      summary :=
        "Overview article describing deep neural networks and training techniques.";
      url := "https://en.wikipedia.org/wiki/Deep_learning";
      snippet_tags := ["wikipedia"; "deep learning"; "overview"] |};
   {| snippet_id := "web:blog:ml_system_design";
      snippet_title := "Building Reliable ML Systems";
      summary :=
        "Blog post on architecting end-to-end machine learning systems for production.";
      url := "https://example.com/blog/ml-reliability";
      snippet_tags := ["mlops"; "architecture"; "reliability"] |};
   {| snippet_id := "web:spec:openapi";
      snippet_title := "OpenAPI Specification";
      summary := "Defines a standard, language-agnostic interface to REST APIs.";
      url := "https://spec.openapis.org/oas/latest.html";
      snippet_tags := ["api"; "specification"; "standards"] |}].

(** [WebSnippetSource()] *)
Definition WebSnippetSource : Source := source sample_snippets.

End WebSnippets.

(* ================================================================== *)
(** * A small corpus *)
(* ================================================================== *)

(** Two of the papers of [sources/science.py], with the hyperedge of the
    topic they share, and a league over the three base strategies. *)
Module Demo.

Import Data.
Local Open Scope string_scope.

Definition attention : Node :=
  {| node_id := "paper:attention_is_all_you_need";
     label := "Attention Is All You Need";
     kind := "paper";
     description :=
       "Transformer architecture using self-attention for machine translation.";
     tags := ["deep learning"; "transformers"; "nlp"] |}.

Definition alphafold : Node :=
  {| node_id := "paper:alphafold";
     label := "Highly accurate protein structure prediction with AlphaFold";
     kind := "paper";
     description :=
       "AlphaFold models protein folding with transformer-like networks and evolutionary data.";
     tags := ["biology"; "deep learning"; "protein folding"] |}.

Definition deep_learning : Hyperedge :=
  {| edge_id := "topic:deep learning";
     relation := "shares-topic";
     node_ids := ["paper:attention_is_all_you_need"; "paper:alphafold"];
     weight := 1%R |}.

Definition graph : KnowledgeGraph :=
  add_hyperedge (add_node (add_node empty attention) alphafold) deep_learning.

(** A graph with the one node [alphafold]. *)
Definition single : KnowledgeGraph := add_node empty alphafold.

Definition strategies : list Strategy :=
  [VectorSemanticSearch []; GraphTraversalSearch 2; OntologyLensSearch].

Definition league : League.SearchLeague :=
  League.new graph strategies
    [{| League.query := "biology protein folding";
        League.relevant_ids := ["paper:alphafold"] |}].

Definition hit : SearchResult :=
  {| node := alphafold; score := 1%R; strategy := "graph" |}.

Definition miss : SearchResult :=
  {| node := attention; score := 0.6%R; strategy := "graph" |}.

End Demo.

(* ================================================================== *)
(** * Specification-level definitions *)
(* ================================================================== *)

(** Sum of a list of reals. *)
Definition Rsum (l : list R) : R := fold_right Rplus 0%R l.

(** Descending order of the keys. *)
Definition descending (A : Type) (key : A -> R) (l : list A) : Prop :=
  StronglySorted (fun a b => (key b <= key a)%R) l.

(** Membership among a list of strings, as a boolean. *)
Definition inb (x : string) (l : list string) : bool :=
  if in_dec string_dec x l then true else false.

(** Every value of the map is at least [b]. *)
Definition floored (b : R) (weights : Py.Dict R) : Prop :=
  forall n w, Py.get n weights = Some w -> (b <= w)%R.

(** A run of [update_weights] calls, each with its performance map and its
    learning rate. *)
Definition updates (weights : Py.Dict R) (calls : list (Py.Dict R * R))
  : Py.Dict R :=
  fold_left (fun ws call => Hybrid.update_weights ws (fst call) (snd call))
            calls weights.

(** A facet matches a node when one of the node's lowercased tags contains
    it. *)
Definition facet_matches (node : Data.Node) (facet : string) : bool :=
  existsb (fun tag => Py.contains facet (Py.lower tag)) (Data.tags node).

(** The number of times a term occurs among the tokens of a node's
    signature. *)
Definition term_frequency (node : Data.Node) (term : string) : nat :=
  count_occ string_dec (Vector._tokenize (Data.text_signature node)) term.

(** The number of nodes whose signature has the term among its tokens. *)
Definition doc_frequency (nodes : list Data.Node) (term : string) : nat :=
  Py.count (fun node => inb term (Vector._tokenize (Data.text_signature node)))
           nodes.

(** [ln((N+1)/(df+1)) + 1] *)
Definition idf_value (N df : nat) : R :=
  (ln (INR (N + 1) / INR (df + 1)) + 1)%R.

(** The sum over the query terms of [(1 + ln(tf)) * idf], a term that the
    node lacks adding nothing and a term that the table lacks having idf 0. *)
Definition tfidf (idf : Py.Dict R) (node : Data.Node) (terms : list string) : R :=
  Rsum (map (fun term =>
               let tf := term_frequency node term in
               if (tf =? 0)%nat then 0%R
               else ((1 + ln (INR tf)) * Py.get_or term 0 idf)%R)
            terms).

(** Every count held by the map is positive. *)
Definition counted (freq : Py.Dict nat) : Prop :=
  forall k v, Py.get k freq = Some v -> (0 < v)%nat.

(** One call of a Vector instance's [search]. *)
Definition Call : Type := (Data.KnowledgeGraph * string * Z)%type.

(** The table a Vector instance holds after a run of [search] calls, from
    the table [idf] it held before. *)
Definition idf_after (idf : Py.Dict R) (calls : list Call) : Py.Dict R :=
  fold_left (fun idf (call : Call) =>
               let '(g, query, limit) := call in
               snd (Vector.search idf g query limit))
            calls idf.

(** [id in graph.nodes] *)
Definition registered (g : Data.KnowledgeGraph) (nid : string) : Prop :=
  Py.has nid (Data.nodes g) = true.

(** The bookkeeping of a graph is consistent: every node is stored under
    its own id, and every edge id of the adjacency index is the id of a
    stored edge. *)
Definition consistent (g : Data.KnowledgeGraph) : Prop :=
  (forall k n, In (k, n) (Data.nodes g) -> Data.node_id n = k) /\
  (forall nid edges eid,
      In (nid, edges) (Data._node_to_edges g) -> In eid edges ->
      Py.has eid (Data.hyperedges g) = true).

(** The lowercased tokens of a query. *)
Definition lowercased_tokens (query : string) : list string :=
  map Py.lower (filter (fun token => Py.truthy (Py.strip token)) (Py.split query)).

(** A node is a seed when its lowercased signature contains a lowercased
    token of the query. *)
Definition is_seed (query : string) (node : Data.Node) : bool :=
  existsb (fun token => Py.contains token (Py.lower (Data.text_signature node)))
          (lowercased_tokens query).

(** What a frontier entry with score [score] pushes to its neighbors [ns]:
    the score times 0.6, unless that is 0.01 or less. *)
Definition spread1 (score : R) (ns : list Data.Node) : list (string * R) :=
  if Rlt_dec 0.01 (score * 0.6) then map (fun m => (Data.node_id m, score * 0.6)%R) ns
  else [].

(** One hop: every entry of the frontier pushes to each of its neighbors;
    what is pushed is the next frontier. *)
Fixpoint spread (g : Data.KnowledgeGraph) (frontier : list (string * R))
  : option (list (string * R)) :=
  match frontier with
  | [] => Some []
  | (nid, score) :: frontier' =>
      do ns <- Data.neighbors g nid;
      do rest <- spread g frontier';
      Some (spread1 score ns ++ rest)
  end.

(** The values pushed in each of [depth] hops from a frontier. *)
Fixpoint hops (g : Data.KnowledgeGraph) (depth : nat) (frontier : list (string * R))
  : option (list (list (string * R))) :=
  match depth with
  | O => Some []
  | S depth' =>
      do next <- spread g frontier;
      do rest <- hops g depth' next;
      Some (next :: rest)
  end.

(** The greatest of [init] and the values that [received] holds for [k]. *)
Definition best_from (init : R) (received : list (string * R)) (k : string) : R :=
  fold_left (fun m kv => if String.eqb (fst kv) k then Rmax m (snd kv) else m)
            received init.

(** The greatest value a node received, 0 when it received none. *)
Definition best (received : list (string * R)) (k : string) : R :=
  best_from 0 received k.

(** The update of [propagation] for one pushed value. *)
Definition absorb1 (propagation : Py.Dict R) (kv : string * R) : Py.Dict R :=
  let propagation := Py.setdefault (fst kv) 0%R propagation in
  if Rlt_dec (Py.get_or (fst kv) 0%R propagation) (snd kv)
  then Py.set (fst kv) (Py.max (Py.get_or (fst kv) 0%R propagation) (snd kv))
              propagation
  else propagation.

Definition absorb (propagation : Py.Dict R) (received : list (string * R))
  : Py.Dict R :=
  fold_left absorb1 received propagation.

(** The table built at the first of the calls whose graph has a term at
    all; the empty table when there is no such call. *)
Fixpoint first_table (calls : list Call) : Py.Dict R :=
  match calls with
  | [] => []
  | (g, _, _) :: calls' =>
      match Vector._build_index (Data.all_nodes g) with
      | [] => first_table calls'
      | table => table
      end
  end.

(** What one ranked list adds to the score of the node [nid]: [weight / r]
    for every rank [r] at which the list has that node. *)
Definition contributions (weight : R) (nid : string)
    (ranked : list (nat * SearchResult)) : R :=
  Rsum (map (fun entry : nat * SearchResult =>
               if String.eqb (Data.node_id (node (snd entry))) nid
               then (weight / INR (fst entry))%R else 0%R)
            ranked).

(** The fused score of the node [nid]: the sum over the lists, each under
    the name of its strategy, of what the list adds, ranks counted from 1. *)
Definition rrf (weights : Py.Dict R) (lists : Py.Dict (list SearchResult))
    (nid : string) : R :=
  Rsum (map (fun entry : string * list SearchResult =>
               contributions (Py.get_or (fst entry) 1%R weights) nid
                             (Py.enumerate 1 (snd entry)))
            lists).

(** The map [strategy_results] once each constituent [s] has returned its
    [out]: each list is stored under the name of its strategy. *)
Definition stored (subs : list Strategy)
    (outs : list (list SearchResult * Strategy)) : Py.Dict (list SearchResult) :=
  fold_left (fun d (so : Strategy * (list SearchResult * Strategy)) =>
               Py.set (name (fst so)) (fst (snd so)) d)
            (combine subs outs) [].

(** What the loop of [run_round] keeps true of its tally: the objects are of
    the classes named [names], the two accumulators have the keys [ks], among
    which are all the names, and no accumulated precision is negative. *)
Definition tally_ok (names ks : list string) (t : League.Tally) : Prop :=
  map name (League.objects t) = names /\
  Py.keys (League.performance t) = ks /\
  Py.keys (League.hybrid_performance t) = ks /\
  (forall n, In n names -> In n ks) /\
  (forall k v, Py.get k (League.performance t) = Some v -> (0 <= v)%R).

(** What the fusion loop keeps true of its two maps: they have the same
    keys, each once, and every node is stored under its id. *)
Definition paired (st : Py.Dict R * Py.Dict Data.Node) : Prop :=
  Py.keys (fst st) = Py.keys (snd st) /\
  NoDup (Py.keys (fst st)) /\
  forall k n, Py.get k (snd st) = Some n -> Data.node_id n = k.

(** Calling again returns the same results and leaves the object as it is. *)
Definition settled (g : Data.KnowledgeGraph) (query : string) (limit : Z)
    (s : Strategy) : Prop :=
  forall results s',
    search s g query limit = Some (results, s') ->
    search s' g query limit = Some (results, s').

(** The object a strategy becomes by a [search] on the graph [g]: a Vector
    instance with an empty table gets the table of the graph's nodes. *)
Fixpoint after (g : Data.KnowledgeGraph) (s : Strategy) : Strategy :=
  match s with
  | VectorSemanticSearch idf =>
      VectorSemanticSearch
        match idf with
        | [] => Vector._build_index (Data.all_nodes g)
        | _ => idf
        end
  | GraphTraversalSearch _ => s
  | OntologyLensSearch => s
  | HybridSelfImprovingSearch strategies weights =>
      HybridSelfImprovingSearch (map (after g) strategies) weights
  end.

(** The list [s.search(g, query)] returns, with the default limit 5. *)
Definition results_of (g : Data.KnowledgeGraph) (s : Strategy) (query : string)
  : list SearchResult :=
  match search s g query 5 with Some out => fst out | None => [] end.

(** The list the hybrid over [subs] returns, with the default limit 5. *)
Definition hybrid_results (g : Data.KnowledgeGraph) (subs : list Strategy)
    (weights : Py.Dict R) (query : string) : list SearchResult :=
  match search_hybrid subs weights g query 5 with
  | Some out => fst out
  | None => []
  end.

(** The sum of [f] over the strategies named [k]. *)
Definition share (k : string) (f : Strategy -> R) (l : list Strategy) : R :=
  Rsum (map (fun s => if String.eqb (name s) k then f s else 0%R) l).

(** The precision@5 of the strategies named [k], summed over the
    examples. *)
Definition precision_total (g : Data.KnowledgeGraph) (subs : list Strategy)
    (examples : list League.QueryExample) (k : string) : R :=
  Rsum (map (fun example =>
               share k
                 (fun s =>
                    League._precision_at_k
                      (results_of g s (League.query example))
                      (League.relevant_ids example) 5)
                 subs)
            examples).

(** The hybrid's precision@5 less that of each strategy named [k], summed
    over the examples. *)
Definition advantage_total (g : Data.KnowledgeGraph) (subs : list Strategy)
    (weights : Py.Dict R) (examples : list League.QueryExample) (k : string) : R :=
  Rsum (map (fun example =>
               share k
                 (fun s =>
                    (League._precision_at_k
                       (hybrid_results g subs weights (League.query example))
                       (League.relevant_ids example) 5
                     - League._precision_at_k
                         (results_of g s (League.query example))
                         (League.relevant_ids example) 5)%R)
                 subs)
            examples).

(** The objects [l] are the strategies [subs], each as it was or as a
    [search] on [g] leaves it. *)
Definition same_calls (g : Data.KnowledgeGraph) (l subs : list Strategy) : Prop :=
  Forall2 (fun o s => o = s \/ o = after g s) l subs.

(** ** Induction over the strategies *)

Section StrategyInduction.

Variable P : Strategy -> Prop.
Hypothesis P_vector : forall idf, P (VectorSemanticSearch idf).
Hypothesis P_graph : forall walk_depth, P (GraphTraversalSearch walk_depth).
Hypothesis P_ontology : P OntologyLensSearch.
Hypothesis P_hybrid :
  forall strategies weights,
    Forall P strategies -> P (HybridSelfImprovingSearch strategies weights).

(** Induction over a strategy and the constituents of a hybrid. *)
Fixpoint Strategy_ind (s : Strategy) : P s :=
  match s with
  | VectorSemanticSearch idf => P_vector idf
  | GraphTraversalSearch walk_depth => P_graph walk_depth
  | OntologyLensSearch => P_ontology
  | HybridSelfImprovingSearch strategies weights =>
      P_hybrid weights
        ((fix all (l : list Strategy) : Forall P l :=
            match l with
            | [] => Forall_nil P
            | s' :: l' => Forall_cons s' (Strategy_ind s') (all l')
            end) strategies)
  end.

End StrategyInduction.

(** ** Definitions for the further properties *)

(** The three maps of a graph have each key once, every edge is stored
    under its own id, and no adjacency entry lists an edge twice. *)
Definition tidy (g : Data.KnowledgeGraph) : Prop :=
  NoDup (Py.keys (Data.nodes g)) /\
  NoDup (Py.keys (Data.hyperedges g)) /\
  NoDup (Py.keys (Data._node_to_edges g)) /\
  (forall k e, In (k, e) (Data.hyperedges g) -> Data.edge_id e = k) /\
  (forall nid edges, In (nid, edges) (Data._node_to_edges g) -> NoDup edges).

(** No stored edge lists an id that is not the id of a stored node. *)
Definition closed (g : Data.KnowledgeGraph) : Prop :=
  forall e nid,
    In e (Data.all_edges g) -> In nid (Data.node_ids e) -> registered g nid.

(** A source lists in its edges only ids of its own nodes. *)
Definition self_contained (source : Data.Source) : Prop :=
  forall e nid,
    In e (Data.source_hyperedges source) -> In nid (Data.node_ids e) ->
    In nid (map Data.node_id (Data.source_nodes source)).

(** Every entry of the map has a key of its own and a list that is not
    empty. *)
Definition filed (d : Py.Dict (list string)) : Prop :=
  NoDup (Py.keys d) /\ forall t ids, In (t, ids) d -> ids <> [].

(** The adjacency index is complete: every id that a stored edge lists has
    the id of the edge in its entry. *)
Definition indexed (g : Data.KnowledgeGraph) : Prop :=
  forall eid e nid,
    Py.get eid (Data.hyperedges g) = Some e -> In nid (Data.node_ids e) ->
    In eid (Py.get_or nid [] (Data._node_to_edges g)).

(** A strategy that is not a hybrid.  A hybrid passes its [limit] on to its
    constituents; the ranking of any other strategy does not depend on the
    [limit]. *)
Definition plain (s : Strategy) : bool :=
  match s with
  | HybridSelfImprovingSearch _ _ => false
  | _ => true
  end.

(** The frontier of the hop of index [i]: the seeds for the first hop, and
    for any other what the hop before it pushed. *)
Definition frontier_at (base : list (string * R)) (hs : list (list (string * R)))
    (i : nat) : list (string * R) :=
  match i with
  | O => base
  | S j => nth j hs []
  end.

(** The string is empty or has whitespace only. *)
Fixpoint blank (s : string) : bool :=
  match s with
  | EmptyString => true
  | String c s' => Py.isspace c && blank s'
  end.

(** The node's signature has a token of the query among its tokens. *)
Definition shares_token (query : string) (n : Data.Node) : bool :=
  existsb (fun term => inb term (Vector._tokenize (Data.text_signature n)))
          (Vector._tokenize query).

(** The last node of the list with the id [k]. *)
Definition last_node (k : string) (l : list Data.Node) : option Data.Node :=
  find (fun n => String.eqb (Data.node_id n) k) (rev l).

(** The ids of the papers that list [topic], one for each time a paper
    lists it, in the order of the papers. *)
Definition listing (topic : string) (papers : list Science.Paper) : list string :=
  flat_map (fun paper =>
              map (fun _ => Science.paper_id paper)
                  (filter (String.eqb topic) (Science.topics paper)))
           papers.

(* ================================================================== *)
(** * Facts about the Python primitives *)
(* ================================================================== *)

Module PyFacts.

Import Py.

(** ** Strings *)

Lemma lower_length s : String.length (lower s) = String.length s.
Proof. induction s as [|c s IH]; simpl; congruence. Qed.


Lemma prefix_iff sub s :
  prefix sub s = true <-> exists b, s = (sub ++ b)%string.
Proof.
  revert s; induction sub as [|c sub IH]; intros s.
  - split; [intros _; exists s; reflexivity | intros _; now destruct s].
  - destruct s as [|d s]; simpl.
    + split; [discriminate | intros [b Hb]; discriminate].
    + destruct (ascii_dec c d) as [->|Hne].
      * rewrite IH. split; intros [b Hb]; exists b; [now rewrite Hb | congruence].
      * split; [discriminate | intros [b Hb]; congruence].
Qed.

(** [contains] is the substring test. *)
Lemma contains_iff sub s :
  contains sub s = true <-> exists a b, s = (a ++ sub ++ b)%string.
Proof.
  induction s as [|c s IH].
  - change (contains sub EmptyString) with (prefix sub EmptyString || false).
    rewrite orb_false_r, prefix_iff. split.
    + intros [b Hb]. exists EmptyString, b. exact Hb.
    + intros [a [b Hab]]. destruct a; [exists b; exact Hab | discriminate].
  - change (contains sub (String c s))
      with (prefix sub (String c s) || contains sub s).
    rewrite orb_true_iff, prefix_iff, IH. split.
    + intros [[b Hb] | [a [b Hab]]].
      * exists EmptyString, b. exact Hb.
      * exists (String c a), b. simpl. now rewrite Hab.
    + intros [a [b Hab]]. destruct a as [|d a].
      * left. exists b. exact Hab.
      * right. exists a, b. simpl in Hab. congruence.
Qed.

(** ** Sets *)

Lemma mem_iff x l : mem x l = true <-> In x l.
Proof.
  unfold mem. rewrite existsb_exists. split.
  - intros [y [Hy Heq]]. apply String.eqb_eq in Heq. now subst.
  - intros H. exists x. split; [exact H | apply String.eqb_refl].
Qed.

Lemma mem_false_iff x l : mem x l = false <-> ~ In x l.
Proof. rewrite <- mem_iff. destruct (mem x l); split; congruence. Qed.

Lemma in_set_add x y s : In x (set_add y s) <-> x = y \/ In x s.
Proof.
  unfold set_add. destruct (mem y s) eqn:E.
  - apply mem_iff in E. split; [now right | intros [->|H]; assumption].
  - rewrite in_app_iff. simpl. split; [intros [H|[H|[]]] | intros [H|H]]; auto.
Qed.

Lemma NoDup_set_add y s : NoDup s -> NoDup (set_add y s).
Proof.
  intros H. unfold set_add. destruct (mem y s) eqn:E; [exact H|].
  apply mem_false_iff in E. apply NoDup_app; [exact H | repeat constructor; auto |].
  intros a Ha [<-|[]]. contradiction.
Qed.

Lemma in_fold_set_add l : forall s x,
  In x (fold_left (fun s x => set_add x s) l s) <-> In x l \/ In x s.
Proof.
  induction l as [|a l IH]; intros s x; simpl.
  - tauto.
  - rewrite IH, in_set_add. intuition congruence.
Qed.

Lemma NoDup_fold_set_add l : forall s,
  NoDup s -> NoDup (fold_left (fun s x => set_add x s) l s).
Proof.
  induction l as [|a l IH]; intros s H; simpl; [exact H|].
  apply IH, NoDup_set_add, H.
Qed.

Lemma in_set_of x l : In x (set_of l) <-> In x l.
Proof. unfold set_of. rewrite in_fold_set_add. simpl. tauto. Qed.

Lemma NoDup_set_of l : NoDup (set_of l).
Proof. apply NoDup_fold_set_add. constructor. Qed.

Lemma mem_set_of x l : mem x (set_of l) = inb x l.
Proof.
  unfold inb. destruct (in_dec string_dec x l) as [H|H].
  - apply mem_iff, in_set_of, H.
  - apply mem_false_iff. now rewrite in_set_of.
Qed.

(** ** Slices *)

Lemma slice_to_nonneg (A : Type) (l : list A) k :
  (0 <= k)%Z -> slice_to l k = firstn (Z.to_nat k) l.
Proof. intros H. unfold slice_to. apply Z.leb_le in H. now rewrite H. Qed.

Lemma slice_to_firstn (A : Type) (l : list A) k :
  exists n, slice_to l k = firstn n l.
Proof. unfold slice_to. destruct (0 <=? k)%Z; eexists; reflexivity. Qed.

Lemma in_firstn (A : Type) n : forall (l : list A) x, In x (firstn n l) -> In x l.
Proof.
  induction n as [|n IH]; intros [|a l] x; simpl; try tauto.
  intros [H|H]; [now left | right; apply IH, H].
Qed.

Lemma in_slice_to (A : Type) (l : list A) k x : In x (slice_to l k) -> In x l.
Proof. destruct (slice_to_firstn l k) as [n ->]. apply in_firstn. Qed.

Lemma firstn_length_le (A : Type) n (l : list A) :
  (List.length (firstn n l) <= List.length l)%nat.
Proof. rewrite length_firstn. lia. Qed.

Lemma count_le (A : Type) (p : A -> bool) l : (count p l <= List.length l)%nat.
Proof. unfold count. apply filter_length_le. Qed.

(** ** Dictionaries *)

Lemma get_set (V : Type) k k' (v : V) d :
  get k' (set k v d) = if String.eqb k' k then Some v else get k' d.
Proof.
  induction d as [|[k0 v0] d IH]; simpl.
  - reflexivity.
  - destruct (String.eqb_spec k k0) as [->|Hne]; simpl.
    + destruct (String.eqb k' k0); reflexivity.
    + rewrite IH. destruct (String.eqb_spec k' k0) as [->|Hne'].
      * destruct (String.eqb_spec k0 k); congruence.
      * reflexivity.
Qed.

Lemma get_set_eq (V : Type) k (v : V) d : get k (set k v d) = Some v.
Proof. now rewrite get_set, String.eqb_refl. Qed.

Lemma get_set_ne (V : Type) k k' (v : V) d :
  k' <> k -> get k' (set k v d) = get k' d.
Proof. intros H. rewrite get_set. apply String.eqb_neq in H. now rewrite H. Qed.

Lemma get_or_set (V : Type) k k' (v dflt : V) d :
  get_or k' dflt (set k v d) = if String.eqb k' k then v else get_or k' dflt d.
Proof. unfold get_or. rewrite get_set. now destruct (String.eqb k' k). Qed.

Lemma get_in (V : Type) k (v : V) d : get k d = Some v -> In (k, v) d.
Proof.
  induction d as [|[k0 v0] d IH]; simpl; [discriminate|].
  destruct (String.eqb_spec k k0) as [->|Hne].
  - intros [= ->]. now left.
  - intros H. right. apply IH, H.
Qed.

Lemma has_iff (V : Type) k (d : Dict V) : has k d = true <-> In k (keys d).
Proof.
  unfold has, keys. induction d as [|[k0 v0] d IH]; simpl.
  - split; [discriminate | tauto].
  - destruct (String.eqb_spec k k0) as [->|Hne].
    + split; auto.
    + rewrite IH. split; [auto | intros [H|H]; congruence].
Qed.

Lemma get_none_iff (V : Type) k (d : Dict V) : get k d = None <-> ~ In k (keys d).
Proof.
  rewrite <- has_iff. unfold has. destruct (get k d); split; congruence.
Qed.

Lemma get_some_in_keys (V : Type) k (v : V) d : get k d = Some v -> In k (keys d).
Proof. intros H. apply has_iff. unfold has. now rewrite H. Qed.

Lemma in_keys_get (V : Type) k (d : Dict V) :
  In k (keys d) -> exists v, get k d = Some v.
Proof.
  intros H. apply has_iff in H. unfold has in H.
  destruct (get k d) as [v|]; [now exists v | discriminate].
Qed.

Lemma in_get (V : Type) k (v : V) d :
  NoDup (keys d) -> In (k, v) d -> get k d = Some v.
Proof.
  unfold keys. induction d as [|[k0 v0] d IH]; simpl; [tauto|].
  intros Hnd [[= -> ->]|Hin].
  - now rewrite String.eqb_refl.
  - inversion Hnd as [|? ? Hnotin Hnd']; subst.
    destruct (String.eqb_spec k k0) as [->|Hne].
    + exfalso. apply Hnotin. apply (in_map fst) in Hin. exact Hin.
    + apply IH; assumption.
Qed.

Lemma keys_set (V : Type) k (v : V) d :
  keys (set k v d) = if has k d then keys d else (keys d ++ [k])%list.
Proof.
  unfold has, keys. induction d as [|[k0 v0] d IH]; simpl.
  - reflexivity.
  - destruct (String.eqb_spec k k0) as [->|Hne]; simpl.
    + reflexivity.
    + rewrite IH. now destruct (get k d).
Qed.

Lemma in_keys_set (V : Type) k k' (v : V) d :
  In k' (keys (set k v d)) <-> k' = k \/ In k' (keys d).
Proof.
  rewrite keys_set. destruct (has k d) eqn:E.
  - apply has_iff in E. split; [auto | intros [->|H]; assumption].
  - rewrite in_app_iff. simpl. intuition congruence.
Qed.

Lemma NoDup_keys_set (V : Type) k (v : V) d :
  NoDup (keys d) -> NoDup (keys (set k v d)).
Proof.
  intros H. rewrite keys_set. destruct (has k d) eqn:E; [exact H|].
  assert (Hn : ~ In k (keys d)) by (rewrite <- has_iff; congruence).
  apply NoDup_app; [exact H | repeat constructor; auto |].
  intros a Ha [<-|[]]. contradiction.
Qed.

Lemma in_set_inv (V : Type) k k' (v v' : V) d :
  In (k', v') (set k v d) -> (k' = k /\ v' = v) \/ In (k', v') d.
Proof.
  induction d as [|[k0 v0] d IH]; simpl.
  - intros [[= <- <-]|[]]. now left.
  - destruct (String.eqb_spec k k0) as [->|Hne]; simpl.
    + intros [[= <- <-]|H]; auto.
    + intros [H|H]; [auto | destruct (IH H); auto].
Qed.

Lemma keys_setdefault (V : Type) k (v : V) d :
  keys (setdefault k v d) = if has k d then keys d else (keys d ++ [k])%list.
Proof.
  unfold setdefault. destruct (has k d); [reflexivity|].
  unfold keys. now rewrite map_app.
Qed.

Lemma get_app (V : Type) k (d1 d2 : Dict V) :
  get k (d1 ++ d2)%list = match get k d1 with Some v => Some v | None => get k d2 end.
Proof.
  induction d1 as [|[k0 v0] d1 IH]; simpl; [reflexivity|].
  now destruct (String.eqb k k0).
Qed.

Lemma get_setdefault (V : Type) k k' (v : V) d :
  get k' (setdefault k v d) =
  match get k' d with
  | Some w => Some w
  | None => if String.eqb k' k then Some v else None
  end.
Proof.
  unfold setdefault, has. destruct (get k d) as [w|] eqn:E.
  - destruct (get k' d) eqn:E'; [reflexivity|].
    destruct (String.eqb_spec k' k) as [->|]; congruence.
  - rewrite get_app. simpl. reflexivity.
Qed.

Lemma get_or_setdefault (V : Type) k (v : V) d :
  get_or k v (setdefault k v d) = get_or k v d.
Proof.
  unfold get_or. rewrite get_setdefault, String.eqb_refl. now destruct (get k d).
Qed.

Lemma NoDup_keys_setdefault (V : Type) k (v : V) d :
  NoDup (keys d) -> NoDup (keys (setdefault k v d)).
Proof.
  intros H. rewrite keys_setdefault. destruct (has k d) eqn:E; [exact H|].
  assert (Hn : ~ In k (keys d)) by (rewrite <- has_iff; congruence).
  apply NoDup_app; [exact H | repeat constructor; auto |].
  intros a Ha [<-|[]]. contradiction.
Qed.

Lemma keys_map_values (V W : Type) (f : V -> W) d : keys (map_values f d) = keys d.
Proof. unfold keys, map_values. rewrite map_map. reflexivity. Qed.

Lemma get_map_values (V W : Type) (f : V -> W) k d :
  get k (map_values f d) = option_map f (get k d).
Proof.
  induction d as [|[k0 v0] d IH]; simpl; [reflexivity|].
  now destruct (String.eqb k k0).
Qed.

(** ** [max] and the sort *)

Local Open Scope R_scope.

Lemma max_Rmax a b : max a b = Rmax a b.
Proof.
  unfold max, Rmax. destruct (Rlt_dec a b), (Rle_dec a b); try reflexivity; lra.
Qed.

Lemma max_l a b : a <= max a b.
Proof. unfold max. destruct (Rlt_dec a b); lra. Qed.

Lemma max_r a b : b <= max a b.
Proof. unfold max. destruct (Rlt_dec a b); lra. Qed.

Section Sort.

Variable A : Type.
Variable key : A -> R.

Lemma insert_desc_perm x l : Permutation (insert_desc key x l) (x :: l).
Proof.
  induction l as [|y l IH]; simpl; [reflexivity|].
  destruct (Rlt_dec (key x) (key y)); [|reflexivity].
  rewrite IH. apply perm_swap.
Qed.

Lemma sort_desc_perm l : Permutation (sort_desc key l) l.
Proof.
  induction l as [|x l IH]; simpl; [reflexivity|].
  rewrite insert_desc_perm. now constructor.
Qed.

Lemma in_sort_desc x l : In x (sort_desc key l) <-> In x l.
Proof.
  split; apply Permutation_in; [|symmetry]; apply sort_desc_perm.
Qed.

Lemma insert_desc_sorted x l : descending key l -> descending key (insert_desc key x l).
Proof.
  unfold descending. induction l as [|y l IH]; intros H; simpl.
  - repeat constructor.
  - inversion H as [|? ? Hl Hy]; subst.
    destruct (Rlt_dec (key x) (key y)) as [Hlt|Hge].
    + constructor; [apply IH, Hl|].
      rewrite Forall_forall in *. intros z Hz.
      apply (Permutation_in _ (insert_desc_perm x l)) in Hz.
      destruct Hz as [<-|Hz]; [lra | apply Hy, Hz].
    + constructor; [exact H|].
      constructor; [lra|].
      rewrite Forall_forall in *. intros z Hz. specialize (Hy z Hz). lra.
Qed.

Lemma sort_desc_sorted l : descending key (sort_desc key l).
Proof.
  induction l as [|x l IH]; simpl; [constructor | apply insert_desc_sorted, IH].
Qed.

Lemma descending_firstn n : forall l, descending key l -> descending key (firstn n l).
Proof.
  unfold descending. induction n as [|n IH]; intros [|x l] H; simpl;
    try constructor.
  - inversion H; subst. apply IH; assumption.
  - inversion H as [|? ? Hl Hx]; subst.
    rewrite Forall_forall in *. intros z Hz. apply Hx. eapply in_firstn, Hz.
Qed.

Lemma descending_slice_to l k : descending key l -> descending key (slice_to l k).
Proof.
  intros H. destruct (slice_to_firstn l k) as [n ->]. now apply descending_firstn.
Qed.

Lemma descending_filter (p : A -> bool) l : descending key l -> descending key (filter p l).
Proof.
  unfold descending. induction l as [|x l IH]; intros H; simpl; [constructor|].
  inversion H as [|? ? Hl Hx]; subst.
  destruct (p x); [|apply IH, Hl].
  constructor; [apply IH, Hl|].
  rewrite Forall_forall in *. intros z Hz. apply filter_In in Hz. apply Hx, Hz.
Qed.

End Sort.

End PyFacts.

(* ================================================================== *)
(** * The league's precision *)
(* ================================================================== *)

Module PrecisionFacts.

Import Py PyFacts Data League.
Local Open Scope R_scope.

Lemma ratio_bounds (h n : nat) :
  (h <= n)%nat -> (0 < n)%nat -> 0 <= INR h / INR n <= 1.
Proof.
  intros Hle Hpos.
  assert (Hn : 0 < INR n) by (apply lt_0_INR; exact Hpos).
  assert (Hh : 0 <= INR h) by apply pos_INR.
  assert (Hhn : INR h <= INR n) by (apply le_INR; exact Hle).
  split.
  - apply Rmult_le_pos; [exact Hh | left; apply Rinv_0_lt_compat; exact Hn].
  - apply Rmult_le_reg_r with (INR n); [exact Hn|].
    unfold Rdiv. rewrite Rmult_assoc, Rinv_l by lra. lra.
Qed.

(** The value of [_precision_at_k] in terms of the prefix it takes. *)
Lemma precision_value results relevant_ids k :
  _precision_at_k results relevant_ids k =
  match slice_to results k with
  | [] => 0
  | top_k =>
      INR (count (fun r => inb (node_id (node r)) relevant_ids) top_k)
      / INR (List.length top_k)
  end.
Proof.
  unfold _precision_at_k. destruct (slice_to results k) as [|r top]; [reflexivity|].
  assert (E : forall l : list SearchResult,
             count (fun result => mem (node_id (node result)) (set_of relevant_ids)) l
             = count (fun r => inb (node_id (node r)) relevant_ids) l).
  { intros l. unfold count. f_equal. apply filter_ext. intros a. apply mem_set_of. }
  now rewrite E.
Qed.

Lemma precision_bounds results relevant_ids k :
  0 <= _precision_at_k results relevant_ids k <= 1.
Proof.
  rewrite precision_value. destruct (slice_to results k) as [|r top]; [lra|].
  apply ratio_bounds; [apply count_le | simpl; lia].
Qed.

(** C5: for a non-negative [k], [_precision_at_k] takes the first [k]
    results (all of them when there are fewer), is 0 when that prefix is
    empty, and otherwise is the number of taken results whose node id is
    among [relevant_ids] divided by the number of results taken; the value
    lies between 0 and 1. *)
Theorem precision_at_k_spec results relevant_ids k :
  (0 <= k)%Z ->
  let top_k := firstn (Z.to_nat k) results in
  let hits := count (fun r => inb (node_id (node r)) relevant_ids) top_k in
  List.length top_k = Nat.min (Z.to_nat k) (List.length results) /\
  (top_k = [] -> _precision_at_k results relevant_ids k = 0) /\
  (top_k <> [] ->
   _precision_at_k results relevant_ids k = INR hits / INR (List.length top_k)) /\
  0 <= _precision_at_k results relevant_ids k <= 1.
Proof.
  intros Hk top_k hits.
  split; [apply length_firstn|].
  pose proof (precision_value results relevant_ids k) as Hv.
  rewrite (slice_to_nonneg results Hk) in Hv. fold top_k in Hv.
  split; [|split].
  - intros E. rewrite Hv, E. reflexivity.
  - intros Hne. rewrite Hv. subst hits. destruct top_k; [contradiction | reflexivity].
  - apply precision_bounds.
Qed.

End PrecisionFacts.

(* ================================================================== *)
(** * The hybrid's weights *)
(* ================================================================== *)

Module WeightFacts.

Import Py PyFacts.
Local Open Scope R_scope.

Lemma initial_weights_from strategies : forall w0,
  (forall n w, get n w0 = Some w -> w = 1) ->
  forall n w,
    get n (fold_left (fun w s => set (name s) 1 w) strategies w0) = Some w -> w = 1.
Proof.
  induction strategies as [|s l IH]; intros w0 H0 n w; simpl.
  - apply H0.
  - apply IH. intros n' w'. rewrite get_set.
    destruct (String.eqb n' (name s)); [congruence | apply H0].
Qed.

Lemma initial_weights_one strategies n w :
  get n (initial_weights strategies) = Some w -> w = 1.
Proof. apply initial_weights_from. intros ? ?; discriminate. Qed.

Lemma initial_weights_keep strategies : forall w0 n,
  get n w0 = Some 1 ->
  get n (fold_left (fun w s => set (name s) 1 w) strategies w0) = Some 1.
Proof.
  induction strategies as [|s l IH]; intros w0 n H; simpl; [exact H|].
  apply IH. rewrite get_set. now destruct (String.eqb n (name s)).
Qed.

Lemma initial_weights_has strategies : forall w0 s,
  In s strategies ->
  get (name s) (fold_left (fun w s => set (name s) 1 w) strategies w0) = Some 1.
Proof.
  induction strategies as [|s0 l IH]; intros w0 s; simpl; [tauto|].
  intros [->|Hin].
  - apply initial_weights_keep, get_set_eq.
  - apply IH, Hin.
Qed.

Lemma update_weights_floored performance : forall weights learning_rate,
  floored 0.1 weights ->
  floored 0.1 (Hybrid.update_weights weights performance learning_rate).
Proof.
  unfold Hybrid.update_weights.
  induction performance as [|[n delta] p IH]; intros ws lr H; simpl; [exact H|].
  apply IH. intros n' w'. rewrite get_set.
  destruct (String.eqb n' n).
  - intros [= <-]. apply max_l.
  - apply H.
Qed.

Lemma updates_floored calls : forall weights,
  floored 0.1 weights -> floored 0.1 (updates weights calls).
Proof.
  unfold updates.
  induction calls as [|[p lr] calls IH]; intros ws H; simpl; [exact H|].
  apply IH, update_weights_floored, H.
Qed.

(** C4: every weight of a new hybrid is 1.0, one for each constituent;
    after any run of [update_weights] calls, whatever the performance maps
    and the learning rates, every weight of the map is at least 0.1; and no
    bound holds from above: one call lifts the weight of any name over any
    given bound. *)
Theorem hybrid_weights_floor :
  (forall strategies n w, get n (initial_weights strategies) = Some w -> w = 1) /\
  (forall strategies s,
      In s strategies -> get (name s) (initial_weights strategies) = Some 1) /\
  (forall strategies calls n w,
      get n (updates (initial_weights strategies) calls) = Some w -> 0.1 <= w) /\
  (forall weights n bound,
      exists performance w,
        get n (Hybrid.update_weights weights performance 0.1) = Some w /\
        bound < w).
Proof.
  split; [exact initial_weights_one|].
  split; [intros l s; apply initial_weights_has|].
  split.
  - intros l calls. apply updates_floored.
    intros n w H. apply initial_weights_one in H. lra.
  - intros ws n bound.
    set (current := get_or n 1 ws).
    set (delta := 10 * (Rabs bound + Rabs current + 1)).
    exists [(n, delta)], (max 0.1 (current + 0.1 * delta)).
    split; [simpl; apply get_set_eq|].
    apply Rlt_le_trans with (current + 0.1 * delta); [|apply max_r].
    subst delta. pose proof (Rle_abs bound). pose proof (Rle_abs (- current)).
    rewrite Rabs_Ropp in *. lra.
Qed.

End WeightFacts.

(* ================================================================== *)
(** * OntologyLensSearch *)
(* ================================================================== *)

Module OntologyFacts.

Import Py PyFacts Data.
Local Open Scope R_scope.


Lemma match_count_facets fs node :
  OntologyLens.match_count fs node = count (facet_matches node) fs.
Proof.
  unfold OntologyLens.match_count, count, any, facet_matches.
  f_equal. apply filter_ext. intros f.
  induction (tags node) as [|t l IH]; simpl; [reflexivity | now rewrite IH].
Qed.


(** The list the loop over the nodes builds. *)
Lemma matched_fold fs (l : list Node) : forall acc,
  fold_left
    (fun results node =>
       let match_count := OntologyLens.match_count fs node in
       if (match_count =? 0)%nat then results
       else (results ++ [{| node := node;
                            score := INR match_count / INR (List.length fs);
                            strategy := OntologyLens.name |}])%list)
    l acc
  = (acc ++ map (fun node =>
                   {| node := node;
                      score := INR (OntologyLens.match_count fs node)
                               / INR (List.length fs);
                      strategy := OntologyLens.name |})
                (filter (fun node =>
                           negb (OntologyLens.match_count fs node =? 0)%nat) l))%list.
Proof.
  induction l as [|n l IH]; intros acc; simpl.
  - now rewrite app_nil_r.
  - rewrite IH. destruct (OntologyLens.match_count fs n =? 0)%nat; simpl.
    + reflexivity.
    + now rewrite <- app_assoc.
Qed.

Lemma search_result_inv g query limit r :
  In r (OntologyLens.search g query limit) ->
  In (node r) (all_nodes g) /\
  (0 < OntologyLens.match_count (OntologyLens.filters query) (node r))%nat /\
  score r = INR (OntologyLens.match_count (OntologyLens.filters query) (node r))
            / INR (List.length (OntologyLens.filters query)).
Proof.
  unfold OntologyLens.search. intros H.
  apply in_slice_to, in_sort_desc in H.
  rewrite matched_fold in H. simpl in H.
  apply in_map_iff in H. destruct H as [n [<- Hn]].
  apply filter_In in Hn. destruct Hn as [Hin Hpos]. simpl.
  apply negb_true_iff, Nat.eqb_neq in Hpos.
  repeat split; [exact Hin | lia].
Qed.


End OntologyFacts.

(* ================================================================== *)
(** * VectorSemanticSearch *)
(* ================================================================== *)

Module VectorFacts.

Import Py PyFacts Data.
Local Open Scope R_scope.

Lemma bump_counted freq term : counted freq -> counted (Vector.bump freq term).
Proof.
  unfold counted, Vector.bump. intros H k v. rewrite get_set.
  destruct (String.eqb k term); [intros [= <-]; lia | apply H].
Qed.

Lemma bump_all_counted l : forall freq,
  counted freq -> counted (fold_left Vector.bump l freq).
Proof.
  induction l as [|t l IH]; intros freq H; simpl; [exact H|].
  apply IH, bump_counted, H.
Qed.

Lemma bump_all_get term l : forall freq,
  get_or term 0%nat (fold_left Vector.bump l freq)
  = (get_or term 0%nat freq + count_occ string_dec l term)%nat.
Proof.
  induction l as [|t l IH]; intros freq; simpl; [lia|].
  rewrite IH. unfold Vector.bump at 1. rewrite get_or_set.
  destruct (string_dec t term) as [->|Hne].
  - rewrite String.eqb_refl. lia.
  - destruct (String.eqb_spec term t); [congruence | lia].
Qed.

(** [Counter(tokens).get(term, 0)] counts the occurrences of [term]. *)
Lemma Counter_get tokens term :
  get_or term 0%nat (Vector.Counter tokens) = count_occ string_dec tokens term.
Proof. unfold Vector.Counter. now rewrite bump_all_get. Qed.

Lemma count_occ_set_of l term :
  count_occ string_dec (set_of l) term = if inb term l then 1%nat else 0%nat.
Proof.
  unfold inb. destruct (in_dec string_dec term l) as [Hin|Hout].
  - apply in_set_of in Hin. apply (count_occ_In string_dec) in Hin.
    pose proof (proj1 (NoDup_count_occ string_dec (set_of l)) (NoDup_set_of l) term).
    lia.
  - rewrite <- in_set_of in Hout. now apply count_occ_not_In.
Qed.

Lemma term_doc_frequency_from term nodes : forall freq,
  get_or term 0%nat
    (fold_left
       (fun freq node =>
          fold_left Vector.bump (set_of (Vector._tokenize (text_signature node))) freq)
       nodes freq)
  = (get_or term 0%nat freq + doc_frequency nodes term)%nat.
Proof.
  unfold doc_frequency, count.
  induction nodes as [|n nodes IH]; intros freq; simpl; [lia|].
  rewrite IH, bump_all_get, count_occ_set_of.
  destruct (inb term (Vector._tokenize (text_signature n))); simpl; lia.
Qed.

Lemma term_doc_frequency_counted nodes : forall freq,
  counted freq ->
  counted (fold_left
             (fun freq node =>
                fold_left Vector.bump
                          (set_of (Vector._tokenize (text_signature node))) freq)
             nodes freq).
Proof.
  induction nodes as [|n nodes IH]; intros freq H; simpl; [exact H|].
  apply IH, bump_all_counted, H.
Qed.

Lemma term_doc_frequency_get nodes term :
  get term (Vector.term_doc_frequency nodes) =
  if (doc_frequency nodes term =? 0)%nat then None
  else Some (doc_frequency nodes term).
Proof.
  pose proof (term_doc_frequency_from term nodes []) as Hget.
  assert (Hpos : counted (Vector.term_doc_frequency nodes)).
  { apply term_doc_frequency_counted. intros ? ?; discriminate. }
  fold (Vector.term_doc_frequency nodes) in Hget.
  unfold get_or in Hget. simpl in Hget.
  destruct (get term (Vector.term_doc_frequency nodes)) as [v|] eqn:E.
  - apply Hpos in E. subst v.
    destruct (Nat.eqb_spec (doc_frequency nodes term) 0); [lia | reflexivity].
  - now rewrite <- Hget.
Qed.

(** The table [_build_index] stores: [ln((N+1)/(df+1)) + 1] for the terms
    of the signatures, nothing for the others. *)
Lemma build_index_get nodes term :
  get term (Vector._build_index nodes) =
  if (doc_frequency nodes term =? 0)%nat then None
  else Some (idf_value (List.length nodes) (doc_frequency nodes term)).
Proof.
  unfold Vector._build_index. rewrite get_map_values, term_doc_frequency_get.
  now destruct (doc_frequency nodes term =? 0)%nat.
Qed.

Lemma score_from idf node terms : forall acc,
  fold_left
    (fun score term =>
       let tf := get_or term 0%nat
                        (Vector.Counter (Vector._tokenize (text_signature node))) in
       if (tf =? 0)%nat then score
       else score + (1 + ln (INR tf)) * get_or term 0 idf)
    terms acc
  = acc + tfidf idf node terms.
Proof.
  unfold tfidf, Rsum.
  induction terms as [|t terms IH]; intros acc; simpl; [lra|].
  rewrite IH, Counter_get. fold (term_frequency node t).
  destruct (term_frequency node t =? 0)%nat; lra.
Qed.

Lemma score_tfidf idf node terms : Vector._score idf node terms = tfidf idf node terms.
Proof. unfold Vector._score. rewrite score_from. lra. Qed.

Lemma positive_filter (r : SearchResult) :
  (if Rlt_dec 0 (score r) then true else false) = true <-> 0 < score r.
Proof. destruct (Rlt_dec 0 (score r)); split; auto; discriminate. Qed.

(** C2: the table built over [N] signatures gives a term found in [df] of
    them [ln((N+1)/(df+1)) + 1] and holds no other term; the score of a node
    is the sum over the query terms that occur in its tokenized signature of
    [(1 + ln(tf)) * idf], with idf 0 for a term the table lacks; and the
    results are a prefix, cut by [limit], of the scored nodes with a score
    above 0 in descending order: the others are dropped before the cut. *)
Theorem vector_search_spec idf g query limit :
  let nodes := all_nodes g in
  let table := snd (Vector.search idf g query limit) in
  let terms := Vector._tokenize query in
  (forall term,
      get term (Vector._build_index nodes) =
      if (doc_frequency nodes term =? 0)%nat then None
      else Some (idf_value (List.length nodes) (doc_frequency nodes term))) /\
  table = match idf with [] => Vector._build_index nodes | _ => idf end /\
  (forall node, Vector._score table node terms = tfidf table node terms) /\
  exists ranked,
    fst (Vector.search idf g query limit) = slice_to ranked limit /\
    descending score ranked /\
    (forall r,
        In r ranked <->
        0 < score r /\
        exists n, In n nodes /\
                  r = {| node := n; score := tfidf table n terms;
                         strategy := Vector.name |}).
Proof.
  intros nodes table terms.
  split; [intros term; apply build_index_get|].
  split; [reflexivity|].
  split; [intros node; apply score_tfidf|].
  unfold Vector.search. fold nodes. simpl. simpl in table. fold nodes in table.
  fold table. fold terms.
  eexists. split; [reflexivity|]. split.
  - apply descending_filter, sort_desc_sorted.
  - intros r. rewrite filter_In, positive_filter, in_sort_desc, in_map_iff.
    split.
    + intros [[n [<- Hn]] Hpos]. split; [exact Hpos|].
      exists n. split; [exact Hn|]. now rewrite score_tfidf.
    + intros [Hpos [n [Hn ->]]]. split; [|exact Hpos].
      exists n. split; [|exact Hn]. now rewrite score_tfidf.
Qed.

End VectorFacts.

(* ================================================================== *)
(** * The strategy objects: induction, the cache, determinism *)
(* ================================================================== *)

Module StrategyFacts.

Import Py PyFacts Data.
Local Open Scope R_scope.

Lemma search_vector idf g query limit :
  search (VectorSemanticSearch idf) g query limit =
  Some (fst (Vector.search idf g query limit),
        VectorSemanticSearch (snd (Vector.search idf g query limit))).
Proof. reflexivity. Qed.

Lemma vector_table idf g query limit :
  snd (Vector.search idf g query limit) =
  match idf with [] => Vector._build_index (all_nodes g) | _ => idf end.
Proof. reflexivity. Qed.

(** A second call finds the table the first one left and computes the same. *)
Lemma vector_search_again idf g query limit :
  Vector.search (snd (Vector.search idf g query limit)) g query limit
  = Vector.search idf g query limit.
Proof.
  rewrite vector_table. destruct idf as [|e idf]; [|reflexivity].
  unfold Vector.search.
  destruct (Vector._build_index (all_nodes g)) as [|e t]; reflexivity.
Qed.

Lemma vector_settled idf g query limit :
  search (VectorSemanticSearch (snd (Vector.search idf g query limit))) g query limit
  = Some (fst (Vector.search idf g query limit),
          VectorSemanticSearch (snd (Vector.search idf g query limit))).
Proof. rewrite search_vector, vector_search_again. reflexivity. Qed.

Lemma search_hybrid_eq strategies weights g query limit :
  search (HybridSelfImprovingSearch strategies weights) g query limit =
  do r <- search_hybrid strategies weights g query limit;
  Some (fst r, HybridSelfImprovingSearch (snd r) weights).
Proof.
  unfold search_hybrid. simpl.
  destruct (run_all _ strategies []) as [ran|]; [|reflexivity].
  now destruct (Hybrid.rank_fusion weights (fst ran) limit).
Qed.

(** The object a call returns is of the class it was called on. *)
Lemma search_name s g query limit results s' :
  search s g query limit = Some (results, s') -> name s' = name s.
Proof.
  destruct s as [idf|d| |l w]; simpl.
  - intros [= _ <-]. reflexivity.
  - destruct (GraphTraversal.search d g query limit); [|discriminate].
    intros [= _ <-]. reflexivity.
  - intros [= _ <-]. reflexivity.
  - destruct (run_all _ l []) as [ran|]; [|discriminate].
    destruct (Hybrid.rank_fusion w (fst ran) limit); [|discriminate].
    intros [= _ <-]. reflexivity.
Qed.

Section Again.

Variables (g : KnowledgeGraph) (query : string) (limit : Z).

Lemma run_all_again l : Forall (settled g query limit) l -> forall acc res l',
  run_all (fun s => search s g query limit) l acc = Some (res, l') ->
  run_all (fun s => search s g query limit) l' acc = Some (res, l').
Proof.
  induction 1 as [|s l Hs Hl IH]; intros acc res l'; simpl.
  - intros [= <- <-]. reflexivity.
  - destruct (search s g query limit) as [[r s1]|] eqn:E1; [|discriminate]. simpl.
    destruct (run_all _ l (set (name s) r acc)) as [[res1 l1]|] eqn:E2;
      [|discriminate].
    simpl. intros [= <- <-]. simpl.
    rewrite (Hs _ _ E1). simpl.
    rewrite (search_name _ _ _ _ E1).
    rewrite (IH _ _ _ E2). reflexivity.
Qed.

Lemma search_settled s : settled g query limit s.
Proof.
  induction s as [idf|d| |l w IH] using Strategy_ind; intros results s'.
  - rewrite search_vector. intros [= <- <-].
    exact (vector_settled idf g query limit).
  - simpl. destruct (GraphTraversal.search d g query limit) as [r|] eqn:E;
      [|discriminate].
    intros [= <- <-]. simpl. now rewrite E.
  - simpl. intros [= <- <-]. reflexivity.
  - simpl.
    destruct (run_all _ l []) as [[res l1]|] eqn:E; [|discriminate]. simpl.
    destruct (Hybrid.rank_fusion w res limit) as [m|] eqn:Em; [|discriminate].
    intros [= <- <-]. simpl.
    rewrite (run_all_again IH _ E). simpl. now rewrite Em.
Qed.

End Again.

(** ** The object after a call *)

Lemma name_after g s : name (after g s) = name s.
Proof. destruct s; reflexivity. Qed.

Lemma run_all_after g query limit l :
  Forall (fun s => forall r s',
            search s g query limit = Some (r, s') -> s' = after g s) l ->
  forall acc res l',
    run_all (fun s => search s g query limit) l acc = Some (res, l') ->
    l' = map (after g) l.
Proof.
  induction 1 as [|s l Hs _ IH]; intros acc res l'; simpl.
  - intros [= _ <-]. reflexivity.
  - destruct (search s g query limit) as [[r s1]|] eqn:E1; [|discriminate]. simpl.
    destruct (run_all _ l (set (name s) r acc)) as [[res1 l1]|] eqn:E2;
      [|discriminate].
    simpl. intros [= _ <-]. now rewrite (Hs _ _ eq_refl), (IH _ _ _ E2).
Qed.

(** Whatever the query and the limit, a call leaves the object [after g s]. *)
Lemma search_after g s : forall query limit results s',
  search s g query limit = Some (results, s') -> s' = after g s.
Proof.
  induction s as [idf|d| |l w IH] using Strategy_ind; intros query limit results s'.
  - rewrite search_vector. intros [= _ <-]. reflexivity.
  - simpl. destruct (GraphTraversal.search d g query limit); [|discriminate].
    intros [= _ <-]. reflexivity.
  - simpl. intros [= _ <-]. reflexivity.
  - simpl.
    destruct (run_all _ l []) as [[res l1]|] eqn:E; [|discriminate]. simpl.
    destruct (Hybrid.rank_fusion w res limit); [|discriminate].
    intros [= _ <-]. f_equal. eapply run_all_after; [|exact E].
    eapply Forall_impl; [|exact IH]. intros s Hs r s1. apply Hs.
Qed.

Lemma run_all_of_after g query limit l :
  Forall (fun s => search (after g s) g query limit = search s g query limit) l ->
  forall acc,
    run_all (fun s => search s g query limit) (map (after g) l) acc
    = run_all (fun s => search s g query limit) l acc.
Proof.
  induction 1 as [|s l Hs _ IH]; intros acc; simpl; [reflexivity|].
  rewrite Hs, name_after.
  destruct (search s g query limit) as [[r s1]|]; [|reflexivity]. simpl.
  now rewrite IH.
Qed.

(** A call on the object a call left does what a call on the object itself
    does: on a fixed graph what [search] returns does not depend on the calls
    before. *)
Lemma search_of_after g s : forall query limit,
  search (after g s) g query limit = search s g query limit.
Proof.
  induction s as [idf|d| |l w IH] using Strategy_ind; intros query limit;
    try reflexivity.
  - change (after g (VectorSemanticSearch idf))
      with (VectorSemanticSearch (snd (Vector.search idf g query limit))).
    rewrite vector_settled, search_vector. reflexivity.
  - change (after g (HybridSelfImprovingSearch l w))
      with (HybridSelfImprovingSearch (map (after g) l) w).
    rewrite !search_hybrid_eq. unfold search_hybrid.
    rewrite run_all_of_after; [reflexivity|].
    eapply Forall_impl; [|exact IH]. intros s Hs. apply Hs.
Qed.

Lemma after_after g s : after g (after g s) = after g s.
Proof.
  induction s as [idf|d| |l w IH] using Strategy_ind; try reflexivity.
  - simpl. destruct idf as [|e idf]; [|reflexivity].
    now destruct (Vector._build_index (all_nodes g)).
  - simpl. f_equal. rewrite map_map. apply map_ext_in.
    intros s Hs. rewrite Forall_forall in IH. now apply IH.
Qed.

Lemma idf_after_nonempty entry idf calls :
  idf_after (entry :: idf) calls = entry :: idf.
Proof.
  unfold idf_after. induction calls as [|[[g q] k] calls IH]; simpl; [reflexivity|].
  exact IH.
Qed.

(** C7, as the code has it: a [search] call builds the table from the
    nodes of the graph it is given whenever the table it finds is empty (on
    the first call, and on a later call that still finds it empty), and
    leaves a non-empty table as it is, whatever the graphs of the later
    calls: a new instance holds, after any calls, the table built at the
    first call whose graph had a term. *)
Theorem vector_idf_cache :
  (forall idf g query limit,
      search (VectorSemanticSearch idf) g query limit =
      Some (fst (Vector.search idf g query limit),
            VectorSemanticSearch
              match idf with
              | [] => Vector._build_index (all_nodes g)
              | _ => idf
              end)) /\
  (forall entry idf calls, idf_after (entry :: idf) calls = entry :: idf) /\
  (forall g query limit calls,
      idf_after [] ((g, query, limit) :: calls)
      = idf_after (Vector._build_index (all_nodes g)) calls) /\
  (forall calls, idf_after [] calls = first_table calls).
Proof.
  split; [reflexivity|]. split; [apply idf_after_nonempty|].
  split; [reflexivity|].
  intros calls. induction calls as [|[[g query] limit] calls IH]; [reflexivity|].
  change (idf_after [] ((g, query, limit) :: calls))
    with (idf_after (Vector._build_index (all_nodes g)) calls).
  simpl. destruct (Vector._build_index (all_nodes g)) as [|entry table].
  - exact IH.
  - apply idf_after_nonempty.
Qed.

End StrategyFacts.

(* ================================================================== *)
(** * The knowledge graph *)
(* ================================================================== *)

Module DataFacts.

Import Py PyFacts Data.

Lemma has_set (V : Type) k k' (v : V) d :
  has k' d = true -> has k' (set k v d) = true.
Proof. rewrite !has_iff, in_keys_set. auto. Qed.

Lemma link_all_inv eid nids : forall index nid edges e,
  In (nid, edges) (fold_left (link eid) nids index) -> In e edges ->
  e = eid \/ exists edges0, In (nid, edges0) index /\ In e edges0.
Proof.
  induction nids as [|n nids IH]; intros index nid edges e; simpl.
  - intros H He. right. now exists edges.
  - intros H He. destruct (IH _ _ _ _ H He) as [->|[edges0 [Hin He0]]]; [now left|].
    unfold link in Hin. apply in_set_inv in Hin.
    destruct Hin as [[-> ->]|Hin].
    + apply in_set_add in He0. destruct He0 as [->|He0]; [now left|].
      right. unfold get_or in He0.
      destruct (get n index) as [es|] eqn:E; [|destruct He0].
      exists es. split; [apply get_in, E | exact He0].
    + right. now exists edges0.
Qed.

Lemma consistent_empty : consistent empty.
Proof. split; simpl; intros; contradiction. Qed.

Lemma consistent_add_node g n : consistent g -> consistent (add_node g n).
Proof.
  intros [Hn He]. split; simpl.
  - intros k n' Hin. apply in_set_inv in Hin.
    destruct Hin as [[-> ->]|Hin]; [reflexivity | apply Hn, Hin].
  - intros nid edges eid Hin Hid. unfold setdefault in Hin.
    destruct (has (node_id n) (_node_to_edges g)); [now apply (He nid edges)|].
    apply in_app_iff in Hin. destruct Hin as [Hin|[[= <- <-]|[]]].
    + now apply (He nid edges).
    + destruct Hid.
Qed.

Lemma consistent_add_hyperedge g e : consistent g -> consistent (add_hyperedge g e).
Proof.
  intros [Hn He]. split; simpl; [exact Hn|].
  intros nid edges eid Hin Hid.
  destruct (link_all_inv _ _ _ _ _ _ Hin Hid) as [->|[edges0 [Hin0 Hid0]]].
  - unfold has. now rewrite get_set_eq.
  - apply has_set. now apply (He nid edges0).
Qed.

(** Every graph built by [add_node] and [add_hyperedge] is consistent. *)
Lemma built_consistent g : built g -> consistent g.
Proof.
  induction 1.
  - apply consistent_empty.
  - now apply consistent_add_node.
  - now apply consistent_add_hyperedge.
Qed.

Lemma all_nodes_registered g n :
  consistent g -> In n (all_nodes g) -> registered g (node_id n).
Proof.
  intros [Hn _] Hin. unfold all_nodes, values in Hin.
  apply in_map_iff in Hin. destruct Hin as [[k n'] [E Hin]]. simpl in E. subst n'.
  unfold registered. apply has_iff. rewrite (Hn _ _ Hin).
  unfold keys. apply (in_map fst) in Hin. exact Hin.
Qed.

Lemma get_all_nodes g k n : get k (nodes g) = Some n -> In n (all_nodes g).
Proof.
  intros H. apply get_in in H. unfold all_nodes, values.
  apply (in_map snd) in H. exact H.
Qed.

(** What one edge yields: registered nodes other than the one asked for. *)
Lemma related_total g nid edge :
  exists ns, related g nid edge = Some ns /\
             forall n, In n ns -> In n (all_nodes g).
Proof.
  unfold related. induction (node_ids edge) as [|r l IH]; simpl.
  - exists []. split; [reflexivity | intros n []].
  - destruct IH as [ns [-> Hns]].
    destruct (negb (String.eqb r nid) && has r (nodes g)) eqn:E.
    + apply andb_true_iff in E. destruct E as [_ E]. unfold has in E.
      destruct (get r (nodes g)) as [n|] eqn:En; [|discriminate].
      exists (n :: ns). split; [reflexivity|].
      intros n' [<-|Hin]; [|apply Hns, Hin].
      apply (get_all_nodes _ _ En).
    + exists ns. split; [reflexivity | exact Hns].
Qed.

(** On a consistent graph [neighbors] never fails, and yields nodes of the
    graph only. *)
Lemma neighbors_total g nid :
  consistent g ->
  exists ns, neighbors g nid = Some ns /\ forall n, In n ns -> In n (all_nodes g).
Proof.
  intros [_ He]. unfold neighbors, get_or.
  destruct (get nid (_node_to_edges g)) as [edges|] eqn:E.
  - apply get_in in E.
    assert (Hall : forall eid, In eid edges -> has eid (hyperedges g) = true)
      by (intros eid; apply (He nid edges eid E)).
    clear E. induction edges as [|eid edges IH]; simpl.
    + exists []. split; [reflexivity | intros n []].
    + destruct IH as [ns [-> Hns]]; [intros; apply Hall; now right|].
      specialize (Hall eid (or_introl eq_refl)). unfold has in Hall.
      destruct (get eid (hyperedges g)) as [edge|]; [|discriminate].
      destruct (related_total g nid edge) as [here [-> Hhere]].
      exists (here ++ ns)%list. split; [reflexivity|].
      intros n Hin. apply in_app_iff in Hin.
      destruct Hin as [Hin|Hin]; [apply Hhere, Hin | apply Hns, Hin].
  - exists []. split; [reflexivity | intros n []].
Qed.

End DataFacts.

(* ================================================================== *)
(** * GraphTraversalSearch *)
(* ================================================================== *)

Module GraphFacts.

Import Py PyFacts Data DataFacts.
Local Open Scope R_scope.

(** ** Seeds *)

Lemma existsb_set_of (p : string -> bool) l : existsb p (set_of l) = existsb p l.
Proof.
  apply eq_true_iff_eq. rewrite !existsb_exists.
  split; intros [x [Hx Hp]]; exists x; split; auto; now apply in_set_of.
Qed.

Lemma seeded_is_seed query node :
  GraphTraversal.seeded (GraphTraversal.keywords query) node = is_seed query node.
Proof.
  unfold GraphTraversal.seeded, GraphTraversal.keywords, any, is_seed.
  apply existsb_set_of.
Qed.

Lemma base_scores_from kw (l : list Node) : forall base,
  (forall k v, get k base = Some v -> v = 1) ->
  forall k,
    get k (fold_left
             (fun base node =>
                if GraphTraversal.seeded kw node then set (node_id node) 1 base
                else base) l base)
    = if existsb (fun n => String.eqb (node_id n) k && GraphTraversal.seeded kw n) l
      then Some 1 else get k base.
Proof.
  induction l as [|n l IH]; intros base Hb k; simpl; [reflexivity|].
  rewrite IH.
  - destruct (existsb _ l); [now rewrite orb_true_r|]. rewrite orb_false_r.
    destruct (GraphTraversal.seeded kw n); [|now rewrite andb_false_r].
    rewrite andb_true_r, get_set, String.eqb_sym.
    now destruct (String.eqb (node_id n) k).
  - intros k' v. destruct (GraphTraversal.seeded kw n); [|apply Hb].
    rewrite get_set. destruct (String.eqb k' (node_id n)); [congruence | apply Hb].
Qed.

(** The seeds are the nodes of the graph whose signature contains a token of
    the query, each under its id with score 1. *)
Lemma base_scores_get g query k :
  get k (GraphTraversal.base_scores g (GraphTraversal.keywords query)) =
  if existsb (fun n => String.eqb (node_id n) k && is_seed query n) (all_nodes g)
  then Some 1 else None.
Proof.
  unfold GraphTraversal.base_scores. rewrite base_scores_from.
  - assert (E : forall l,
               existsb (fun n => String.eqb (node_id n) k
                                 && GraphTraversal.seeded
                                      (GraphTraversal.keywords query) n) l
               = existsb (fun n => String.eqb (node_id n) k && is_seed query n) l).
    { intros l. induction l as [|n l IH]; simpl; [reflexivity|].
      now rewrite IH, seeded_is_seed. }
    now rewrite E.
  - intros ? ?; discriminate.
Qed.

Lemma base_scores_keys_from kw (l : list Node) : forall base,
  NoDup (keys base) ->
  NoDup (keys (fold_left
                 (fun base node =>
                    if GraphTraversal.seeded kw node then set (node_id node) 1 base
                    else base) l base)).
Proof.
  induction l as [|n l IH]; intros base H; simpl; [exact H|].
  apply IH. destruct (GraphTraversal.seeded kw n); [now apply NoDup_keys_set | exact H].
Qed.

Lemma base_scores_keys g kw : NoDup (keys (GraphTraversal.base_scores g kw)).
Proof. apply base_scores_keys_from. constructor. Qed.

Lemma base_scores_one g query k v :
  In (k, v) (GraphTraversal.base_scores g (GraphTraversal.keywords query)) -> v = 1.
Proof.
  intros H. apply in_get in H; [|apply base_scores_keys].
  rewrite base_scores_get in H. destruct (existsb _ _); congruence.
Qed.

Lemma base_scores_registered g query k :
  consistent g ->
  In k (keys (GraphTraversal.base_scores g (GraphTraversal.keywords query))) ->
  registered g k.
Proof.
  intros Hg Hk. apply in_keys_get in Hk. destruct Hk as [v Hv].
  rewrite base_scores_get in Hv.
  destruct (existsb _ _) eqn:E; [|discriminate].
  apply existsb_exists in E. destruct E as [n [Hn E]].
  apply andb_true_iff in E. destruct E as [E _]. apply String.eqb_eq in E. subst k.
  now apply all_nodes_registered.
Qed.

(** ** Propagation *)

Lemma push_eq score propagation next_frontier m :
  GraphTraversal.push score (propagation, next_frontier) m =
  if Rlt_dec 0.01 (score * 0.6)
  then (absorb1 propagation (node_id m, score * 0.6),
        (next_frontier ++ [(node_id m, score * 0.6)])%list)
  else (propagation, next_frontier).
Proof. reflexivity. Qed.

Lemma push_all score ns : forall propagation next_frontier,
  fold_left (GraphTraversal.push score) ns (propagation, next_frontier) =
  (absorb propagation (spread1 score ns),
   (next_frontier ++ spread1 score ns)%list).
Proof.
  unfold spread1, absorb.
  destruct (Rlt_dec 0.01 (score * 0.6)) as [Hlt|Hge].
  - induction ns as [|m ns IH]; intros prop nf.
    + simpl. now rewrite app_nil_r.
    + cbn [fold_left map]. rewrite push_eq.
      destruct (Rlt_dec 0.01 (score * 0.6)); [|contradiction].
      rewrite IH. now rewrite <- app_assoc.
  - induction ns as [|m ns IH]; intros prop nf.
    + simpl. now rewrite app_nil_r.
    + cbn [fold_left]. rewrite push_eq.
      destruct (Rlt_dec 0.01 (score * 0.6)); [contradiction|].
      apply IH.
Qed.

(** One hop of the code pushes what [spread] says and absorbs it. *)
Lemma hop_eq g frontier : forall propagation next_frontier,
  GraphTraversal.hop g frontier (propagation, next_frontier) =
  do received <- spread g frontier;
  Some (absorb propagation received, (next_frontier ++ received)%list).
Proof.
  induction frontier as [|[nid score] frontier IH]; intros prop nf; simpl.
  - now rewrite app_nil_r.
  - destruct (neighbors g nid) as [ns|]; [|reflexivity].
    rewrite push_all, IH. destruct (spread g frontier) as [rest|]; [|reflexivity].
    unfold absorb. now rewrite fold_left_app, <- app_assoc.
Qed.

(** The walk of the code absorbs what the hops push. *)
Lemma walk_eq g depth : forall propagation frontier,
  GraphTraversal.walk g depth propagation frontier =
  do hs <- hops g depth frontier;
  Some (absorb propagation (List.concat hs)).
Proof.
  induction depth as [|depth IH]; intros prop frontier; simpl; [reflexivity|].
  rewrite hop_eq. destruct (spread g frontier) as [next|]; [|reflexivity].
  simpl. rewrite IH. destruct (hops g depth next) as [rest|]; [|reflexivity].
  unfold absorb. cbn [List.concat]. now rewrite fold_left_app.
Qed.

Lemma get_or_setdefault_same (V : Type) k k' (dflt : V) d :
  get_or k' dflt (setdefault k dflt d) = get_or k' dflt d.
Proof.
  unfold get_or. rewrite get_setdefault.
  destruct (get k' d); [reflexivity|]. now destruct (String.eqb k' k).
Qed.

Lemma absorb1_get propagation kv k :
  get_or k 0 (absorb1 propagation kv) =
  if String.eqb (fst kv) k then Rmax (get_or k 0 propagation) (snd kv)
  else get_or k 0 propagation.
Proof.
  unfold absorb1. destruct kv as [k0 v]. simpl.
  rewrite get_or_setdefault_same.
  destruct (Rlt_dec (get_or k0 0 propagation) v) as [Hlt|Hge].
  - rewrite get_or_set, get_or_setdefault_same, max_Rmax, String.eqb_sym.
    destruct (String.eqb_spec k0 k) as [->|]; reflexivity.
  - rewrite get_or_setdefault_same.
    destruct (String.eqb_spec k0 k) as [->|]; [|reflexivity].
    rewrite Rmax_left; lra.
Qed.

(** After absorbing, the map holds for each node the greatest value it was
    pushed. *)
Lemma absorb_get received : forall propagation k,
  get_or k 0 (absorb propagation received) =
  best_from (get_or k 0 propagation) received k.
Proof.
  unfold absorb, best_from.
  induction received as [|kv l IH]; intros prop k; simpl; [reflexivity|].
  now rewrite IH, absorb1_get.
Qed.

Lemma absorb1_keys propagation kv k :
  In k (keys (absorb1 propagation kv)) <-> k = fst kv \/ In k (keys propagation).
Proof.
  unfold absorb1.
  assert (Hsd : In k (keys (setdefault (fst kv) 0 propagation)) <->
                k = fst kv \/ In k (keys propagation)).
  { rewrite keys_setdefault. destruct (has (fst kv) propagation) eqn:E.
    - apply has_iff in E. split; [auto | intros [->|H]; assumption].
    - rewrite in_app_iff. simpl. intuition congruence. }
  destruct (Rlt_dec _ _); [|exact Hsd].
  rewrite in_keys_set, Hsd. tauto.
Qed.

Lemma absorb1_NoDup propagation kv :
  NoDup (keys propagation) -> NoDup (keys (absorb1 propagation kv)).
Proof.
  intros H. unfold absorb1. apply (NoDup_keys_setdefault (fst kv) 0) in H.
  destruct (Rlt_dec _ _); [now apply NoDup_keys_set | exact H].
Qed.

Lemma absorb_keys received : forall propagation k,
  In k (keys (absorb propagation received)) <->
  In k (keys propagation) \/ In k (map fst received).
Proof.
  unfold absorb.
  induction received as [|kv l IH]; intros prop k; simpl; [tauto|].
  rewrite IH, absorb1_keys. intuition congruence.
Qed.

Lemma absorb_NoDup received : forall propagation,
  NoDup (keys propagation) -> NoDup (keys (absorb propagation received)).
Proof.
  unfold absorb.
  induction received as [|kv l IH]; intros prop H; simpl; [exact H|].
  apply IH, absorb1_NoDup, H.
Qed.

(** ** The values pushed *)

Lemma best_from_le bound received k : forall init,
  init <= bound ->
  (forall k' v, In (k', v) received -> v <= bound) ->
  best_from init received k <= bound.
Proof.
  unfold best_from.
  induction received as [|[k0 v0] l IH]; intros init Hi Hall; simpl; [exact Hi|].
  apply IH; [|intros k' v H; apply (Hall k' v); now right].
  destruct (String.eqb k0 k); [|exact Hi].
  apply Rmax_lub; [exact Hi | apply (Hall k0 v0); now left].
Qed.

Lemma best_from_ge received k : forall init, init <= best_from init received k.
Proof.
  unfold best_from.
  induction received as [|[k0 v0] l IH]; intros init; simpl; [lra|].
  eapply Rle_trans; [|apply IH].
  destruct (String.eqb k0 k); [apply Rmax_l | lra].
Qed.

Lemma best_from_absent received k : forall init,
  ~ In k (map fst received) -> best_from init received k = init.
Proof.
  unfold best_from.
  induction received as [|[k0 v0] l IH]; intros init Hout; simpl; [reflexivity|].
  simpl in Hout. destruct (String.eqb_spec k0 k) as [->|Hne]; [tauto|].
  apply IH. tauto.
Qed.

Lemma in_spread1 score ns k v :
  In (k, v) (spread1 score ns) ->
  v = score * 0.6 /\ 0.01 < v /\ exists m, In m ns /\ node_id m = k.
Proof.
  unfold spread1. destruct (Rlt_dec 0.01 (score * 0.6)) as [Hlt|]; [|intros []].
  rewrite in_map_iff. intros [m [[= <- <-] Hm]].
  repeat split; try assumption. now exists m.
Qed.

(** On a consistent graph a hop never fails and reaches registered nodes
    only. *)
Lemma spread_total g frontier :
  consistent g ->
  exists received,
    spread g frontier = Some received /\
    forall k, In k (map fst received) -> registered g k.
Proof.
  intros Hg. induction frontier as [|[nid score] frontier IH]; simpl.
  - exists []. split; [reflexivity | intros k []].
  - destruct (neighbors_total nid Hg) as [ns [-> Hns]].
    destruct IH as [rest [-> Hrest]].
    exists (spread1 score ns ++ rest)%list. split; [reflexivity|].
    intros k Hk. rewrite map_app, in_app_iff in Hk.
    destruct Hk as [Hk|Hk]; [|apply Hrest, Hk].
    apply in_map_iff in Hk. destruct Hk as [[k' v] [E Hin]]. simpl in E. subst k'.
    apply in_spread1 in Hin. destruct Hin as [_ [_ [m [Hm <-]]]].
    apply all_nodes_registered; [exact Hg | apply Hns, Hm].
Qed.

Lemma hops_total g depth :
  consistent g ->
  forall frontier,
  exists hs,
    hops g depth frontier = Some hs /\
    List.length hs = depth /\
    forall k, In k (map fst (List.concat hs)) -> registered g k.
Proof.
  intros Hg. induction depth as [|depth IH]; intros frontier; simpl.
  - exists []. repeat split. intros k [].
  - destruct (spread_total frontier Hg) as [next [-> Hnext]].
    destruct (IH next) as [rest [-> [Hlen Hrest]]].
    exists (next :: rest). split; [reflexivity|]. split; [simpl; congruence|].
    intros k Hk. simpl in Hk. rewrite map_app, in_app_iff in Hk.
    destruct Hk as [Hk|Hk]; [apply Hnext, Hk | apply Hrest, Hk].
Qed.

Lemma spread_values g x frontier : forall received,
  (forall k v, In (k, v) frontier -> v = x) ->
  spread g frontier = Some received ->
  forall k v, In (k, v) received -> v = x * 0.6 /\ 0.01 < v.
Proof.
  induction frontier as [|[nid score] frontier IH]; intros received Hx; simpl.
  - intros [= <-] k v [].
  - destruct (neighbors g nid) as [ns|]; [|discriminate].
    destruct (spread g frontier) as [rest|]; [|discriminate].
    intros [= <-] k v Hin. apply in_app_iff in Hin. destruct Hin as [Hin|Hin].
    + apply in_spread1 in Hin. destruct Hin as [-> [Hlt _]].
      rewrite (Hx nid score) in * by now left. split; [reflexivity | exact Hlt].
    + refine (IH rest _ eq_refl k v Hin).
      intros k' v' H. apply (Hx k' v'). now right.
Qed.

(** Each hop multiplies by 0.6: what the hop of index [i] pushes is
    [0.6 ^ (i + 1)] times the score of the first frontier, and is above
    0.01. *)
Lemma hops_values g depth : forall frontier x hs,
  (forall k v, In (k, v) frontier -> v = x) ->
  hops g depth frontier = Some hs ->
  forall i received k v,
    nth_error hs i = Some received -> In (k, v) received ->
    v = x * 0.6 ^ S i /\ 0.01 < v.
Proof.
  induction depth as [|depth IH]; intros frontier x hs Hx; simpl.
  - intros [= <-] [|i] received k v; discriminate.
  - destruct (spread g frontier) as [next|] eqn:En; [|discriminate].
    destruct (hops g depth next) as [rest|] eqn:Er; [|discriminate].
    intros [= <-] [|i] received k v; simpl.
    + intros [= <-] Hin.
      destruct (spread_values _ _ Hx En _ _ Hin) as [-> Hlt]. split; [lra | exact Hlt].
    + intros Hnth Hin.
      assert (Hnext : forall k v, In (k, v) next -> v = x * 0.6).
      { intros k' v' H. now destruct (spread_values _ _ Hx En _ _ H). }
      destruct (IH next (x * 0.6) rest Hnext Er i received k v Hnth Hin)
        as [-> Hlt].
      split; [simpl; lra | exact Hlt].
Qed.

(** ** The combined scores *)

Lemma get_or_absent (V : Type) k (dflt : V) d :
  ~ In k (keys d) -> get_or k dflt d = dflt.
Proof. intros H. apply get_none_iff in H. unfold get_or. now rewrite H. Qed.

Lemma get_or_cons (V : Type) k k0 (v0 dflt : V) d :
  get_or k dflt ((k0, v0) :: d) = if String.eqb k k0 then v0 else get_or k dflt d.
Proof. unfold get_or. simpl. now destruct (String.eqb k k0). Qed.

Lemma add_base_get k base : forall acc,
  NoDup (keys base) ->
  get_or k 0
    (fold_left (fun c kv => set (fst kv) (get_or (fst kv) 0 c + snd kv) c) base acc)
  = get_or k 0 acc + get_or k 0 base.
Proof.
  induction base as [|[k0 v0] base IH]; intros acc Hnd; simpl.
  - unfold get_or at 3. simpl. lra.
  - inversion Hnd as [|? ? Hout Hnd']; subst.
    rewrite (IH _ Hnd'), get_or_set, get_or_cons.
    destruct (String.eqb_spec k k0) as [->|Hne].
    + rewrite (@get_or_absent _ k0 0 base Hout). lra.
    + reflexivity.
Qed.

Lemma add_base_keys k base : forall acc,
  In k (keys (fold_left
                (fun c kv => set (fst kv) (get_or (fst kv) 0 c + snd kv) c)
                base acc))
  <-> In k (keys acc) \/ In k (keys base).
Proof.
  induction base as [|[k0 v0] base IH]; intros acc; simpl; [tauto|].
  rewrite IH, in_keys_set. simpl. intuition congruence.
Qed.

Lemma add_base_NoDup base : forall acc,
  NoDup (keys acc) ->
  NoDup (keys (fold_left
                 (fun c kv => set (fst kv) (get_or (fst kv) 0 c + snd kv) c)
                 base acc)).
Proof.
  induction base as [|kv base IH]; intros acc H; simpl; [exact H|].
  apply IH, NoDup_keys_set, H.
Qed.

Lemma max_in_get k propagation : forall acc,
  get_or k 0
    (fold_left (fun c kv => set (fst kv) (max (get_or (fst kv) 0 c) (snd kv)) c)
               propagation acc)
  = best_from (get_or k 0 acc) propagation k.
Proof.
  unfold best_from.
  induction propagation as [|[k0 v0] l IH]; intros acc; simpl; [reflexivity|].
  rewrite IH, get_or_set, max_Rmax, String.eqb_sym.
  destruct (String.eqb_spec k0 k) as [->|]; reflexivity.
Qed.

Lemma max_in_keys k propagation : forall acc,
  In k (keys (fold_left
                (fun c kv => set (fst kv) (max (get_or (fst kv) 0 c) (snd kv)) c)
                propagation acc))
  <-> In k (keys acc) \/ In k (keys propagation).
Proof.
  induction propagation as [|[k0 v0] l IH]; intros acc; simpl; [tauto|].
  rewrite IH, in_keys_set. simpl. intuition congruence.
Qed.

Lemma max_in_NoDup propagation : forall acc,
  NoDup (keys acc) ->
  NoDup (keys (fold_left
                 (fun c kv => set (fst kv) (max (get_or (fst kv) 0 c) (snd kv)) c)
                 propagation acc)).
Proof.
  induction propagation as [|kv l IH]; intros acc H; simpl; [exact H|].
  apply IH, NoDup_keys_set, H.
Qed.

Lemma best_from_dict k d : forall init,
  NoDup (keys d) ->
  best_from init d k =
  match get k d with Some v => Rmax init v | None => init end.
Proof.
  unfold best_from.
  induction d as [|[k0 v0] d IH]; intros init Hnd; simpl; [reflexivity|].
  inversion Hnd as [|? ? Hout Hnd']; subst. rewrite String.eqb_sym.
  destruct (String.eqb_spec k k0) as [->|Hne].
  - fold (best_from (Rmax init v0) d k0). now apply best_from_absent.
  - now apply IH.
Qed.

(** The combined score of a node is the greater of its seed score and of
    its propagated score, each 0 when the node has none. *)
Lemma combine_get base propagation k :
  NoDup (keys base) -> NoDup (keys propagation) ->
  0 <= get_or k 0 base -> 0 <= get_or k 0 propagation ->
  get_or k 0 (GraphTraversal.combine base propagation)
  = Rmax (get_or k 0 base) (get_or k 0 propagation).
Proof.
  intros Hb Hp Hb0 Hp0. unfold GraphTraversal.combine.
  rewrite max_in_get, add_base_get by assumption.
  rewrite best_from_dict by assumption.
  replace (get_or k 0 [] + get_or k 0 base) with (get_or k 0 base)
    by (unfold get_or at 2; simpl; lra).
  assert (E : get_or k 0 propagation =
              match get k propagation with Some v => v | None => 0 end)
    by reflexivity.
  rewrite E in *. destruct (get k propagation); [reflexivity|].
  rewrite Rmax_left; lra.
Qed.

Lemma combine_keys base propagation k :
  In k (keys (GraphTraversal.combine base propagation)) <->
  In k (keys base) \/ In k (keys propagation).
Proof.
  unfold GraphTraversal.combine. rewrite max_in_keys, add_base_keys. simpl. tauto.
Qed.

Lemma combine_NoDup base propagation :
  NoDup (keys (GraphTraversal.combine base propagation)).
Proof. apply max_in_NoDup, add_base_NoDup. constructor. Qed.

(** ** The result list *)

Lemma collect_total g combined :
  (forall k, In k (keys combined) -> registered g k) ->
  exists results,
    GraphTraversal.collect g combined = Some results /\
    forall r, In r results ->
      exists k, In (k, score r) combined /\ get k (nodes g) = Some (node r).
Proof.
  induction combined as [|[k sc] combined IH]; intros Hreg; simpl.
  - exists []. split; [reflexivity | intros r []].
  - pose proof (Hreg k (or_introl eq_refl)) as Hk. unfold registered, has in Hk.
    destruct (get k (nodes g)) as [n|] eqn:En; [|discriminate].
    destruct IH as [rs [-> Hrs]]; [intros k' H; apply Hreg; now right|].
    eexists. split; [reflexivity|].
    intros r [<-|Hin]; simpl.
    + exists k. split; [now left | exact En].
    + destruct (Hrs r Hin) as [k' [Hin' Hget]]. exists k'. split; [now right | exact Hget].
Qed.

(** ** The search *)

(** On a consistent graph the search runs to its end: the hops, the
    combined map, whose keys are all registered, and the result list. *)
Lemma search_run g walk_depth query limit :
  consistent g ->
  exists hs results,
    let base := GraphTraversal.base_scores g (GraphTraversal.keywords query) in
    let combined := GraphTraversal.combine base (absorb [] (List.concat hs)) in
    hops g (Z.to_nat walk_depth) base = Some hs /\
    List.length hs = Z.to_nat walk_depth /\
    GraphTraversal.walk g (Z.to_nat walk_depth) [] base
    = Some (absorb [] (List.concat hs)) /\
    (forall k, In k (keys combined) -> registered g k) /\
    GraphTraversal.collect g combined = Some results /\
    GraphTraversal.search walk_depth g query limit
    = Some (slice_to (sort_desc score results) limit) /\
    (forall r, In r results ->
       exists k, In (k, score r) combined /\ get k (nodes g) = Some (node r)).
Proof.
  intros Hg.
  set (base := GraphTraversal.base_scores g (GraphTraversal.keywords query)).
  destruct (hops_total (Z.to_nat walk_depth) Hg base) as [hs [Hhs [Hlen Hreg]]].
  assert (Hwalk : GraphTraversal.walk g (Z.to_nat walk_depth) [] base
                  = Some (absorb [] (List.concat hs))).
  { rewrite walk_eq, Hhs. reflexivity. }
  assert (Hkeys : forall k,
             In k (keys (GraphTraversal.combine base (absorb [] (List.concat hs)))) ->
             registered g k).
  { intros k Hk. apply combine_keys in Hk. destruct Hk as [Hk|Hk].
    - now apply (base_scores_registered query).
    - apply absorb_keys in Hk. destruct Hk as [[]|Hk]. now apply Hreg. }
  destruct (collect_total _ Hkeys) as [results [Hcollect Hres]].
  exists hs, results. simpl. fold base.
  repeat split; try assumption.
  unfold GraphTraversal.search. fold base. rewrite Hwalk, Hcollect. reflexivity.
Qed.

(** C10: on a graph built by [add_node] and [add_hyperedge] the lookup
    [graph.nodes[node_id]] of the Graph-Traversal search never fails: the
    seed ids are ids of nodes of [all_nodes()], [neighbors()] yields
    registered nodes only, so every key of the combined score map is
    registered, the result list is built and the search returns. *)
Theorem graph_lookup_safe g walk_depth query limit :
  built g ->
  let base := GraphTraversal.base_scores g (GraphTraversal.keywords query) in
  (forall k, In k (keys base) ->
     exists n, In n (all_nodes g) /\ node_id n = k) /\
  (forall nid,
     exists ns, neighbors g nid = Some ns /\
                forall n, In n ns -> registered g (node_id n)) /\
  exists propagation results,
    GraphTraversal.walk g (Z.to_nat walk_depth) [] base = Some propagation /\
    (forall k, In k (keys (GraphTraversal.combine base propagation)) ->
       registered g k) /\
    GraphTraversal.collect g (GraphTraversal.combine base propagation)
    = Some results /\
    GraphTraversal.search walk_depth g query limit
    = Some (slice_to (sort_desc score results) limit).
Proof.
  intros Hb base. apply built_consistent in Hb.
  split; [|split].
  - intros k Hk. apply in_keys_get in Hk. destruct Hk as [v Hv].
    unfold base in Hv. rewrite base_scores_get in Hv.
    destruct (existsb _ _) eqn:E; [|discriminate].
    apply existsb_exists in E. destruct E as [n [Hn E]].
    apply andb_true_iff in E. destruct E as [E _]. apply String.eqb_eq in E.
    now exists n.
  - intros nid. destruct (neighbors_total nid Hb) as [ns [Hns Hin]].
    exists ns. split; [exact Hns|].
    intros n Hn. apply all_nodes_registered; [exact Hb | apply Hin, Hn].
  - destruct (search_run walk_depth query limit Hb)
      as [hs [results [_ [_ [Hwalk [Hkeys [Hcollect [Hsearch _]]]]]]]].
    exists (absorb [] (List.concat hs)), results. repeat split; assumption.
Qed.

Lemma pow_decay_le i : 0 <= 0.6 ^ i <= 1.
Proof. induction i as [|i IH]; simpl; lra. Qed.

End GraphFacts.

(* ================================================================== *)
(** * HybridSelfImprovingSearch *)
(* ================================================================== *)

Module HybridFacts.

Import Py PyFacts Data DataFacts.
Local Open Scope R_scope.

(** ** The fusion loop *)

Lemma has_same_keys (V W : Type) k (d : Dict V) (e : Dict W) :
  keys d = keys e -> has k d = has k e.
Proof.
  intros H. apply eq_true_iff_eq. rewrite !has_iff. now rewrite H.
Qed.

Lemma set_same_keys (V W : Type) k (v : V) (w : W) d e :
  keys d = keys e -> keys (set k v d) = keys (set k w e).
Proof.
  intros H. rewrite !keys_set, (has_same_keys k d e H), H. reflexivity.
Qed.

Lemma fuse_one_paired weight st ranked :
  paired st -> paired (Hybrid.fuse_one weight st ranked).
Proof.
  destruct st as [sbn no], ranked as [rank result].
  intros [Hk [Hnd Hid]]. simpl in *. repeat split; simpl.
  - now apply set_same_keys.
  - now apply NoDup_keys_set.
  - intros k n. rewrite get_set.
    destruct (String.eqb_spec k (node_id (node result))) as [->|];
      [intros [= <-]; reflexivity | apply Hid].
Qed.

Lemma fuse_list_paired weight ranked : forall st,
  paired st -> paired (fold_left (Hybrid.fuse_one weight) ranked st).
Proof.
  induction ranked as [|r l IH]; intros st H; simpl; [exact H|].
  apply IH, fuse_one_paired, H.
Qed.

Lemma fuse_from_paired weights lists : forall st,
  paired st ->
  paired (fold_left
            (fun st entry =>
               fold_left (Hybrid.fuse_one (get_or (fst entry) 1 weights))
                         (enumerate 1 (snd entry)) st)
            lists st).
Proof.
  induction lists as [|[n results] lists IH]; intros st H; simpl; [exact H|].
  apply IH, fuse_list_paired, H.
Qed.

Lemma fuse_paired weights lists : paired (Hybrid.fuse weights lists).
Proof.
  apply fuse_from_paired.
  repeat split; simpl; [constructor | intros ? ?; discriminate].
Qed.

Lemma fuse_one_score weight st ranked k :
  get_or k 0 (fst (Hybrid.fuse_one weight st ranked)) =
  get_or k 0 (fst st) + contributions weight k [ranked].
Proof.
  destruct st as [sbn no], ranked as [rank result].
  unfold contributions, Rsum. simpl. rewrite get_or_set, String.eqb_sym.
  destruct (String.eqb_spec (node_id (node result)) k) as [->|]; lra.
Qed.

Lemma contributions_cons weight k r l :
  contributions weight k (r :: l) =
  contributions weight k [r] + contributions weight k l.
Proof. unfold contributions, Rsum. simpl. lra. Qed.

Lemma fuse_list_score weight k ranked : forall st,
  get_or k 0 (fst (fold_left (Hybrid.fuse_one weight) ranked st)) =
  get_or k 0 (fst st) + contributions weight k ranked.
Proof.
  induction ranked as [|r l IH]; intros st; simpl.
  - unfold contributions, Rsum. simpl. lra.
  - rewrite IH, fuse_one_score, (contributions_cons weight k r l). lra.
Qed.

Lemma fuse_score_from weights k lists : forall st,
  get_or k 0
    (fst (fold_left
            (fun st entry =>
               fold_left (Hybrid.fuse_one (get_or (fst entry) 1 weights))
                         (enumerate 1 (snd entry)) st)
            lists st))
  = get_or k 0 (fst st) + rrf weights lists k.
Proof.
  unfold rrf, Rsum.
  induction lists as [|[n results] lists IH]; intros st; simpl; [lra|].
  rewrite IH, fuse_list_score. simpl. lra.
Qed.

(** The score the fusion loop leaves for a node is the sum of the
    contributions [weight / rank] of the lists. *)
Lemma fuse_score weights lists k :
  get_or k 0 (fst (Hybrid.fuse weights lists)) = rrf weights lists k.
Proof.
  unfold Hybrid.fuse. rewrite fuse_score_from. unfold get_or. simpl. lra.
Qed.

Lemma in_enumerate (A : Type) (l : list A) : forall n i x,
  In (i, x) (enumerate n l) -> In x l.
Proof.
  induction l as [|a l IH]; intros n i x; simpl; [tauto|].
  intros [[= <- <-]|H]; [now left | right; eapply IH, H].
Qed.

Lemma enumerate_snd (A : Type) (l : list A) : forall n,
  map snd (enumerate n l) = l.
Proof. induction l as [|a l IH]; intros n; simpl; [|rewrite IH]; reflexivity. Qed.

Lemma fuse_list_keys weight k ranked : forall st,
  In k (keys (fst (fold_left (Hybrid.fuse_one weight) ranked st))) <->
  In k (keys (fst st)) \/
  exists r, In r (map snd ranked) /\ node_id (node r) = k.
Proof.
  induction ranked as [|[rank result] l IH]; intros [sbn no]; simpl.
  - split; [auto | intros [H|[r [[] _]]]; exact H].
  - rewrite IH. simpl. rewrite in_keys_set. split.
    + intros [[->|H]|[r [Hr E]]].
      * right. exists result. auto.
      * now left.
      * right. exists r. auto.
    + intros [H|[r [[<-|Hr] E]]].
      * left. now right.
      * left. left. now symmetry.
      * right. exists r. auto.
Qed.

(** The nodes the fusion loop scores are the nodes of the lists. *)
Lemma fuse_keys weights lists k :
  In k (keys (fst (Hybrid.fuse weights lists))) <->
  exists entry r, In entry lists /\ In r (snd entry) /\ node_id (node r) = k.
Proof.
  unfold Hybrid.fuse.
  assert (G : forall st,
    In k (keys (fst (fold_left
            (fun st entry =>
               fold_left (Hybrid.fuse_one (get_or (fst entry) 1 weights))
                         (enumerate 1 (snd entry)) st)
            lists st))) <->
    In k (keys (fst st)) \/
    exists entry r, In entry lists /\ In r (snd entry) /\ node_id (node r) = k).
  { induction lists as [|[n results] lists IH]; intros st; simpl.
    - split; [auto | intros [H|[e [r [[] _]]]]; exact H].
    - rewrite IH, fuse_list_keys, enumerate_snd. simpl. split.
      + intros [[H|[r [Hr E]]]|[e [r [He [Hr E]]]]].
        * now left.
        * right. exists (n, results), r. auto.
        * right. exists e, r. auto.
      + intros [H|[e [r [[<-|He] [Hr E]]]]].
        * left. now left.
        * left. right. exists r. auto.
        * right. exists e, r. auto. }
  rewrite G. simpl. split; [intros [[]|H]; exact H | auto].
Qed.

(** ** The merged list *)

Lemma merge_total node_obj score_by_node :
  (forall k, In k (keys score_by_node) -> has k node_obj = true) ->
  (forall k n, get k node_obj = Some n -> node_id n = k) ->
  exists merged,
    Hybrid.merge node_obj score_by_node = Some merged /\
    map (fun m => (node_id (node m), score m)) merged = score_by_node /\
    forall m, In m merged -> strategy m = Hybrid.name.
Proof.
  intros Hhas Hid.
  induction score_by_node as [|[k sc] d IH]; simpl.
  - exists []. repeat split. intros m [].
  - pose proof (Hhas k (or_introl eq_refl)) as Hk. unfold has in Hk.
    destruct (get k node_obj) as [n|] eqn:En; [|discriminate].
    destruct IH as [merged [-> [Hmap Hstr]]]; [intros k' H; apply Hhas; now right|].
    eexists. split; [reflexivity|]. split.
    + simpl. now rewrite (Hid _ _ En), Hmap.
    + intros m [<-|Hm]; [reflexivity | apply Hstr, Hm].
Qed.

(** The fusion never fails on a lookup, and returns, sorted and cut, one
    entry for each node of the lists with the sum of its contributions. *)
Lemma rank_fusion_total weights lists limit :
  exists merged,
    Hybrid.rank_fusion weights lists limit
    = Some (slice_to (sort_desc score merged) limit) /\
    NoDup (map (fun m => node_id (node m)) merged) /\
    (forall m, In m merged ->
       score m = rrf weights lists (node_id (node m)) /\
       strategy m = Hybrid.name) /\
    (forall nid,
       In nid (map (fun m => node_id (node m)) merged) <->
       exists entry r, In entry lists /\ In r (snd entry) /\ node_id (node r) = nid).
Proof.
  unfold Hybrid.rank_fusion.
  pose proof (fuse_paired weights lists) as [Hk [Hnd Hid]].
  pose proof (fuse_score weights lists) as Hscore.
  pose proof (fuse_keys weights lists) as Hkeys.
  destruct (Hybrid.fuse weights lists) as [sbn no]. simpl in *.
  destruct (@merge_total no sbn) as [merged [-> [Hmap Hstr]]].
  - intros k H. apply has_iff. now rewrite <- Hk.
  - exact Hid.
  - assert (Hids : map (fun m => node_id (node m)) merged = keys sbn).
    { rewrite <- Hmap. unfold keys. rewrite map_map. reflexivity. }
    exists merged. split; [reflexivity|]. split; [now rewrite Hids|]. split.
    + intros m Hm. split; [|apply Hstr, Hm].
      rewrite <- Hscore.
      assert (Hin : In (node_id (node m), score m) sbn).
      { rewrite <- Hmap. apply (in_map (fun m => (node_id (node m), score m))), Hm. }
      apply in_get in Hin; [|exact Hnd]. unfold get_or. now rewrite Hin.
    + intros nid. rewrite Hids. apply Hkeys.
Qed.

(** ** Running the constituents *)

Lemma run_all_stored (f : Strategy -> option (list SearchResult * Strategy)) subs :
  forall outs acc,
    Forall2 (fun s out => f s = Some out) subs outs ->
    run_all f subs acc =
    Some (fold_left (fun d (so : Strategy * (list SearchResult * Strategy)) =>
                       set (name (fst so)) (fst (snd so)) d)
                    (combine subs outs) acc,
          map snd outs).
Proof.
  induction subs as [|s subs IH]; intros outs acc H; inversion H; subst; simpl.
  - reflexivity.
  - match goal with E : f s = Some _ |- _ => rewrite E end. simpl.
    erewrite IH by eassumption. reflexivity.
Qed.

Lemma set_fresh (V : Type) k (v : V) d :
  ~ In k (keys d) -> set k v d = (d ++ [(k, v)])%list.
Proof.
  induction d as [|[k0 v0] d IH]; simpl; intros H; [reflexivity|].
  destruct (String.eqb_spec k k0) as [->|Hne]; [tauto|].
  rewrite IH; tauto.
Qed.


(** On a consistent graph every strategy returns. *)
Lemma search_total g :
  consistent g ->
  forall s query limit, exists out, search s g query limit = Some out.
Proof.
  intros Hg s. induction s as [idf|d| |subs w IH] using Strategy_ind;
    intros query limit.
  - rewrite StrategyFacts.search_vector. eexists. reflexivity.
  - destruct (GraphFacts.search_run d query limit Hg)
      as [hs [results [_ [_ [_ [_ [_ [Hs _]]]]]]]].
    simpl. rewrite Hs. eexists. reflexivity.
  - simpl. eexists. reflexivity.
  - assert (Houts : exists outs,
               Forall2 (fun s out => search s g query limit = Some out) subs outs).
    { induction IH as [|s subs Hs _ IHsubs].
      - exists []. constructor.
      - destruct (Hs query limit) as [out Hout]. destruct IHsubs as [outs Houts].
        exists (out :: outs). now constructor. }
    destruct Houts as [outs Houts].
    simpl. rewrite (run_all_stored _ [] Houts). simpl.
    destruct (rank_fusion_total w
                (fold_left (fun d (so : Strategy * (list SearchResult * Strategy)) =>
                              set (name (fst so)) (fst (snd so)) d)
                           (combine subs outs) []) limit) as [merged [-> _]].
    eexists. reflexivity.
Qed.

Lemma search_each g query limit subs :
  consistent g ->
  exists outs, Forall2 (fun s out => search s g query limit = Some out) subs outs.
Proof.
  intros Hg. induction subs as [|s subs [outs IH]].
  - exists []. constructor.
  - destruct (search_total Hg s query limit) as [out Hout].
    exists (out :: outs). now constructor.
Qed.


End HybridFacts.

(* ================================================================== *)
(** * Determinism *)
(* ================================================================== *)

Module DeterminismFacts.

Import Py Data.

(** C9: a second call of [search] on the object the first call left, with
    the same graph, query and limit, returns the same ordered results and
    leaves the object, with every idf table in it, unchanged; this holds for
    the four classes of strategy, the hybrid over any constituents; on a
    built graph the first call does return; and the table of a Vector
    instance after the second call is the table after the first. *)
Theorem search_deterministic s g query limit :
  (forall results s',
      search s g query limit = Some (results, s') ->
      search s' g query limit = Some (results, s')) /\
  (built g ->
   exists results s',
     search s g query limit = Some (results, s') /\
     search s' g query limit = Some (results, s')) /\
  (forall idf,
      s = VectorSemanticSearch idf ->
      snd (Vector.search (snd (Vector.search idf g query limit)) g query limit)
      = snd (Vector.search idf g query limit)).
Proof.
  pose proof (@StrategyFacts.search_settled g query limit s) as Hs.
  split; [exact Hs|]. split.
  - intros Hb. apply DataFacts.built_consistent in Hb.
    destruct (HybridFacts.search_total Hb s query limit) as [[results s'] H].
    exists results, s'. split; [exact H | exact (Hs _ _ H)].
  - intros idf _. now rewrite StrategyFacts.vector_search_again.
Qed.

End DeterminismFacts.

(* ================================================================== *)
(** * The league *)
(* ================================================================== *)

Module LeagueFacts.

Import Py PyFacts Data DataFacts League.
Local Open Scope R_scope.

(** ** Dictionaries, once more *)

Lemma keys_set_add (V : Type) k (v : V) d : keys (set k v d) = set_add k (keys d).
Proof.
  rewrite keys_set. unfold set_add.
  assert (E : has k d = mem k (keys d)).
  { apply eq_true_iff_eq. now rewrite has_iff, mem_iff. }
  now rewrite E.
Qed.

Lemma keys_set_present (V : Type) k (v : V) d :
  In k (keys d) -> keys (set k v d) = keys d.
Proof. intros H. rewrite keys_set. apply has_iff in H. now rewrite H. Qed.

(** Two maps with the same keys, each once, and the same values are the
    same. *)
Lemma dict_ext (V : Type) (d e : Dict V) :
  keys d = keys e -> NoDup (keys d) -> (forall k, get k d = get k e) -> d = e.
Proof.
  revert e. induction d as [|[k v] d IH]; intros [|[k' v'] e]; simpl;
    try discriminate; [reflexivity|].
  intros Hkeys Hnd Hget. injection Hkeys as Hk Hks. subst k'.
  inversion Hnd as [|? ? Hout Hnd']; subst.
  pose proof (Hget k) as H0. simpl in H0. rewrite String.eqb_refl in H0.
  injection H0 as Hv. subst v'. f_equal. apply IH; [exact Hks | exact Hnd'|].
  intros x. specialize (Hget x). simpl in Hget.
  destruct (String.eqb_spec x k) as [Hx|Hne]; [subst x | exact Hget].
  assert (Hout' : ~ In k (keys e)) by now rewrite <- Hks.
  apply get_none_iff in Hout, Hout'. now rewrite Hout, Hout'.
Qed.

Lemma zeros_keys_from l : forall d,
  keys (fold_left (fun d s => set (name s) 0 d) l d)
  = fold_left (fun ks n => set_add n ks) (map name l) (keys d).
Proof.
  induction l as [|s l IH]; intros d; simpl; [reflexivity|].
  now rewrite IH, keys_set_add.
Qed.

(** The keys of the score maps are the names of the strategies, each once,
    in the order of their first occurrence. *)
Lemma zeros_keys l : keys (zeros l) = set_of (map name l).
Proof. unfold zeros, set_of. now rewrite zeros_keys_from. Qed.

Lemma zeros_values_from l : forall d,
  (forall k v, get k d = Some v -> v = 0) ->
  forall k v, get k (fold_left (fun d s => set (name s) 0 d) l d) = Some v -> v = 0.
Proof.
  induction l as [|s l IH]; intros d Hd k v; simpl; [apply Hd|].
  apply IH. intros k' v'. rewrite get_set.
  destruct (String.eqb k' (name s)); [congruence | apply Hd].
Qed.

Lemma zeros_values l k v : get k (zeros l) = Some v -> v = 0.
Proof. apply zeros_values_from. intros ? ?; discriminate. Qed.

(** ** The loops of [run_round] *)

Lemma score_each_total g example l :
  consistent g ->
  forall perf,
    (forall s, In s l -> In (name s) (keys perf)) ->
    (forall k v, get k perf = Some v -> 0 <= v) ->
    exists perf' l',
      score_each g example l perf = Some (perf', l') /\
      keys perf' = keys perf /\
      map name l' = map name l /\
      (forall k v, get k perf' = Some v -> 0 <= v).
Proof.
  intros Hg. induction l as [|s l IH]; intros perf Hin Hpos; simpl.
  - exists perf, []. repeat split; assumption.
  - destruct (HybridFacts.search_total Hg s (query example) 5) as [[r s'] Hs].
    rewrite Hs. simpl.
    destruct (in_keys_get _ _ (Hin s (or_introl eq_refl))) as [old Hold].
    rewrite Hold.
    set (sc := _precision_at_k r (relevant_ids example) 5).
    destruct (IH (set (name s) (old + sc) perf)) as [perf' [l' [-> [Hk [Hn Hp]]]]].
    + intros s0 Hs0. rewrite keys_set_present; [apply Hin; now right|].
      apply Hin. now left.
    + intros k v. rewrite get_set. destruct (String.eqb k (name s)); [|apply Hpos].
      intros [= <-]. pose proof (Hpos _ _ Hold).
      pose proof (PrecisionFacts.precision_bounds r (relevant_ids example) 5).
      subst sc. lra.
    + exists perf', (s' :: l'). simpl. split; [reflexivity|]. split.
      * rewrite Hk. apply keys_set_present, Hin. now left.
      * split; [|exact Hp].
        now rewrite Hn, (StrategyFacts.search_name _ _ _ _ Hs).
Qed.

Lemma compare_each_total g example hybrid_score l :
  consistent g ->
  forall hyb,
    (forall s, In s l -> In (name s) (keys hyb)) ->
    exists hyb' l',
      compare_each g example hybrid_score l hyb = Some (hyb', l') /\
      keys hyb' = keys hyb /\
      map name l' = map name l.
Proof.
  intros Hg. induction l as [|s l IH]; intros hyb Hin; simpl.
  - exists hyb, []. repeat split.
  - destruct (HybridFacts.search_total Hg s (query example) 5) as [[r s'] Hs].
    rewrite Hs. simpl.
    destruct (in_keys_get _ _ (Hin s (or_introl eq_refl))) as [old Hold].
    rewrite Hold.
    set (v := old + (hybrid_score
                     - _precision_at_k r (relevant_ids example) 5)).
    destruct (IH (set (name s) v hyb)) as [hyb' [l' [-> [Hk Hn]]]].
    + intros s0 Hs0. rewrite keys_set_present; [apply Hin; now right|].
      apply Hin. now left.
    + exists hyb', (s' :: l'). simpl. split; [reflexivity|]. split.
      * rewrite Hk. apply keys_set_present, Hin. now left.
      * now rewrite Hn, (StrategyFacts.search_name _ _ _ _ Hs).
Qed.

Lemma names_after g query limit subs outs :
  Forall2 (fun s out => search s g query limit = Some out) subs outs ->
  map name (map snd outs) = map name subs.
Proof.
  induction 1 as [|s [r s'] subs outs Hs _ IH]; simpl; [reflexivity|].
  now rewrite IH, (StrategyFacts.search_name _ _ _ _ Hs).
Qed.

Lemma search_hybrid_total g subs weights query limit :
  consistent g ->
  exists results subs',
    search_hybrid subs weights g query limit = Some (results, subs') /\
    map name subs' = map name subs.
Proof.
  intros Hg. destruct (HybridFacts.search_each query limit subs Hg) as [outs Houts].
  unfold search_hybrid. rewrite (HybridFacts.run_all_stored _ [] Houts). simpl.
  fold (stored subs outs).
  destruct (HybridFacts.rank_fusion_total weights (stored subs outs) limit)
    as [merged [-> _]].
  do 2 eexists. split; [reflexivity|]. eapply names_after, Houts.
Qed.

(** The loop over the examples runs to its end and keeps the tally in
    order. *)
Lemma evaluate_total g weights names ks examples :
  consistent g ->
  forall t,
    tally_ok names ks t ->
    exists t', evaluate g weights examples t = Some t' /\ tally_ok names ks t'.
Proof.
  intros Hg. induction examples as [|example examples IH]; intros t Ht; simpl.
  - exists t. split; [reflexivity | exact Ht].
  - destruct Ht as [Hn [Hkp [Hkh [Hin Hpos]]]].
    destruct (@score_each_total g example (objects t) Hg (performance t))
      as [perf [l1 [-> [Hk1 [Hn1 Hp1]]]]].
    { intros s Hs. rewrite Hkp. apply Hin. rewrite <- Hn. now apply in_map. }
    { exact Hpos. }
    simpl.
    destruct (@search_hybrid_total g l1 weights (query example) 5 Hg)
      as [hr [l2 [-> Hn2]]].
    simpl.
    destruct (@compare_each_total g example
                (_precision_at_k hr (relevant_ids example) 5) l2 Hg
                (hybrid_performance t))
      as [hyb [l3 [-> [Hk3 Hn3]]]].
    { intros s Hs. rewrite Hkh. apply Hin.
      rewrite <- Hn, <- Hn1, <- Hn2. now apply in_map. }
    apply IH. repeat split; simpl.
    + congruence.
    + congruence.
    + congruence.
    + exact Hin.
    + exact Hp1.
Qed.

(** ** What the loops accumulate *)

Lemma same_call_search g o s query limit :
  o = s \/ o = after g s -> search o g query limit = search s g query limit.
Proof. intros [->| ->]; [reflexivity | apply StrategyFacts.search_of_after]. Qed.

Lemma same_call_name g o s : o = s \/ o = after g s -> name o = name s.
Proof. intros [->| ->]; [reflexivity | apply StrategyFacts.name_after]. Qed.

Lemma results_of_eq g s query r s' :
  search s g query 5 = Some (r, s') -> results_of g s query = r.
Proof. intros H. unfold results_of. now rewrite H. Qed.

Lemma share_cons k f s l :
  share k f (s :: l) = (if String.eqb (name s) k then f s else 0) + share k f l.
Proof. reflexivity. Qed.

Lemma score_each_sums g example l subs :
  same_calls g l subs ->
  forall perf perf' l',
    score_each g example l perf = Some (perf', l') ->
    same_calls g l' subs /\
    forall k,
      get_or k 0 perf' =
      get_or k 0 perf
      + share k (fun s => _precision_at_k (results_of g s (query example))
                                          (relevant_ids example) 5) subs.
Proof.
  induction 1 as [|o s l subs Hos _ IH]; intros perf perf' l'; simpl.
  - intros [= <- <-]. split; [constructor|]. intros k. unfold share, Rsum. simpl. lra.
  - rewrite (@same_call_search g o s _ _ Hos), (@same_call_name g o s Hos).
    destruct (search s g (query example) 5) as [[r s1]|] eqn:Es; [|discriminate].
    simpl. destruct (get (name s) perf) as [old|] eqn:Eold; [|discriminate].
    destruct (score_each g example l _) as [[p1 l1]|] eqn:E1; [|discriminate].
    simpl. intros [= <- <-].
    destruct (IH _ _ _ E1) as [Hsame Hget]. split.
    + constructor; [|exact Hsame]. right.
      eapply StrategyFacts.search_after, Es.
    + intros k. rewrite Hget, get_or_set, share_cons, String.eqb_sym.
      rewrite (@results_of_eq g s (query example) r s1 Es).
      destruct (String.eqb_spec (name s) k) as [<-|Hne]; [|lra].
      unfold get_or at 1. rewrite Eold. lra.
Qed.

Lemma compare_each_sums g example hybrid_score l subs :
  same_calls g l subs ->
  forall hyb hyb' l',
    compare_each g example hybrid_score l hyb = Some (hyb', l') ->
    same_calls g l' subs /\
    forall k,
      get_or k 0 hyb' =
      get_or k 0 hyb
      + share k (fun s => hybrid_score
                          - _precision_at_k (results_of g s (query example))
                                            (relevant_ids example) 5) subs.
Proof.
  induction 1 as [|o s l subs Hos _ IH]; intros hyb hyb' l'; simpl.
  - intros [= <- <-]. split; [constructor|]. intros k. unfold share, Rsum. simpl. lra.
  - rewrite (@same_call_search g o s _ _ Hos), (@same_call_name g o s Hos).
    destruct (search s g (query example) 5) as [[r s1]|] eqn:Es; [|discriminate].
    simpl. destruct (get (name s) hyb) as [old|] eqn:Eold; [|discriminate].
    destruct (compare_each g example hybrid_score l _) as [[h1 l1]|] eqn:E1;
      [|discriminate].
    simpl. intros [= <- <-].
    destruct (IH _ _ _ E1) as [Hsame Hget]. split.
    + constructor; [|exact Hsame]. right.
      eapply StrategyFacts.search_after, Es.
    + intros k. rewrite Hget, get_or_set, share_cons, String.eqb_sym.
      rewrite (@results_of_eq g s (query example) r s1 Es).
      destruct (String.eqb_spec (name s) k) as [<-|Hne]; [|lra].
      unfold get_or at 1. rewrite Eold. lra.
Qed.

Lemma run_all_same g query limit l subs :
  same_calls g l subs ->
  forall acc,
    run_all (fun s => search s g query limit) l acc
    = run_all (fun s => search s g query limit) subs acc.
Proof.
  induction 1 as [|o s l subs Hos _ IH]; intros acc; simpl; [reflexivity|].
  rewrite (@same_call_search g o s _ _ Hos), (@same_call_name g o s Hos).
  destruct (search s g query limit) as [[r s1]|]; [|reflexivity]. simpl.
  now rewrite IH.
Qed.

(** The hybrid over the objects returns what the hybrid over the strategies
    returns, and leaves the objects as a call leaves them. *)
Lemma search_hybrid_same g l subs weights query limit results l' :
  same_calls g l subs ->
  search_hybrid l weights g query limit = Some (results, l') ->
  search_hybrid subs weights g query limit = Some (results, l') /\
  same_calls g l' subs.
Proof.
  intros Hsame. unfold search_hybrid. rewrite (run_all_same _ _ Hsame).
  destruct (run_all _ subs []) as [[res l1]|] eqn:E; [|discriminate]. simpl.
  destruct (Hybrid.rank_fusion weights res limit) as [m|]; [|discriminate].
  intros [= <- <-]. split; [reflexivity|].
  assert (Hl1 : l1 = map (after g) subs).
  { eapply StrategyFacts.run_all_after; [|exact E].
    apply Forall_forall. intros s _ r s'. apply StrategyFacts.search_after. }
  rewrite Hl1. unfold same_calls. clear. induction subs as [|s subs IH]; simpl.
  - constructor.
  - constructor; [now right | exact IH].
Qed.

Lemma precision_total_cons g subs example examples k :
  precision_total g subs (example :: examples) k =
  share k (fun s => _precision_at_k (results_of g s (query example))
                                    (relevant_ids example) 5) subs
  + precision_total g subs examples k.
Proof. reflexivity. Qed.

Lemma advantage_total_cons g subs weights example examples k :
  advantage_total g subs weights (example :: examples) k =
  share k (fun s =>
             _precision_at_k (hybrid_results g subs weights (query example))
                             (relevant_ids example) 5
             - _precision_at_k (results_of g s (query example))
                               (relevant_ids example) 5) subs
  + advantage_total g subs weights examples k.
Proof. reflexivity. Qed.

(** The tally after the loop over the examples: to each accumulator the
    loop has added, for each name, the sums over the examples. *)
Lemma evaluate_sums g weights subs examples : forall t t',
  same_calls g (objects t) subs ->
  evaluate g weights examples t = Some t' ->
  forall k,
    get_or k 0 (performance t') =
    get_or k 0 (performance t) + precision_total g subs examples k /\
    get_or k 0 (hybrid_performance t') =
    get_or k 0 (hybrid_performance t) + advantage_total g subs weights examples k.
Proof.
  induction examples as [|example examples IH]; intros t t' Hsame; simpl.
  - intros [= <-] k. unfold precision_total, advantage_total, Rsum. simpl.
    split; lra.
  - destruct (score_each g example (objects t) (performance t))
      as [[p1 l1]|] eqn:E1; [|discriminate].
    simpl.
    destruct (search_hybrid l1 weights g (query example) 5)
      as [[hr l2]|] eqn:E2; [|discriminate].
    simpl.
    destruct (compare_each g example _ l2 (hybrid_performance t))
      as [[h3 l3]|] eqn:E3; [|discriminate].
    simpl. intros Ht' k.
    destruct (@score_each_sums g example (objects t) subs Hsame
                (performance t) p1 l1 E1) as [Hs1 Hp1].
    destruct (@search_hybrid_same g l1 subs weights (query example) 5 hr l2
                Hs1 E2) as [Hhyb Hs2].
    destruct (@compare_each_sums g example
                (_precision_at_k hr (relevant_ids example) 5) l2 subs Hs2
                (hybrid_performance t) h3 l3 E3) as [Hs3 Hh3].
    destruct (IH {| objects := l3; performance := p1; hybrid_performance := h3 |}
                 t' Hs3 Ht' k) as [G1 G2].
    simpl in G1, G2.
    assert (Hhr : hybrid_results g subs weights (query example) = hr)
      by (unfold hybrid_results; now rewrite Hhyb).
    rewrite G1, G2, Hp1, Hh3, precision_total_cons, advantage_total_cons, Hhr.
    split; lra.
Qed.

(** ** The division by the number of queries *)

Lemma normalize_total query_count names : forall st,
  (forall n, In n names -> In n (keys (fst st)) /\ In n (keys (snd st))) ->
  exists st',
    normalize query_count names st = Some st' /\
    keys (fst st') = keys (fst st) /\
    keys (snd st') = keys (snd st) /\
    (NoDup names ->
     forall k,
       get k (fst st') =
       (if mem k names then option_map (fun v => v / query_count) (get k (fst st))
        else get k (fst st)) /\
       get k (snd st') =
       (if mem k names then option_map (fun v => v / query_count) (get k (snd st))
        else get k (snd st))).
Proof.
  induction names as [|n names IH]; intros [perf hyb] Hin; simpl.
  - eexists. split; [reflexivity|]. repeat split.
  - simpl in Hin. destruct (Hin n (or_introl eq_refl)) as [Hp Hh].
    destruct (in_keys_get _ _ Hp) as [p Ep]. destruct (in_keys_get _ _ Hh) as [h Eh].
    rewrite Ep, Eh.
    destruct (IH (set n (p / query_count) perf, set n (h / query_count) hyb))
      as [st' [-> [Hk1 [Hk2 Hget]]]].
    { intros m Hm. simpl. rewrite !keys_set_present by assumption.
      apply Hin. now right. }
    simpl in *. exists st'. split; [reflexivity|].
    split; [now rewrite Hk1, keys_set_present|].
    split; [now rewrite Hk2, keys_set_present|].
    intros Hnd k. inversion Hnd as [|? ? Hout Hnd']; subst.
    destruct (Hget Hnd' k) as [G1 G2]. rewrite G1, G2, !get_set.
    destruct (String.eqb_spec k n) as [->|Hne]; simpl.
    + apply mem_false_iff in Hout. rewrite Hout, Ep, Eh. split; reflexivity.
    + split; reflexivity.
Qed.

(** Over the keys of the score map the loop divides every value of the two
    maps. *)
Lemma normalize_keys query_count perf hyb :
  NoDup (keys perf) -> keys hyb = keys perf ->
  normalize query_count (keys perf) (perf, hyb)
  = Some (map_values (fun v => v / query_count) perf,
          map_values (fun v => v / query_count) hyb).
Proof.
  intros Hnd Hk.
  destruct (@normalize_total query_count (keys perf) (perf, hyb))
    as [[perf' hyb'] [-> [Hk1 [Hk2 Hget]]]].
  { intros n Hn. simpl. rewrite Hk. auto. }
  simpl in *. specialize (Hget Hnd).
  assert (Hall : forall (d : Dict R) k,
             keys d = keys perf ->
             (if mem k (keys perf)
              then option_map (fun v => v / query_count) (get k d) else get k d)
             = get k (map_values (fun v => v / query_count) d)).
  { intros d k Hd. rewrite get_map_values.
    destruct (mem k (keys perf)) eqn:E; [reflexivity|].
    apply mem_false_iff in E. rewrite <- Hd in E. apply get_none_iff in E.
    now rewrite E. }
  do 2 f_equal.
  - apply dict_ext.
    + now rewrite Hk1, keys_map_values.
    + now rewrite Hk1.
    + intros k. rewrite (proj1 (Hget k)). now apply Hall.
  - apply dict_ext.
    + now rewrite Hk2, keys_map_values.
    + now rewrite Hk2, Hk.
    + intros k. rewrite (proj2 (Hget k)). now apply Hall.
Qed.

(** C6: on a built graph [run_round] runs to its end; it divides every
    accumulated precision and every accumulated hybrid advantage by the number
    of examples, or by 1 when there is none, passes the divided advantages to
    the hybrid's [update_weights], and returns the divided precisions: a map
    whose keys are exactly the names of the constituent strategies, whose
    value for a name is the precision@5 of the strategies of that name summed
    over the examples and divided (the hybrid's own precision enters the
    advantages only), and whose values are not negative. *)
Theorem run_round_spec l :
  built (graph l) ->
  exists t,
    let query_count := INR (Nat.max (List.length (evaluation_set l)) 1) in
    let means := map_values (fun v => v / query_count) (performance t) in
    let advantages := map_values (fun v => v / query_count) (hybrid_performance t) in
    evaluate (graph l) (hybrid_weights l) (evaluation_set l)
      {| objects := strategies l; performance := zeros (strategies l);
         hybrid_performance := zeros (strategies l) |} = Some t /\
    (evaluation_set l = [] -> query_count = 1) /\
    (evaluation_set l <> [] ->
     query_count = INR (List.length (evaluation_set l))) /\
    run_round l =
    Some (means,
          {| graph := graph l; strategies := objects t;
             evaluation_set := evaluation_set l;
             hybrid_weights :=
               Hybrid.update_weights (hybrid_weights l) advantages 0.1 |}) /\
    keys means = set_of (map name (strategies l)) /\
    (forall k, In k (keys means) <-> exists s, In s (strategies l) /\ name s = k) /\
    (forall k, In k (keys means) ->
       get k means =
       Some (precision_total (graph l) (strategies l) (evaluation_set l) k
             / query_count) /\
       get k advantages =
       Some (advantage_total (graph l) (strategies l) (hybrid_weights l)
                             (evaluation_set l) k
             / query_count)) /\
    (forall k v, get k means = Some v -> 0 <= v).
Proof.
  intros Hb. apply built_consistent in Hb.
  set (names := map name (strategies l)).
  set (t0 := {| objects := strategies l; performance := zeros (strategies l);
                hybrid_performance := zeros (strategies l) |}).
  assert (H0 : tally_ok names (set_of names) t0).
  { repeat split; simpl; try apply zeros_keys.
    - intros n Hn. now apply in_set_of.
    - intros k v H. apply zeros_values in H. lra. }
  destruct (@evaluate_total (graph l) (hybrid_weights l) names (set_of names)
              (evaluation_set l) Hb t0 H0)
    as [t [Ht [Hn [Hkp [Hkh [_ Hpos]]]]]].
  exists t. cbv zeta.
  set (qc := INR (Nat.max (List.length (evaluation_set l)) 1)).
  assert (Hqc : 0 < qc) by (apply lt_0_INR; lia).
  split; [exact Ht|]. split; [|split; [|split; [|split; [|split; [|split]]]]].
  - intros E. subst qc. now rewrite E.
  - intros E. subst qc. f_equal. destruct (evaluation_set l); [contradiction|].
    simpl. lia.
  - unfold run_round. fold t0. rewrite Ht.
    rewrite normalize_keys.
    + reflexivity.
    + rewrite Hkp. apply NoDup_set_of.
    + congruence.
  - now rewrite keys_map_values, Hkp.
  - intros k. rewrite keys_map_values, Hkp, in_set_of. unfold names.
    rewrite in_map_iff. split; intros [s [H1 H2]]; exists s; auto.
  - intros k Hk. rewrite keys_map_values in Hk.
    assert (Hsame : same_calls (graph l) (objects t0) (strategies l)).
    { simpl. unfold same_calls. clear. induction (strategies l) as [|s subs IH].
      - constructor.
      - constructor; [now left | exact IH]. }
    destruct (@evaluate_sums (graph l) (hybrid_weights l) (strategies l)
                (evaluation_set l) t0 t Hsame Ht k) as [G1 G2].
    assert (Hz : get_or k 0 (zeros (strategies l)) = 0).
    { unfold get_or. destruct (get k (zeros (strategies l))) as [v|] eqn:E;
        [apply (zeros_values _ _ E) | reflexivity]. }
    simpl in G1, G2. rewrite Hz, Rplus_0_l in G1, G2.
    rewrite !get_map_values.
    destruct (in_keys_get _ _ Hk) as [p Ep].
    assert (Hk' : In k (keys (hybrid_performance t))) by congruence.
    destruct (in_keys_get _ _ Hk') as [h Eh].
    unfold get_or in G1, G2. rewrite Ep in G1. rewrite Eh in G2.
    rewrite Ep, Eh. simpl. now rewrite G1, G2.
  - intros k v. rewrite get_map_values.
    destruct (get k (performance t)) as [p|] eqn:E; [|discriminate].
    intros [= <-]. apply Hpos in E.
    apply Rmult_le_pos; [exact E | left; apply Rinv_0_lt_compat, Hqc].
Qed.

End LeagueFacts.

(* ================================================================== *)
(** * The theorems on the small corpus *)
(* ================================================================== *)

Module Examples.

Import Py PyFacts Data League.
Local Open Scope R_scope.
Local Open Scope string_scope.

(** ** The model on concrete inputs *)

Example split_whitespace :
  split "  deep  Learning transformers " = ["deep"; "Learning"; "transformers"].
Proof. reflexivity. Qed.

Example split_on_and :
  split_sep " and " " and and and " = [""; "and"; ""].
Proof. reflexivity. Qed.

Example facets_of_query :
  OntologyLens.filters "Deep Learning and  overview and " = ["deep learning"; "overview"].
Proof. reflexivity. Qed.

Example slice_negative : slice_to [1; 2; 3; 4]%nat (-1) = [1; 2; 3]%nat.
Proof. reflexivity. Qed.

Example signature_tokens :
  Vector._tokenize (text_signature Demo.attention) =
  ["attention"; "is"; "all"; "you"; "need"; "paper"; "transformer";
   "architecture"; "using"; "self-attention"; "for"; "machine"; "translation.";
   "deep"; "learning"; "transformers"; "nlp"].
Proof. reflexivity. Qed.

Example graph_index :
  _node_to_edges Demo.graph =
  [("paper:attention_is_all_you_need", ["topic:deep learning"]);
   ("paper:alphafold", ["topic:deep learning"])].
Proof. reflexivity. Qed.

Example graph_neighbors :
  option_map (map node_id) (neighbors Demo.graph "paper:alphafold")
  = Some ["paper:attention_is_all_you_need"].
Proof. reflexivity. Qed.

Example protein_seeds :
  keys (GraphTraversal.base_scores Demo.graph (GraphTraversal.keywords "protein"))
  = ["paper:alphafold"].
Proof. reflexivity. Qed.

Example protein_first_hop :
  option_map (map fst)
    (spread Demo.graph
       (GraphTraversal.base_scores Demo.graph (GraphTraversal.keywords "protein")))
  = Some ["paper:attention_is_all_you_need"].
Proof.
  unfold spread.
  change (GraphTraversal.base_scores Demo.graph (GraphTraversal.keywords "protein"))
    with [("paper:alphafold", 1%R)].
  change (neighbors Demo.graph "paper:alphafold") with (Some [Demo.attention]).
  cbv beta iota. unfold spread1.
  destruct (Rlt_dec 0.01 (1 * 0.6)) as [_|H]; [reflexivity | exfalso; lra].
Qed.

Example facets_matched :
  map (OntologyLens.match_count (OntologyLens.filters "biology and protein"))
      (all_nodes Demo.graph)
  = [0; 2]%nat.
Proof. reflexivity. Qed.

Example dangling_edge_skipped :
  neighbors (add_hyperedge Demo.single
               {| edge_id := "e"; relation := "r";
                  node_ids := ["paper:alphafold"; "missing"]; weight := 1%R |})
            "missing"
  = Some [Demo.alphafold].
Proof. reflexivity. Qed.

(** ** The theorems on the corpus *)

Lemma graph_built : built Demo.graph.
Proof. unfold Demo.graph. repeat constructor. Qed.

(** [vector_search_spec] on the graph of one node. *)
Lemma vector_search_witness :
  exists ranked,
    fst (Vector.search [] Demo.single "protein" 5) = slice_to ranked 5 /\
    descending score ranked.
Proof.
  destruct (VectorFacts.vector_search_spec [] Demo.single "protein" 5)
    as [_ [_ [_ [ranked [Hcut [Hsorted _]]]]]].
  exists ranked. split; [exact Hcut | exact Hsorted].
Defined.


(** [hybrid_weights_floor] after one update with a large negative delta. *)
Lemma hybrid_weights_witness :
  get "vector"
      (updates (initial_weights Demo.strategies) [([("vector", (-100)%R)], 0.1%R)])
  = Some (Py.max 0.1 (1 + 0.1 * -100)) /\
  (0.1 <= Py.max 0.1 (1 + 0.1 * -100))%R.
Proof.
  assert (H : get "vector"
                  (updates (initial_weights Demo.strategies)
                           [([("vector", (-100)%R)], 0.1%R)])
              = Some (Py.max 0.1 (1 + 0.1 * -100))) by reflexivity.
  split; [exact H|].
  exact (proj1 (proj2 (proj2 WeightFacts.hybrid_weights_floor)) _ _ _ _ H).
Defined.

(** [precision_at_k_spec] on two results, one of them relevant. *)
Lemma precision_at_k_witness :
  (0 <= 5)%Z /\
  _precision_at_k [Demo.hit; Demo.miss] ["paper:alphafold"] 5 = (INR 1 / INR 2)%R.
Proof.
  assert (Hk : (0 <= 5)%Z) by lia.
  split; [exact Hk|].
  destruct (PrecisionFacts.precision_at_k_spec
              [Demo.hit; Demo.miss] ["paper:alphafold"] Hk)
    as [_ [_ [Hvalue _]]].
  apply Hvalue. discriminate.
Defined.

(** [run_round_spec] on the league of the corpus. *)
Lemma run_round_witness :
  built (graph Demo.league) /\
  exists scores after,
    run_round Demo.league = Some (scores, after) /\
    keys scores = ["vector"; "graph"; "ontology"].
Proof.
  split; [apply graph_built|].
  destruct (LeagueFacts.run_round_spec Demo.league graph_built)
    as [t [_ [_ [_ [Hrun [Hkeys _]]]]]].
  do 2 eexists. split; [exact Hrun | exact Hkeys].
Defined.


(** [search_deterministic] on the hybrid over the corpus. *)
Lemma search_deterministic_witness :
  built Demo.graph /\
  exists results after,
    search (new_hybrid Demo.strategies) Demo.graph "protein" 5
    = Some (results, after) /\
    search after Demo.graph "protein" 5 = Some (results, after).
Proof.
  split; [apply graph_built|].
  exact (proj1 (proj2 (DeterminismFacts.search_deterministic
                         (new_hybrid Demo.strategies) Demo.graph "protein" 5))
               graph_built).
Defined.

(** [graph_lookup_safe] on the corpus. *)
Lemma graph_lookup_witness :
  built Demo.graph /\
  exists results,
    GraphTraversal.search 2 Demo.graph "protein" 5
    = Some (slice_to (sort_desc score results) 5).
Proof.
  split; [apply graph_built|].
  destruct (GraphFacts.graph_lookup_safe 2 "protein" 5 graph_built)
    as [_ [_ [propagation [results [_ [_ [_ Hsearch]]]]]]].
  exists results. exact Hsearch.
Defined.

(** [vector_idf_cache] on a table with one entry. *)
Lemma vector_idf_witness :
  idf_after [("protein", 1%R)] [(Demo.graph, "protein", 5%Z); (Data.empty, "", 0%Z)]
  = [("protein", 1%R)].
Proof.
  exact (proj1 (proj2 StrategyFacts.vector_idf_cache) _ _ _).
Defined.

(** C7 does not hold as stated: a first [search] on the empty graph
    leaves the table empty, and a later [search], once the graph has a node,
    builds it. *)
Lemma vector_idf_rebuilt :
  idf_after [] [(Data.empty, "protein", 5%Z)] = [] /\
  get "protein"
      (idf_after [] [(Data.empty, "protein", 5%Z); (Demo.single, "protein", 5%Z)])
  = Some (idf_value 1 1) /\
  idf_after [] [(Data.empty, "protein", 5%Z); (Demo.single, "protein", 5%Z)]
  <> idf_after [] [(Data.empty, "protein", 5%Z)].
Proof.
  assert (H2 : get "protein"
                 (idf_after [] [(Data.empty, "protein", 5%Z);
                                (Demo.single, "protein", 5%Z)])
               = Some (idf_value 1 1)) by reflexivity.
  split; [reflexivity|]. split; [exact H2|].
  intros E. rewrite E in H2. discriminate H2.
Qed.

End Examples.

(* ================================================================== *)
(** * Further properties of the knowledge graph *)
(* ================================================================== *)

Module StoreFacts.

Import Py PyFacts Data DataFacts.

(** ** The invariants of a built graph *)

Lemma tidy_empty : tidy empty.
Proof.
  repeat split; simpl; try constructor; intros; contradiction.
Qed.

Lemma tidy_add_node g n : tidy g -> tidy (add_node g n).
Proof.
  intros [Hn [He [Hi [Hid Hnd]]]]. repeat split; simpl; try assumption.
  - now apply NoDup_keys_set.
  - now apply NoDup_keys_setdefault.
  - intros nid edges Hin. unfold setdefault in Hin.
    destruct (has (node_id n) (_node_to_edges g)); [now apply (Hnd nid)|].
    apply in_app_iff in Hin. destruct Hin as [Hin|[[= <- <-]|[]]].
    + now apply (Hnd nid).
    + constructor.
Qed.

Lemma link_all_keys eid nids : forall index,
  NoDup (keys index) -> NoDup (keys (fold_left (link eid) nids index)).
Proof.
  induction nids as [|n nids IH]; intros index H; simpl; [exact H|].
  apply IH. unfold link. now apply NoDup_keys_set.
Qed.

Lemma link_all_NoDup eid nids : forall index,
  (forall nid edges, In (nid, edges) index -> NoDup edges) ->
  forall nid edges,
    In (nid, edges) (fold_left (link eid) nids index) -> NoDup edges.
Proof.
  induction nids as [|n nids IH]; intros index H; simpl; [exact H|].
  apply IH. intros nid edges Hin. unfold link in Hin.
  apply in_set_inv in Hin. destruct Hin as [[-> ->]|Hin]; [|now apply (H nid)].
  apply NoDup_set_add. unfold get_or.
  destruct (get n index) as [es|] eqn:E; [|constructor].
  apply get_in in E. now apply (H n).
Qed.

Lemma tidy_add_hyperedge g e : tidy g -> tidy (add_hyperedge g e).
Proof.
  intros [Hn [He [Hi [Hid Hnd]]]]. repeat split; simpl; try assumption.
  - now apply NoDup_keys_set.
  - now apply link_all_keys.
  - intros k e' Hin. apply in_set_inv in Hin.
    destruct Hin as [[-> ->]|Hin]; [reflexivity | now apply Hid].
  - now apply link_all_NoDup.
Qed.

Lemma built_tidy g : built g -> tidy g.
Proof.
  induction 1.
  - apply tidy_empty.
  - now apply tidy_add_node.
  - now apply tidy_add_hyperedge.
Qed.

Lemma all_nodes_ids g : consistent g -> map node_id (all_nodes g) = keys (nodes g).
Proof.
  intros [Hn _]. unfold all_nodes, values, keys. rewrite map_map.
  apply map_ext_in. intros [k n] Hin. simpl. now apply Hn.
Qed.

Lemma in_all_nodes_iff g n :
  consistent g -> tidy g ->
  (In n (all_nodes g) <-> get (node_id n) (nodes g) = Some n).
Proof.
  intros [Hn _] [Hnd _]. split.
  - intros Hin. unfold all_nodes, values in Hin. apply in_map_iff in Hin.
    destruct Hin as [[k n'] [E Hin]]. simpl in E. subst n'.
    rewrite (Hn _ _ Hin). now apply in_get.
  - apply get_all_nodes.
Qed.

Lemma values_set_fresh (V : Type) k (v : V) d :
  has k d = false -> values (set k v d) = (values d ++ [v])%list.
Proof.
  intros H. rewrite HybridFacts.set_fresh.
  - unfold values. now rewrite map_app.
  - rewrite <- has_iff. congruence.
Qed.

(** X1: [add_node] is an upsert.  On a built graph the node is stored under
    its id, in the place of a node of that id if there was one and last in
    the snapshot otherwise; the other nodes, the edges and the adjacency of
    every id stay as they were, and the ids of the snapshot stay distinct. *)
Theorem add_node_upsert g n :
  built g ->
  let g' := add_node g n in
  get (node_id n) (nodes g') = Some n /\
  (forall k, k <> node_id n -> get k (nodes g') = get k (nodes g)) /\
  (forall k, get_or k [] (_node_to_edges g') = get_or k [] (_node_to_edges g)) /\
  hyperedges g' = hyperedges g /\
  NoDup (map node_id (all_nodes g')) /\
  (forall m, In m (all_nodes g') <->
             m = n \/ (In m (all_nodes g) /\ node_id m <> node_id n)) /\
  (has (node_id n) (nodes g) = false -> all_nodes g' = (all_nodes g ++ [n])%list) /\
  (has (node_id n) (nodes g) = true ->
   map node_id (all_nodes g') = map node_id (all_nodes g)).
Proof.
  intros Hb g'.
  assert (Hb' : built g') by now constructor.
  pose proof (built_consistent Hb) as Hc. pose proof (built_tidy Hb) as Ht.
  pose proof (built_consistent Hb') as Hc'. pose proof (built_tidy Hb') as Ht'.
  split; [apply get_set_eq|].
  split; [intros k Hk; now apply get_set_ne|].
  split; [intros k; apply GraphFacts.get_or_setdefault_same|].
  split; [reflexivity|].
  split; [rewrite (all_nodes_ids Hc'); apply Ht'|].
  split; [|split].
  - intros m. rewrite (in_all_nodes_iff m Hc' Ht'), (in_all_nodes_iff m Hc Ht).
    unfold g'. simpl. rewrite get_set.
    destruct (String.eqb_spec (node_id m) (node_id n)) as [E|Hne].
    + split; [intros [= ->]; now left | intros [->|[_ H]]; [reflexivity | contradiction]].
    + split; [intros H; right; now split | intros [->|[H _]]; [contradiction | exact H]].
  - intros Hnew. unfold all_nodes, g'. simpl. now apply values_set_fresh.
  - intros Hold. rewrite (all_nodes_ids Hc'), (all_nodes_ids Hc).
    unfold g'. simpl. apply LeagueFacts.keys_set_present. now apply has_iff.
Qed.

(** ** [neighbors] and [related_edges] *)

Lemma related_spec g nid edge :
  exists ns,
    related g nid edge = Some ns /\
    forall m, In m ns <->
              exists rid, In rid (node_ids edge) /\ rid <> nid /\
                          get rid (nodes g) = Some m.
Proof.
  unfold related. induction (node_ids edge) as [|r l IH]; simpl.
  - exists []. split; [reflexivity|]. intros m. split; [intros [] | intros [rid [[] _]]].
  - destruct IH as [ns [-> Hns]].
    destruct (String.eqb_spec r nid) as [->|Hne]; simpl.
    + exists ns. split; [reflexivity|]. intros m. rewrite Hns.
      split; intros [rid [Hin [Hr Hg]]]; exists rid.
      * auto.
      * destruct Hin as [<-|Hin]; [contradiction | auto].
    + unfold has. destruct (get r (nodes g)) as [n|] eqn:En.
      * exists (n :: ns). split; [reflexivity|]. intros m. simpl. rewrite Hns.
        split.
        -- intros [<-|[rid [Hin [Hr Hg]]]]; [exists r; auto | exists rid; auto].
        -- intros [rid [[<-|Hin] [Hr Hg]]];
             [left; congruence | right; exists rid; auto].
      * exists ns. split; [reflexivity|]. intros m. rewrite Hns.
        split; intros [rid [Hin [Hr Hg]]]; exists rid.
        -- auto.
        -- destruct Hin as [<-|Hin]; [congruence | auto].
Qed.

Lemma neighbors_members g nid ns :
  neighbors g nid = Some ns ->
  forall m, In m ns <->
            exists eid e rid,
              In eid (get_or nid [] (_node_to_edges g)) /\
              get eid (hyperedges g) = Some e /\
              In rid (node_ids e) /\ rid <> nid /\ get rid (nodes g) = Some m.
Proof.
  unfold neighbors. revert ns.
  induction (get_or nid [] (_node_to_edges g)) as [|eid l IH]; intros ns; simpl.
  - intros [= <-] m. split; [intros [] | intros [? [? [? [[] _]]]]].
  - destruct (fold_right _ (Some []) l) as [rest|]; [|discriminate].
    destruct (get eid (hyperedges g)) as [edge|] eqn:Ee; [|discriminate].
    destruct (related_spec g nid edge) as [here [-> Hhere]].
    intros [= <-] m. rewrite in_app_iff, Hhere, (IH rest eq_refl). split.
    + intros [[rid [H1 [H2 H3]]]|[eid' [e [rid [H0 [H1 [H2 [H3 H4]]]]]]]].
      * exists eid, edge, rid. auto 6.
      * exists eid', e, rid. auto 6.
    + intros [eid' [e [rid [[<-|H0] [H1 [H2 [H3 H4]]]]]]].
      * left. exists rid. rewrite Ee in H1. injection H1 as <-. auto.
      * right. exists eid', e, rid. auto 6.
Qed.

Lemma get_edge_iff g eid e :
  tidy g -> (get eid (hyperedges g) = Some e <-> In e (all_edges g) /\ edge_id e = eid).
Proof.
  intros [_ [Hnd [_ [Hid _]]]]. split.
  - intros H. apply get_in in H. split.
    + unfold all_edges, values. apply (in_map snd) in H. exact H.
    + now apply Hid.
  - intros [Hin <-]. unfold all_edges, values in Hin. apply in_map_iff in Hin.
    destruct Hin as [[k e'] [E Hin]]. simpl in E. subst e'.
    rewrite (Hid _ _ Hin). now apply in_get.
Qed.

(** X2: what [neighbors] yields.  On a built graph it never fails; the nodes
    it yields for [nid] are the stored nodes, other than [nid] itself, that
    a stored edge of the adjacency entry of [nid] lists; an id without an
    entry has no neighbors. *)
Theorem neighbors_spec g nid :
  built g ->
  exists ns,
    neighbors g nid = Some ns /\
    (forall m, In m ns <->
               exists e,
                 In (edge_id e) (get_or nid [] (_node_to_edges g)) /\
                 In e (all_edges g) /\
                 In (node_id m) (node_ids e) /\
                 node_id m <> nid /\
                 In m (all_nodes g)) /\
    (get nid (_node_to_edges g) = None -> ns = []).
Proof.
  intros Hb. pose proof (built_consistent Hb) as Hc. pose proof (built_tidy Hb) as Ht.
  destruct (neighbors_total nid Hc) as [ns [Hns _]].
  exists ns. split; [exact Hns|]. split.
  - intros m. rewrite (neighbors_members _ _ Hns). split.
    + intros [eid [e [rid [H0 [H1 [H2 [H3 H4]]]]]]].
      apply (get_edge_iff eid e Ht) in H1. destruct H1 as [H1 <-].
      assert (Hm : node_id m = rid) by (apply (proj1 Hc), get_in, H4).
      exists e. rewrite Hm. repeat split; try assumption.
      apply (get_all_nodes _ _ H4).
    + intros [e [H0 [H1 [H2 [H3 H4]]]]].
      exists (edge_id e), e, (node_id m). repeat split; try assumption.
      * now apply (get_edge_iff (edge_id e) e Ht).
      * now apply (in_all_nodes_iff m Hc Ht).
  - intros Hnone. unfold neighbors, get_or in Hns. rewrite Hnone in Hns.
    simpl in Hns. congruence.
Qed.

Lemma related_edges_run g nid :
  consistent g ->
  exists es,
    related_edges g nid = Some es /\
    Forall2 (fun eid e => get eid (hyperedges g) = Some e)
            (get_or nid [] (_node_to_edges g)) es.
Proof.
  intros [_ He]. unfold related_edges, get_or.
  destruct (get nid (_node_to_edges g)) as [edges|] eqn:E.
  - apply get_in in E.
    assert (Hall : forall eid, In eid edges -> has eid (hyperedges g) = true)
      by (intros eid; apply (He nid edges eid E)).
    clear E. induction edges as [|eid edges IH]; simpl.
    + exists []. split; [reflexivity | constructor].
    + destruct IH as [es [-> Hes]]; [intros; apply Hall; now right|].
      specialize (Hall eid (or_introl eq_refl)). unfold has in Hall.
      destruct (get eid (hyperedges g)) as [edge|] eqn:Ee; [|discriminate].
      exists (edge :: es). split; [reflexivity | now constructor].
  - exists []. split; [reflexivity | constructor].
Qed.

Lemma looked_up g l es :
  tidy g ->
  Forall2 (fun eid e => get eid (hyperedges g) = Some e) l es ->
  map edge_id es = l /\ forall e, In e es -> In e (all_edges g).
Proof.
  intros Ht. induction 1 as [|eid e l es H _ [IH1 IH2]]; simpl.
  - split; [reflexivity | intros e []].
  - apply (get_edge_iff eid e Ht) in H. destruct H as [Hin <-]. split.
    + now rewrite IH1.
    + intros e' [<-|He]; [exact Hin | now apply IH2].
Qed.

(** X3: [related_edges] on a built graph never fails on a lookup; it yields
    one stored edge for each edge id of the adjacency entry, in the order of
    the entry and none twice, and nothing for an id without an entry. *)
Theorem related_edges_spec g nid :
  built g ->
  exists es,
    related_edges g nid = Some es /\
    map edge_id es = get_or nid [] (_node_to_edges g) /\
    NoDup (map edge_id es) /\
    (forall e, In e es -> In e (all_edges g)) /\
    (get nid (_node_to_edges g) = None -> es = []).
Proof.
  intros Hb. pose proof (built_consistent Hb) as Hc. pose proof (built_tidy Hb) as Ht.
  destruct (related_edges_run nid Hc) as [es [Hes Hall]].
  exists es. split; [exact Hes|].
  destruct (looked_up Ht Hall) as [Hids Hin].
  split; [exact Hids|]. split; [|split].
  - rewrite Hids. unfold get_or.
    destruct (get nid (_node_to_edges g)) as [edges|] eqn:E; [|constructor].
    apply get_in in E. destruct Ht as [_ [_ [_ [_ Hnd]]]]. now apply (Hnd nid).
  - exact Hin.
  - intros Hnone. unfold get_or in Hall. rewrite Hnone in Hall. now inversion Hall.
Qed.

(** ** Edges added before their nodes *)

Lemma link_get eid index n a :
  get_or a [] (link eid index n) =
  if String.eqb a n then set_add eid (get_or n [] index) else get_or a [] index.
Proof. unfold link. apply get_or_set. Qed.

Lemma link_all_keeps eid x a nids : forall index,
  In x (get_or a [] index) ->
  In x (get_or a [] (fold_left (link eid) nids index)).
Proof.
  induction nids as [|n nids IH]; intros index H; simpl; [exact H|].
  apply IH. rewrite link_get. destruct (String.eqb_spec a n) as [->|]; [|exact H].
  apply in_set_add. now right.
Qed.

Lemma link_all_in eid a nids : forall index,
  In a nids -> In eid (get_or a [] (fold_left (link eid) nids index)).
Proof.
  induction nids as [|n nids IH]; intros index; simpl; [tauto|].
  intros [->|Hin]; [|now apply IH].
  apply link_all_keeps. rewrite link_get, String.eqb_refl.
  apply in_set_add. now left.
Qed.

(** X4: an edge may be added before its nodes.  An id that an edge lists
    and that is not yet the id of a stored node is skipped by [neighbors];
    once [add_node] stores a node of that id, the node is a neighbor of every
    other id the edge lists. *)
Theorem edge_before_node g e nb a :
  built g ->
  In a (node_ids e) -> In (node_id nb) (node_ids e) -> a <> node_id nb ->
  (has (node_id nb) (nodes g) = false ->
   exists ns, neighbors (add_hyperedge g e) a = Some ns /\
              forall m, In m ns -> node_id m <> node_id nb) /\
  exists ns, neighbors (add_node (add_hyperedge g e) nb) a = Some ns /\ In nb ns.
Proof.
  intros Hb Ha Hnb Hne. split.
  - intros Hnew.
    assert (Hb1 : built (add_hyperedge g e)) by now constructor.
    pose proof (built_consistent Hb1) as Hc.
    destruct (neighbors_total a Hc) as [ns [Hns Hin]].
    exists ns. split; [exact Hns|]. intros m Hm E.
    apply Hin in Hm. apply (@all_nodes_registered _ m Hc) in Hm.
    unfold registered in Hm. rewrite E in Hm.
    simpl in Hm. congruence.
  - assert (Hb2 : built (add_node (add_hyperedge g e) nb)) by now repeat constructor.
    destruct (neighbors_total a (built_consistent Hb2)) as [ns [Hns _]].
    exists ns. split; [exact Hns|].
    apply (neighbors_members _ _ Hns).
    exists (edge_id e), e, (node_id nb). simpl.
    split; [|split; [apply get_set_eq|split; [exact Hnb|split; [auto|apply get_set_eq]]]].
    rewrite GraphFacts.get_or_setdefault_same. now apply link_all_in.
Qed.

(** ** [from_sources] *)

Lemma built_add_nodes l : forall g, built g -> built (fold_left add_node l g).
Proof.
  induction l as [|n l IH]; intros g H; simpl; [exact H|].
  apply IH. now constructor.
Qed.

Lemma built_add_hyperedges l : forall g, built g -> built (fold_left add_hyperedge l g).
Proof.
  induction l as [|e l IH]; intros g H; simpl; [exact H|].
  apply IH. now constructor.
Qed.

Lemma built_add_source g source : built g -> built (add_source g source).
Proof. intros H. now apply built_add_hyperedges, built_add_nodes. Qed.

Lemma built_add_sources sources : forall g,
  built g -> built (fold_left add_source sources g).
Proof.
  induction sources as [|s l IH]; intros g H; simpl; [exact H|].
  now apply IH, built_add_source.
Qed.

Lemma find_app (A : Type) (p : A -> bool) l1 l2 :
  find p (l1 ++ l2) =
  match find p l1 with Some x => Some x | None => find p l2 end.
Proof.
  induction l1 as [|a l1 IH]; simpl; [reflexivity|].
  destruct (p a); [reflexivity | exact IH].
Qed.

Lemma last_node_app k l1 l2 :
  last_node k (l1 ++ l2) =
  match last_node k l2 with Some n => Some n | None => last_node k l1 end.
Proof. unfold last_node. now rewrite rev_app_distr, find_app. Qed.

Lemma last_node_in k l n : last_node k l = Some n -> In n l /\ node_id n = k.
Proof.
  unfold last_node. intros H. apply find_some in H. destruct H as [Hin E].
  apply in_rev in Hin. apply String.eqb_eq in E. auto.
Qed.

Lemma nodes_add_nodes k l : forall g,
  get k (nodes (fold_left add_node l g)) =
  match last_node k l with Some n => Some n | None => get k (nodes g) end.
Proof.
  induction l as [|n l IH]; intros g.
  - reflexivity.
  - change (fold_left add_node (n :: l) g) with (fold_left add_node l (add_node g n)).
    rewrite IH. change (n :: l) with ([n] ++ l)%list. rewrite last_node_app.
    destruct (last_node k l); [reflexivity|].
    unfold last_node. simpl. rewrite get_set, String.eqb_sym.
    now destruct (String.eqb (node_id n) k).
Qed.

Lemma nodes_add_hyperedges l : forall g, nodes (fold_left add_hyperedge l g) = nodes g.
Proof. induction l as [|e l IH]; intros g; simpl; [reflexivity | now rewrite IH]. Qed.

Lemma nodes_add_sources k sources : forall g,
  get k (nodes (fold_left add_source sources g)) =
  match last_node k (flat_map source_nodes sources) with
  | Some n => Some n
  | None => get k (nodes g)
  end.
Proof.
  induction sources as [|s l IH]; intros g; simpl; [reflexivity|].
  rewrite IH, last_node_app. destruct (last_node k (flat_map source_nodes l));
    [reflexivity|].
  unfold add_source. now rewrite nodes_add_hyperedges, nodes_add_nodes.
Qed.

(** X5: [from_sources] builds its graph with [add_node] and [add_hyperedge]
    only; the node it stores under an id is the last node of that id in the
    sequence of the sources' nodes, so a later source overwrites an earlier
    one; every node of every source has its id registered, and every stored
    node is a node of a source. *)
Theorem from_sources_spec sources :
  built (from_sources sources) /\
  (forall k, get k (nodes (from_sources sources))
             = last_node k (flat_map source_nodes sources)) /\
  (forall s n, In s sources -> In n (source_nodes s) ->
               registered (from_sources sources) (node_id n)) /\
  (forall n, In n (all_nodes (from_sources sources)) ->
             exists s, In s sources /\ In n (source_nodes s)).
Proof.
  assert (Hget : forall k, get k (nodes (from_sources sources))
                           = last_node k (flat_map source_nodes sources)).
  { intros k. unfold from_sources. rewrite nodes_add_sources.
    now destruct (last_node k (flat_map source_nodes sources)). }
  assert (Hb : built (from_sources sources))
    by (apply built_add_sources; constructor).
  split; [exact Hb|]. split; [exact Hget|]. split.
  - intros s n Hs Hn. unfold registered, has. rewrite Hget.
    destruct (last_node (node_id n) (flat_map source_nodes sources)) eqn:E;
      [reflexivity|].
    exfalso. unfold last_node in E.
    assert (Hin : In n (rev (flat_map source_nodes sources))).
    { apply in_rev. rewrite rev_involutive. apply in_flat_map. now exists s. }
    pose proof (find_none _ _ E n Hin) as Hf. simpl in Hf.
    rewrite String.eqb_refl in Hf. discriminate.
  - intros n Hn.
    apply (in_all_nodes_iff n (built_consistent Hb) (built_tidy Hb)) in Hn.
    rewrite Hget in Hn. apply last_node_in in Hn. destruct Hn as [Hn _].
    apply in_flat_map in Hn. exact Hn.
Qed.

End StoreFacts.

(* ================================================================== *)
(** * The sources *)
(* ================================================================== *)

Module SourceFacts.

Import Py PyFacts Data DataFacts StoreFacts.

(** ** Graphs without dangling ids *)

Lemma registered_add_node g n k :
  registered g k \/ k = node_id n -> registered (add_node g n) k.
Proof.
  unfold registered. simpl. rewrite !has_iff, in_keys_set. tauto.
Qed.

Lemma registered_add_nodes l : forall g k,
  registered g k \/ In k (map node_id l) -> registered (fold_left add_node l g) k.
Proof.
  induction l as [|n l IH]; intros g k; simpl.
  - intros [H|[]]. exact H.
  - intros H. apply IH. destruct H as [H|[H|H]].
    + left. apply registered_add_node. now left.
    + left. apply registered_add_node. right. now symmetry.
    + now right.
Qed.

Lemma closed_add_node g n : closed g -> closed (add_node g n).
Proof.
  intros H e nid He Hn. apply registered_add_node. left. now apply (H e).
Qed.

Lemma closed_add_nodes l : forall g, closed g -> closed (fold_left add_node l g).
Proof.
  induction l as [|n l IH]; intros g H; simpl; [exact H|].
  now apply IH, closed_add_node.
Qed.

Lemma in_values_set (V : Type) k (v x : V) d :
  In x (values (set k v d)) -> x = v \/ In x (values d).
Proof.
  unfold values. rewrite !in_map_iff. intros [[k' x'] [E Hin]]. simpl in E. subst x'.
  apply in_set_inv in Hin. destruct Hin as [[_ ->]|Hin]; [now left|].
  right. exists (k', x). auto.
Qed.

Lemma closed_add_hyperedge g e :
  closed g -> (forall nid, In nid (node_ids e) -> registered g nid) ->
  closed (add_hyperedge g e).
Proof.
  intros H He e' nid Hin Hn. unfold all_edges in Hin. simpl in Hin.
  apply in_values_set in Hin. unfold registered. simpl.
  destruct Hin as [->|Hin]; [now apply He | now apply (H e')].
Qed.

Lemma closed_add_hyperedges l : forall g,
  closed g ->
  (forall e nid, In e l -> In nid (node_ids e) -> registered g nid) ->
  closed (fold_left add_hyperedge l g).
Proof.
  induction l as [|e l IH]; intros g H Hl; simpl; [exact H|].
  apply IH.
  - apply closed_add_hyperedge; [exact H|]. intros nid Hn.
    apply (Hl e); [now left | exact Hn].
  - intros e' nid He' Hn. unfold registered. simpl.
    apply (Hl e'); [now right | exact Hn].
Qed.

Lemma closed_add_source g source :
  closed g -> self_contained source -> closed (add_source g source).
Proof.
  intros H Hs. unfold add_source. apply closed_add_hyperedges.
  - now apply closed_add_nodes.
  - intros e nid He Hn. apply registered_add_nodes. right. now apply (Hs e).
Qed.

Lemma closed_add_sources sources : forall g,
  closed g -> (forall s, In s sources -> self_contained s) ->
  closed (fold_left add_source sources g).
Proof.
  induction sources as [|s l IH]; intros g H Hl; simpl; [exact H|].
  apply IH.
  - apply closed_add_source; [exact H | apply Hl; now left].
  - intros s' Hs'. apply Hl. now right.
Qed.

(** ** The topics of the papers *)

Lemma file_under_all pid t topics : forall d,
  get_or t [] (fold_left (Science.file_under pid) topics d) =
  (get_or t [] d ++ map (fun _ => pid) (filter (String.eqb t) topics))%list.
Proof.
  induction topics as [|t0 topics IH]; intros d; simpl.
  - now rewrite app_nil_r.
  - rewrite IH. unfold Science.file_under. rewrite get_or_set.
    destruct (String.eqb_spec t t0) as [->|Hne]; simpl.
    + now rewrite <- app_assoc.
    + reflexivity.
Qed.

Lemma topic_to_papers_from t papers : forall d,
  get_or t []
    (fold_left (fun d paper =>
                  fold_left (Science.file_under (Science.paper_id paper))
                            (Science.topics paper) d)
               papers d)
  = (get_or t [] d ++ listing t papers)%list.
Proof.
  unfold listing.
  induction papers as [|p papers IH]; intros d; simpl.
  - now rewrite app_nil_r.
  - now rewrite IH, file_under_all, <- app_assoc.
Qed.

(** The map of the first loop holds under each topic the ids of the papers
    that list it. *)
Lemma topic_to_papers_get t papers :
  get_or t [] (Science.topic_to_papers papers) = listing t papers.
Proof. unfold Science.topic_to_papers. now rewrite topic_to_papers_from. Qed.

Lemma file_under_filed pid topics : forall d,
  filed d -> filed (fold_left (Science.file_under pid) topics d).
Proof.
  induction topics as [|t topics IH]; intros d H; simpl; [exact H|].
  apply IH. destruct H as [Hnd Hne]. split.
  - now apply NoDup_keys_set.
  - intros t' ids Hin. apply in_set_inv in Hin.
    destruct Hin as [[_ ->]|Hin]; [|now apply (Hne t')].
    now destruct (get_or t [] d).
Qed.

Lemma topic_to_papers_filed papers : filed (Science.topic_to_papers papers).
Proof.
  unfold Science.topic_to_papers.
  assert (H0 : filed []) by (split; [constructor | intros ? ? []]).
  revert H0. generalize ([] : Dict (list string)).
  induction papers as [|p papers IH]; intros d H; simpl; [exact H|].
  now apply IH, file_under_filed.
Qed.

Lemma topic_entry_iff t ids papers :
  In (t, ids) (Science.topic_to_papers papers) <->
  ids = listing t papers /\ ids <> [].
Proof.
  destruct (topic_to_papers_filed papers) as [Hnd Hne].
  pose proof (topic_to_papers_get t papers) as Hget. unfold get_or in Hget.
  split.
  - intros Hin. split; [|now apply (Hne t)].
    apply in_get in Hin; [|exact Hnd]. now rewrite Hin in Hget.
  - intros [-> Hids].
    destruct (get t (Science.topic_to_papers papers)) as [ids|] eqn:E.
    + subst ids. now apply get_in.
    + congruence.
Qed.

Lemma in_listing t pid papers :
  In pid (listing t papers) <->
  exists paper, In paper papers /\ Science.paper_id paper = pid /\
                In t (Science.topics paper).
Proof.
  unfold listing. rewrite in_flat_map. split.
  - intros [p [Hp Hin]]. apply in_map_iff in Hin. destruct Hin as [t' [<- Hin]].
    apply filter_In in Hin. destruct Hin as [Hin E]. apply String.eqb_eq in E.
    subst t'. now exists p.
  - intros [p [Hp [<- Ht]]]. exists p. split; [exact Hp|].
    apply in_map_iff. exists t. split; [reflexivity|].
    apply filter_In. split; [exact Ht | apply String.eqb_refl].
Qed.

Lemma prepend_inj (p a b : string) : (p ++ a)%string = (p ++ b)%string -> a = b.
Proof. induction p as [|c p IH]; simpl; [auto | intros [= H]; auto]. Qed.

(** X6: the hyperedges of the papers source, for any list of papers.  There
    is one edge for each topic that at least two entries list, with the id
    [topic:] and the topic, and it connects the ids of the papers that list
    the topic, in the order of the papers; no two edges share an id, and
    every id an edge lists is the id of a node of the source. *)
Theorem science_hyperedges_spec papers :
  (forall e,
      In e (Science.hyperedges papers) <->
      exists topic,
        (2 <= List.length (listing topic papers))%nat /\
        e = {| edge_id := "topic:" ++ topic; relation := "shares-topic";
               node_ids := listing topic papers; weight := 1%R |}) /\
  (forall topic pid,
      In pid (listing topic papers) <->
      exists paper, In paper papers /\ Science.paper_id paper = pid /\
                    In topic (Science.topics paper)) /\
  NoDup (map edge_id (Science.hyperedges papers)) /\
  self_contained (Science.source papers).
Proof.
  assert (Hedges : forall e,
      In e (Science.hyperedges papers) <->
      exists topic,
        (2 <= List.length (listing topic papers))%nat /\
        e = {| edge_id := "topic:" ++ topic; relation := "shares-topic";
               node_ids := listing topic papers; weight := 1%R |}).
  { intros e. unfold Science.hyperedges. rewrite in_map_iff. split.
    - intros [[t ids] [<- Hin]]. apply filter_In in Hin. destruct Hin as [Hin Hlen].
      apply topic_entry_iff in Hin. destruct Hin as [-> _]. simpl in *.
      apply Nat.ltb_lt in Hlen. exists t. split; [lia | reflexivity].
    - intros [t [Hlen ->]]. exists (t, listing t papers). split; [reflexivity|].
      apply filter_In. split.
      + apply topic_entry_iff. split; [reflexivity|].
        destruct (listing t papers); [simpl in Hlen; lia | discriminate].
      + simpl. apply Nat.ltb_lt. lia. }
  split; [exact Hedges|]. split; [intros t pid; apply in_listing|]. split.
  - unfold Science.hyperedges. rewrite map_map. simpl.
    destruct (topic_to_papers_filed papers) as [Hnd _].
    assert (Hf : NoDup (keys (filter (fun entry : string * list string =>
                                        (1 <? List.length (snd entry))%nat)
                                     (Science.topic_to_papers papers)))).
    { unfold keys in *. clear Hedges.
      induction (Science.topic_to_papers papers) as [|[t ids] d IH]; simpl;
        [constructor|].
      inversion Hnd as [|? ? Hout Hnd']; subst.
      destruct (1 <? List.length ids)%nat; simpl; [|now apply IH].
      constructor; [|now apply IH].
      intros Hin. apply Hout. apply in_map_iff in Hin.
      destruct Hin as [x [E Hx]]. apply filter_In in Hx.
      apply in_map_iff. exists x. tauto. }
    unfold keys in Hf. revert Hf.
    generalize (filter (fun entry : string * list string =>
                          (1 <? List.length (snd entry))%nat)
                       (Science.topic_to_papers papers)).
    intros l Hl. induction l as [|[t ids] l IH]; simpl; [constructor|].
    inversion Hl as [|? ? Hout Hl']; subst. constructor; [|now apply IH].
    intros Hin. apply Hout. apply in_map_iff in Hin.
    destruct Hin as [[t' ids'] [E Hx]]. simpl in E.
    apply prepend_inj with (p := "topic:"%string) in E. subst t'.
    apply in_map_iff. exists (t, ids'). auto.
  - intros e nid He Hn. simpl in He. apply Hedges in He.
    destruct He as [t [_ ->]]. simpl in Hn. apply in_listing in Hn.
    destruct Hn as [p [Hp [<- _]]]. simpl. unfold Science.nodes.
    rewrite map_map. simpl. now apply in_map.
Qed.

(** X7: graphs without dangling ids.  When every source lists in its edges
    only ids of its own nodes, no edge of the graph [from_sources] builds
    lists an id that is not registered; the papers source and the web
    source are such sources, whatever their entries; and every edge of the
    web source lists the one id of its snippet. *)
Theorem sources_closed :
  (forall sources,
      (forall s, In s sources -> self_contained s) ->
      closed (from_sources sources)) /\
  (forall papers, self_contained (Science.source papers)) /\
  (forall snippets,
      self_contained (WebSnippets.source snippets) /\
      forall e, In e (WebSnippets.hyperedges snippets) ->
                exists snippet,
                  In snippet snippets /\
                  node_ids e = [WebSnippets.snippet_id snippet]) /\
  (forall papers snippets,
      closed (from_sources [Science.source papers; WebSnippets.source snippets])).
Proof.
  assert (H1 : forall sources,
             (forall s, In s sources -> self_contained s) ->
             closed (from_sources sources)).
  { intros sources H. apply closed_add_sources; [|exact H].
    intros e nid []. }
  assert (H2 : forall papers, self_contained (Science.source papers)).
  { intros papers e nid He Hn. simpl in He.
    unfold Science.hyperedges in He. apply in_map_iff in He.
    destruct He as [[t ids] [<- Hin]]. apply filter_In in Hin.
    destruct Hin as [Hin _]. apply topic_entry_iff in Hin. destruct Hin as [-> _].
    simpl in Hn. apply in_listing in Hn. destruct Hn as [p [Hp [<- _]]].
    simpl. unfold Science.nodes. rewrite map_map. simpl. now apply in_map. }
  assert (H3 : forall snippets, self_contained (WebSnippets.source snippets)).
  { intros snippets e nid He Hn. simpl in He.
    unfold WebSnippets.hyperedges in He. apply in_map_iff in He.
    destruct He as [sn [<- Hin]]. simpl in Hn. destruct Hn as [<-|[]].
    simpl. unfold WebSnippets.nodes. rewrite map_map. simpl. now apply in_map. }
  split; [exact H1|]. split; [exact H2|]. split.
  - intros snippets. split; [apply H3|].
    intros e He. unfold WebSnippets.hyperedges in He. apply in_map_iff in He.
    destruct He as [sn [<- Hin]]. now exists sn.
  - intros papers snippets. apply H1.
    intros s [<-|[<-|[]]]; [apply H2 | apply H3].
Qed.

End SourceFacts.

(* ================================================================== *)
(** * What every strategy returns *)
(* ================================================================== *)

Module ResultFacts.

Import Py PyFacts Data DataFacts StoreFacts.
Local Open Scope R_scope.

(** ** Ranked and cut *)

Lemma rank_fusion_shape weights lists limit r :
  Hybrid.rank_fusion weights lists limit = Some r ->
  exists merged, r = slice_to (sort_desc score merged) limit.
Proof.
  unfold Hybrid.rank_fusion. destruct (Hybrid.fuse weights lists) as [sbn no].
  destruct (Hybrid.merge no sbn) as [merged|]; [|discriminate].
  intros [= <-]. now exists merged.
Qed.

(** Whatever the strategy, the list returned is a list in descending order
    of the scores, cut by [limit]. *)
Lemma search_shape s g query limit r s' :
  search s g query limit = Some (r, s') ->
  exists full, r = slice_to full limit /\ descending score full.
Proof.
  destruct s as [idf|d| |subs w]; simpl.
  - intros [= <- _]. eexists. split; [reflexivity|].
    apply descending_filter, sort_desc_sorted.
  - unfold GraphTraversal.search.
    destruct (GraphTraversal.walk _ _ _ _) as [p|]; [|discriminate].
    destruct (GraphTraversal.collect _ _) as [rs|]; [|discriminate]. simpl.
    intros [= <- _]. eexists. split; [reflexivity | apply sort_desc_sorted].
  - intros [= <- _]. eexists. split; [reflexivity | apply sort_desc_sorted].
  - destruct (run_all _ subs []) as [ran|]; [|discriminate].
    destruct (Hybrid.rank_fusion w (fst ran) limit) as [m|] eqn:E; [|discriminate].
    intros [= <- _]. destruct (rank_fusion_shape _ _ _ E) as [merged ->].
    eexists. split; [reflexivity | apply sort_desc_sorted].
Qed.

Lemma slice_to_length (A : Type) (l : list A) k :
  (0 <= k)%Z -> (List.length (slice_to l k) <= Z.to_nat k)%nat.
Proof.
  intros H. rewrite (slice_to_nonneg l H), length_firstn. lia.
Qed.

Lemma slice_to_negative (A : Type) (l : list A) k :
  (k < 0)%Z ->
  List.length (slice_to l k) = (List.length l - Z.to_nat (- k))%nat.
Proof.
  intros H. unfold slice_to. destruct (Z.leb_spec 0 k); [lia|].
  rewrite length_firstn. lia.
Qed.

(** A strategy that is not a hybrid has one ranking, whatever the [limit]:
    once a call has returned, every call returns, with the slice of that
    ranking for its [limit] and the same object. *)
Lemma search_ranking s g query limit r s' :
  plain s = true ->
  search s g query limit = Some (r, s') ->
  exists ranking,
    descending score ranking /\
    forall limit', search s g query limit' = Some (slice_to ranking limit', s').
Proof.
  destruct s as [idf|d| |subs w]; simpl; intros Hp; [| | |discriminate].
  - intros [= _ <-]. eexists. split; [|intros limit'; reflexivity].
    apply descending_filter, sort_desc_sorted.
  - unfold GraphTraversal.search.
    destruct (GraphTraversal.walk _ _ _ _) as [p|]; [|discriminate]. simpl.
    destruct (GraphTraversal.collect _ _) as [rs|]; [|discriminate]. simpl.
    intros [= _ <-]. exists (sort_desc score rs).
    split; [apply sort_desc_sorted | intros limit'; reflexivity].
  - intros [= _ <-]. eexists. split; [|intros limit'; reflexivity].
    apply sort_desc_sorted.
Qed.

(** X8: the common contract of [search].  Whatever the strategy, the graph
    and the query, the scores of the list returned never increase along the
    list; with a [limit] that is not negative the list has at most [limit]
    results, none with [limit] 0.  A strategy other than a hybrid has one
    ranking for all the limits: once a call has returned, the call with any
    [limit'] returns the first [limit'] results of that ranking when
    [limit'] is not negative, and for a negative [limit'] it does not raise
    but returns the ranking without its last [- limit'] results. *)
Theorem search_ranked_and_cut s g query limit r s' :
  search s g query limit = Some (r, s') ->
  descending score r /\
  ((0 <= limit)%Z -> (List.length r <= Z.to_nat limit)%nat) /\
  (limit = 0%Z -> r = []) /\
  (plain s = true ->
   exists ranking,
     descending score ranking /\
     forall limit',
     exists cut,
       search s g query limit' = Some (cut, s') /\
       ((0 <= limit')%Z -> cut = firstn (Z.to_nat limit') ranking) /\
       ((limit' < 0)%Z ->
        cut = firstn (List.length ranking - Z.to_nat (- limit')) ranking /\
        List.length cut = (List.length ranking - Z.to_nat (- limit'))%nat)).
Proof.
  intros H. pose proof H as H0.
  destruct (search_shape _ _ _ _ H) as [full [-> Hfull]].
  split; [now apply descending_slice_to|]. split; [apply slice_to_length|]. split.
  - intros ->. reflexivity.
  - intros Hp. destruct (search_ranking _ _ _ _ Hp H0) as [ranking [Hd Hall]].
    exists ranking. split; [exact Hd|]. intros limit'.
    exists (slice_to ranking limit'). split; [apply Hall|]. split.
    + intros Hl. now apply slice_to_nonneg.
    + intros Hl. split; [|now apply slice_to_negative].
      unfold slice_to. destruct (Z.leb_spec 0 limit'); [lia | reflexivity].
Qed.

(** ** Nodes of the graph, each once *)

Lemma NoDup_firstn (A : Type) n : forall l : list A, NoDup l -> NoDup (firstn n l).
Proof.
  induction n as [|n IH]; intros [|x l] H; simpl; try constructor.
  - inversion H; subst. intros Hin. apply in_firstn in Hin. contradiction.
  - inversion H; subst. now apply IH.
Qed.

Lemma NoDup_map_filter (A B : Type) (f : A -> B) (p : A -> bool) l :
  NoDup (map f l) -> NoDup (map f (filter p l)).
Proof.
  induction l as [|x l IH]; simpl; intros H; [constructor|].
  inversion H; subst. destruct (p x); simpl; [|now apply IH].
  constructor; [|now apply IH].
  intros Hin. apply in_map_iff in Hin. destruct Hin as [y [E Hy]].
  apply filter_In in Hy. match goal with Hn : ~ In _ _ |- _ => apply Hn end.
  rewrite <- E. apply in_map, Hy.
Qed.

Lemma NoDup_slice_to (A B : Type) (f : A -> B) (l : list A) k :
  NoDup (map f l) -> NoDup (map f (slice_to l k)).
Proof.
  intros H. unfold slice_to.
  destruct (0 <=? k)%Z; rewrite <- firstn_map; now apply NoDup_firstn.
Qed.

Lemma NoDup_sort_desc (A B : Type) (f : A -> B) (key : A -> R) l :
  NoDup (map f l) -> NoDup (map f (sort_desc key l)).
Proof.
  apply Permutation_NoDup, Permutation_map, Permutation_sym, sort_desc_perm.
Qed.

(** The results built from the combined map are the nodes stored under its
    keys, in its order. *)
Lemma collect_ids g : forall combined rs,
  consistent g ->
  GraphTraversal.collect g combined = Some rs ->
  map (fun r => node_id (node r)) rs = keys combined /\
  forall r, In r rs ->
    In (node r) (all_nodes g) /\ strategy r = GraphTraversal.name.
Proof.
  intros combined rs Hg. revert rs.
  induction combined as [|[k sc] combined IH]; simpl; intros rs.
  - intros [= <-]. split; [reflexivity | intros r []].
  - destruct (get k (nodes g)) as [n|] eqn:En; [|discriminate]. simpl.
    destruct (GraphTraversal.collect g combined) as [rs'|]; [|discriminate].
    intros [= <-]. destruct (IH rs' eq_refl) as [Hids Hin]. split.
    + simpl. rewrite Hids. f_equal. apply (proj1 Hg), get_in, En.
    + intros r [<-|Hr]; [|now apply Hin].
      split; [apply (get_all_nodes _ _ En) | reflexivity].
Qed.

(** Every list stored by the first loop of the hybrid was returned by one of
    the constituents. *)
Lemma run_all_from (f : Strategy -> option (list SearchResult * Strategy)) subs :
  forall acc ran,
    run_all f subs acc = Some ran ->
    forall k v, In (k, v) (fst ran) ->
      In (k, v) acc \/ exists s out, In s subs /\ f s = Some out /\ v = fst out.
Proof.
  induction subs as [|s subs IH]; intros acc ran; simpl.
  - intros [= <-] k v H. now left.
  - destruct (f s) as [rs|] eqn:Es; [|discriminate]. simpl.
    destruct (run_all f subs _) as [rest|] eqn:Er; [|discriminate]. simpl.
    intros [= <-] k v H. simpl in H.
    destruct (IH _ _ Er k v H) as [Hin|[s' [out [Hs' [Hf Hv]]]]].
    + apply in_set_inv in Hin. destruct Hin as [[_ ->]|Hin]; [|now left].
      right. exists s, rs. auto.
    + right. exists s', out. auto.
Qed.

Lemma fuse_list_nodes weight ranked : forall st k n,
  In (k, n) (snd (fold_left (Hybrid.fuse_one weight) ranked st)) ->
  In (k, n) (snd st) \/ exists r, In r (map snd ranked) /\ node r = n.
Proof.
  induction ranked as [|[rank r] ranked IH]; intros [sbn no] k n; simpl.
  - now left.
  - intros H. apply IH in H. destruct H as [H|[r' [Hr' E]]].
    + simpl in H. apply in_set_inv in H. destruct H as [[_ ->]|H]; [|now left].
      right. exists r. auto.
    + right. exists r'. auto.
Qed.

(** Every node the fusion keeps is the node of a result of one of the
    lists. *)
Lemma fuse_nodes weights lists k n :
  In (k, n) (snd (Hybrid.fuse weights lists)) ->
  exists entry r, In entry lists /\ In r (snd entry) /\ node r = n.
Proof.
  unfold Hybrid.fuse.
  assert (G : forall st,
    In (k, n)
       (snd (fold_left
               (fun st entry =>
                  fold_left (Hybrid.fuse_one (get_or (fst entry) 1 weights))
                            (enumerate 1 (snd entry)) st)
               lists st)) ->
    In (k, n) (snd st) \/
    exists entry r, In entry lists /\ In r (snd entry) /\ node r = n).
  { induction lists as [|entry lists IH]; intros st; simpl; [now left|].
    intros H. apply IH in H. destruct H as [H|[e [r [He [Hr E]]]]].
    - apply fuse_list_nodes in H. destruct H as [H|[r [Hr E]]]; [now left|].
      rewrite HybridFacts.enumerate_snd in Hr. right. exists entry, r. auto.
    - right. exists e, r. auto. }
  intros H. destruct (G _ H) as [[]|H']. exact H'.
Qed.

Lemma merge_nodes node_obj : forall score_by_node merged,
  Hybrid.merge node_obj score_by_node = Some merged ->
  forall m, In m merged ->
    get (node_id (node m)) node_obj = Some (node m) \/
    exists k, get k node_obj = Some (node m).
Proof.
  induction score_by_node as [|[k sc] d IH]; simpl; intros merged.
  - intros [= <-] m [].
  - destruct (get k node_obj) as [n|] eqn:En; [|discriminate]. simpl.
    destruct (Hybrid.merge node_obj d) as [rs|]; [|discriminate].
    intros [= <-] m [<-|Hm]; [|now apply (IH rs)].
    right. now exists k.
Qed.

(** The nodes a strategy returns are nodes of the graph. *)
Lemma search_nodes g s :
  consistent g ->
  forall query limit r s',
    search s g query limit = Some (r, s') ->
    forall x, In x r -> In (node x) (all_nodes g).
Proof.
  intros Hg. induction s as [idf|d| |subs w IH] using Strategy_ind;
    intros query limit r s'; simpl.
  - intros [= <- _] x Hx.
    apply in_slice_to, filter_In, proj1, in_sort_desc, in_map_iff in Hx.
    destruct Hx as [n [<- Hn]]. exact Hn.
  - unfold GraphTraversal.search.
    destruct (GraphTraversal.walk _ _ _ _) as [p|]; [|discriminate]. simpl.
    destruct (GraphTraversal.collect _ _) as [rs|] eqn:Ec; [|discriminate]. simpl.
    intros [= <- _] x Hx. apply in_slice_to, in_sort_desc in Hx.
    now apply (proj2 (collect_ids _ Hg Ec)).
  - intros [= <- _] x Hx. now apply OntologyFacts.search_result_inv in Hx.
  - destruct (run_all _ subs []) as [ran|] eqn:Er; [|discriminate]. simpl.
    unfold Hybrid.rank_fusion.
    destruct (Hybrid.fuse w (fst ran)) as [sbn no] eqn:Ef.
    destruct (Hybrid.merge no sbn) as [merged|] eqn:Em; [|discriminate]. simpl.
    intros [= <- _] x Hx. apply in_slice_to, in_sort_desc in Hx.
    assert (Hk : exists k, get k no = Some (node x)).
    { destruct (merge_nodes _ _ Em x Hx) as [H|H]; [eexists; exact H | exact H]. }
    destruct Hk as [k Hk]. apply get_in in Hk.
    assert (Hno : no = snd (Hybrid.fuse w (fst ran))) by now rewrite Ef.
    rewrite Hno in Hk. apply fuse_nodes in Hk.
    destruct Hk as [[key rs] [y [He [Hy <-]]]].
    destruct (run_all_from _ _ _ Er key rs He) as [[]|[s [out [Hs [Hf ->]]]]].
    rewrite Forall_forall in IH. destruct out as [res s1].
    apply (IH s Hs query limit res s1 Hf y Hy).
Qed.

(** The results of a strategy carry distinct node ids. *)
Lemma search_distinct g s query limit r s' :
  consistent g -> tidy g ->
  search s g query limit = Some (r, s') ->
  NoDup (map (fun x => node_id (node x)) r).
Proof.
  intros Hg Ht.
  assert (Hnodes : NoDup (map node_id (all_nodes g)))
    by (rewrite all_nodes_ids by exact Hg; apply Ht).
  destruct s as [idf|d| |subs w]; simpl.
  - intros [= <- _]. apply NoDup_slice_to, NoDup_map_filter, NoDup_sort_desc.
    rewrite map_map. exact Hnodes.
  - unfold GraphTraversal.search.
    destruct (GraphTraversal.walk _ _ _ _) as [p|]; [|discriminate]. simpl.
    destruct (GraphTraversal.collect _ _) as [rs|] eqn:Ec; [|discriminate]. simpl.
    intros [= <- _]. apply NoDup_slice_to, NoDup_sort_desc.
    rewrite (proj1 (collect_ids _ Hg Ec)). apply GraphFacts.combine_NoDup.
  - intros [= <- _]. unfold OntologyLens.search.
    apply NoDup_slice_to, NoDup_sort_desc.
    rewrite OntologyFacts.matched_fold. simpl. rewrite map_map. simpl.
    apply NoDup_map_filter, Hnodes.
  - destruct (run_all _ subs []) as [ran|]; [|discriminate]. simpl.
    destruct (HybridFacts.rank_fusion_total w (fst ran) limit)
      as [merged [-> [Hnd _]]].
    intros [= <- _]. now apply NoDup_slice_to, NoDup_sort_desc.
Qed.

(** Every result carries the name of the strategy that returned it. *)
Lemma search_label g s query limit r s' :
  search s g query limit = Some (r, s') ->
  forall x, In x r -> strategy x = name s.
Proof.
  destruct s as [idf|d| |subs w]; simpl.
  - intros [= <- _] x Hx.
    apply in_slice_to, filter_In, proj1, in_sort_desc, in_map_iff in Hx.
    destruct Hx as [n [<- _]]. reflexivity.
  - unfold GraphTraversal.search.
    destruct (GraphTraversal.walk _ _ _ _) as [p|]; [|discriminate]. simpl.
    destruct (GraphTraversal.collect _ _) as [rs|] eqn:Ec; [|discriminate]. simpl.
    intros [= <- _] x Hx. apply in_slice_to, in_sort_desc in Hx.
    revert rs Ec x Hx.
    generalize (GraphTraversal.combine
                  (GraphTraversal.base_scores g (GraphTraversal.keywords query)) p).
    intros c. induction c as [|[k sc] c IH]; simpl; intros rs.
    + intros [= <-] x [].
    + destruct (get k (nodes g)); [|discriminate]. simpl.
      destruct (GraphTraversal.collect g c) as [rs'|]; [|discriminate].
      intros [= <-] x [<-|Hx]; [reflexivity | now apply (IH rs')].
  - intros [= <- _] x Hx. unfold OntologyLens.search in Hx.
    apply in_slice_to, in_sort_desc in Hx.
    rewrite OntologyFacts.matched_fold in Hx. simpl in Hx.
    apply in_map_iff in Hx. destruct Hx as [n [<- _]]. reflexivity.
  - destruct (run_all _ subs []) as [ran|]; [|discriminate]. simpl.
    destruct (HybridFacts.rank_fusion_total w (fst ran) limit)
      as [merged [-> [_ [Hm _]]]].
    intros [= <- _] x Hx. apply in_slice_to, in_sort_desc in Hx.
    now apply Hm.
Qed.

(** X9: what a result is.  On a graph built by [add_node] and
    [add_hyperedge] every strategy, a hybrid of hybrids included, returns;
    each result holds a node of [all_nodes()], that is the node the graph
    stores under the result's id; no two results of a list have the same
    node id; and each result carries the name of the strategy that was
    called. *)
Theorem search_results_wellformed g s query limit :
  built g ->
  exists r s',
    search s g query limit = Some (r, s') /\
    NoDup (map (fun x => node_id (node x)) r) /\
    forall x, In x r ->
      In (node x) (all_nodes g) /\
      get (node_id (node x)) (nodes g) = Some (node x) /\
      strategy x = name s.
Proof.
  intros Hb. pose proof (built_consistent Hb) as Hg.
  pose proof (built_tidy Hb) as Ht.
  destruct (HybridFacts.search_total Hg s query limit) as [[r s'] H].
  exists r, s'. split; [exact H|].
  split; [apply (@search_distinct g s query limit r s' Hg Ht H)|].
  intros x Hx. pose proof (@search_nodes g s Hg query limit r s' H x Hx) as Hn.
  split; [exact Hn|].
  split; [now apply in_all_nodes_iff | apply (@search_label g s query limit r s' H x Hx)].
Qed.

(** ** A query without a word *)

Lemma blank_split_run q : blank q = true -> split_run EmptyString q = [].
Proof.
  induction q as [|c q IH]; simpl; [reflexivity|].
  intros H. apply andb_true_iff in H. destruct H as [-> H]. simpl. now apply IH.
Qed.

Lemma blank_lstrip q : blank q = true -> lstrip q = EmptyString.
Proof.
  induction q as [|c q IH]; simpl; [reflexivity|].
  intros H. apply andb_true_iff in H. destruct H as [-> H]. now apply IH.
Qed.

Lemma blank_no_and c q :
  isspace c = true -> blank q = true -> prefix " and " (String c q) = false.
Proof.
  intros Hc Hq.
  change (prefix " and " (String c q))
    with (if ascii_dec " " c then prefix "and " q else false).
  destruct (ascii_dec " " c) as [<-|]; [|reflexivity].
  destruct q as [|d q]; [reflexivity|]. simpl in Hq.
  apply andb_true_iff in Hq. destruct Hq as [Hd _].
  change (prefix "and " (String d q))
    with (if ascii_dec "a" d then prefix "nd " q else false).
  destruct (ascii_dec "a" d) as [<-|]; [discriminate | reflexivity].
Qed.

Lemma blank_split_sep q : forall cur,
  blank q = true -> split_sep_from " and " 0 cur q = [(cur ++ q)%string].
Proof.
  induction q as [|c q IH]; intros cur Hq.
  - simpl. f_equal. clear. induction cur as [|a cur IH]; simpl; congruence.
  - pose proof Hq as Hq'. simpl in Hq'. apply andb_true_iff in Hq'.
    destruct Hq' as [Hc Hq'].
    change (split_sep_from " and " 0 cur (String c q))
      with (if prefix " and " (String c q)
            then cur :: split_sep_from " and " (String.length " and " - 1) EmptyString q
            else split_sep_from " and " 0 (cur ++ String c EmptyString)%string q).
    rewrite (@blank_no_and c q Hc Hq'), (IH _ Hq'). f_equal.
    clear. induction cur as [|a cur IH]; simpl; congruence.
Qed.

Lemma blank_tokens q : blank q = true -> Vector._tokenize q = [].
Proof.
  intros H. unfold Vector._tokenize, split. now rewrite blank_split_run.
Qed.

Lemma blank_keywords q : blank q = true -> GraphTraversal.keywords q = [].
Proof.
  intros H. unfold GraphTraversal.keywords, split. now rewrite blank_split_run.
Qed.

Lemma blank_filters q : blank q = true -> OntologyLens.filters q = [].
Proof.
  intros H. unfold OntologyLens.filters, split_sep.
  rewrite (@blank_split_sep q EmptyString H). simpl.
  unfold strip. now rewrite (@blank_lstrip q H).
Qed.

Lemma slice_to_nil (A : Type) k : slice_to (@nil A) k = [].
Proof. unfold slice_to. destruct (0 <=? k)%Z; apply firstn_nil. Qed.

Lemma filter_none (A : Type) (p : A -> bool) l :
  (forall x, In x l -> p x = false) -> filter p l = [].
Proof.
  induction l as [|x l IH]; simpl; intros H; [reflexivity|].
  rewrite (H x (or_introl eq_refl)). apply IH. intros y Hy. apply H. now right.
Qed.

Lemma vector_blank idf g q limit :
  blank q = true -> fst (Vector.search idf g q limit) = [].
Proof.
  intros H. unfold Vector.search. cbv zeta. cbn [fst].
  rewrite (@blank_tokens q H), filter_none; [apply slice_to_nil|].
  intros x Hx. apply in_sort_desc, in_map_iff in Hx. destruct Hx as [n [<- _]].
  unfold Vector._score. simpl. destruct (Rlt_dec 0 0) as [Hlt|]; [lra | reflexivity].
Qed.

Lemma base_scores_no_keyword g : GraphTraversal.base_scores g [] = [].
Proof.
  unfold GraphTraversal.base_scores. generalize (@nil (string * R)).
  induction (all_nodes g) as [|n l IH]; intros acc; simpl; [reflexivity | apply IH].
Qed.

Lemma walk_nothing g depth : forall propagation,
  GraphTraversal.walk g depth propagation [] = Some propagation.
Proof. induction depth as [|d IH]; intros p; simpl; [reflexivity | apply IH]. Qed.

Lemma graph_blank d g q limit :
  blank q = true -> GraphTraversal.search d g q limit = Some [].
Proof.
  intros H. unfold GraphTraversal.search.
  rewrite (@blank_keywords q H), base_scores_no_keyword, walk_nothing. simpl.
  now rewrite slice_to_nil.
Qed.

Lemma ontology_blank g q limit :
  blank q = true -> OntologyLens.search g q limit = [].
Proof.
  intros H. unfold OntologyLens.search. rewrite (@blank_filters q H).
  rewrite OntologyFacts.matched_fold, filter_none; [apply slice_to_nil|].
  intros n _. reflexivity.
Qed.

(** Lists without a result fuse into nothing. *)
Lemma fuse_nothing weights lists :
  (forall entry, In entry lists -> snd entry = []) ->
  Hybrid.fuse weights lists = ([], []).
Proof.
  unfold Hybrid.fuse. generalize (@nil (string * R), @nil (string * Node)).
  induction lists as [|entry lists IH]; intros st H; simpl; [reflexivity|].
  rewrite (H entry (or_introl eq_refl)). simpl. apply IH.
  intros e He. apply H. now right.
Qed.

Lemma rank_fusion_nothing weights lists limit :
  (forall entry, In entry lists -> snd entry = []) ->
  Hybrid.rank_fusion weights lists limit = Some [].
Proof.
  intros H. unfold Hybrid.rank_fusion. rewrite (@fuse_nothing weights lists H). simpl.
  now rewrite slice_to_nil.
Qed.

(** X10: a query that is empty or has whitespace only finds nothing.  On
    any graph, consistent or not, every strategy, a hybrid included,
    returns the empty list for it, whatever the [limit]; no lookup is made
    that could fail. *)
Theorem blank_query_finds_nothing s g query limit :
  blank query = true ->
  exists s', search s g query limit = Some ([], s') /\ name s' = name s.
Proof.
  intros Hq. revert limit.
  induction s as [idf|d| |subs w IH] using Strategy_ind; intros limit.
  - rewrite StrategyFacts.search_vector, (@vector_blank idf g query limit Hq).
    eexists. split; reflexivity.
  - simpl. rewrite (@graph_blank d g query limit Hq). simpl.
    eexists. split; reflexivity.
  - simpl. rewrite (@ontology_blank g query limit Hq). eexists. split; reflexivity.
  - assert (Houts : exists outs,
               Forall2 (fun s out => search s g query limit = Some out) subs outs /\
               forall out, In out outs -> fst out = []).
    { induction IH as [|s subs Hs _ IHsubs].
      - exists []. split; [constructor | intros out []].
      - destruct (Hs limit) as [s' [Hs' _]]. destruct IHsubs as [outs [Houts Hnil]].
        exists (([], s') :: outs). split; [now constructor|].
        intros out [<-|Hout]; [reflexivity | now apply Hnil]. }
    destruct Houts as [outs [Houts Hnil]].
    pose proof (HybridFacts.run_all_stored _ [] Houts) as Hrun.
    simpl. rewrite Hrun. simpl. rewrite rank_fusion_nothing.
    + simpl. eexists. split; reflexivity.
    + intros [k v] He. simpl.
      destruct (run_all_from _ _ _ Hrun k v He) as [[]|[s [out [Hs [Hf ->]]]]].
      apply Hnil. clear - Houts Hs Hf.
      induction Houts as [|s0 out0 subs outs H0 _ IHo]; [destruct Hs|].
      destruct Hs as [->|Hs]; [left; congruence | right; now apply IHo].
Qed.

End ResultFacts.

(* ================================================================== *)
(** * How far the Graph-Traversal search reaches *)
(* ================================================================== *)

Module ReachFacts.

Import Py PyFacts Data DataFacts StoreFacts GraphFacts.
Local Open Scope R_scope.

(** ** Hops that push nothing *)

Lemma spread_faded g x frontier :
  consistent g ->
  (forall k v, In (k, v) frontier -> v = x) ->
  ~ 0.01 < x * 0.6 ->
  spread g frontier = Some [].
Proof.
  intros Hg Hx Hlow. induction frontier as [|[nid sc] frontier IH]; simpl.
  - reflexivity.
  - destruct (neighbors_total nid Hg) as [ns [-> _]].
    rewrite IH by (intros k v H; apply (Hx k v); now right). simpl.
    rewrite (Hx nid sc) by now left.
    unfold spread1. destruct (Rlt_dec 0.01 (x * 0.6)); [contradiction | reflexivity].
Qed.

Lemma hops_nothing g k : hops g k [] = Some (repeat [] k).
Proof. induction k as [|k IH]; simpl; [|rewrite IH]; reflexivity. Qed.

Lemma concat_nothing (A : Type) k : List.concat (repeat (@nil A) k) = [].
Proof. induction k as [|k IH]; simpl; auto. Qed.

(** Once what a hop would push is not above 0.01, that hop and all those
    after it push nothing. *)
Lemma hops_fade g :
  consistent g ->
  forall n frontier x,
    (forall k v, In (k, v) frontier -> v = x) ->
    x * 0.6 ^ S n <= 0.01 ->
    forall k,
    exists hs,
      hops g n frontier = Some hs /\
      hops g (n + k) frontier = Some (hs ++ repeat [] k)%list.
Proof.
  intros Hg. induction n as [|n IH]; intros frontier x Hx Hlow k.
  - exists []. split; [reflexivity|]. simpl.
    destruct k as [|k]; [reflexivity|]. simpl.
    rewrite (@spread_faded g x frontier Hg Hx) by (simpl in Hlow; lra).
    simpl. now rewrite hops_nothing.
  - destruct (spread_total frontier Hg) as [next [Hnext _]].
    assert (Hv : forall k v, In (k, v) next -> v = x * 0.6).
    { intros k' v' H. now destruct (spread_values _ _ Hx Hnext _ _ H). }
    assert (Hlow' : x * 0.6 * 0.6 ^ S n <= 0.01).
    { replace (x * 0.6 * 0.6 ^ S n) with (x * 0.6 ^ S (S n)) by (simpl; ring).
      exact Hlow. }
    destruct (IH next (x * 0.6) Hv Hlow' k) as [hs [H1 H2]].
    exists (next :: hs). simpl. rewrite Hnext. simpl. rewrite H1, H2. auto.
Qed.

(** X11: the propagation reaches nine hops at most.  A seed pushes
    [0.6 ^ j] at the hop [j], which is above 0.01 up to [j = 9] only, so on a
    graph built by [add_node] and [add_hyperedge] a [walk_depth] of 9 or
    more returns exactly what a [walk_depth] of 9 returns. *)
Theorem graph_depth_cap g walk_depth query limit :
  built g ->
  (9 <= walk_depth)%Z ->
  0.6 ^ 10 <= 0.01 < 0.6 ^ 9 /\
  exists results,
    GraphTraversal.search 9 g query limit = Some results /\
    GraphTraversal.search walk_depth g query limit = Some results.
Proof.
  intros Hb Hd. apply built_consistent in Hb.
  split; [simpl; lra|].
  destruct (search_run 9 query limit Hb)
    as [hs [results [Hhs [_ [Hwalk [_ [Hcollect [Hsearch _]]]]]]]].
  exists (slice_to (sort_desc score results) limit). split; [exact Hsearch|].
  set (base := GraphTraversal.base_scores g (GraphTraversal.keywords query)) in *.
  assert (H1 : forall k v, In (k, v) base -> v = 1)
    by (intros k v; apply base_scores_one).
  assert (Hlow : 1 * 0.6 ^ 10 <= 0.01) by (simpl; lra).
  destruct (@hops_fade g Hb 9%nat base 1 H1 Hlow (Z.to_nat walk_depth - 9))
    as [hs' [Hhs' Hmore]].
  change (Z.to_nat 9) with 9%nat in Hhs. rewrite Hhs in Hhs'.
  injection Hhs' as <-.
  replace (9 + (Z.to_nat walk_depth - 9))%nat with (Z.to_nat walk_depth) in Hmore
    by lia.
  unfold GraphTraversal.search. fold base.
  rewrite walk_eq, Hmore. simpl.
  rewrite concat_app, concat_nothing, app_nil_r.
  cbv zeta in Hcollect. fold base in Hcollect. rewrite Hcollect. reflexivity.
Qed.

(** ** The scores a search can give *)

Lemma best_from_cases received k : forall init,
  best_from init received k = init \/
  exists v, In (k, v) received /\ best_from init received k = v.
Proof.
  unfold best_from.
  induction received as [|[k0 v0] l IH]; intros init; simpl; [now left|].
  destruct (String.eqb_spec k0 k) as [->|Hne].
  - destruct (IH (Rmax init v0)) as [E|[v [Hin E]]].
    + rewrite E. unfold Rmax. destruct (Rle_dec init v0); [|now left].
      right. exists v0. auto.
    + right. exists v. auto.
  - destruct (IH init) as [E|[v [Hin E]]]; [now left|].
    right. exists v. auto.
Qed.

Lemma best_from_reaches received k v : forall init,
  In (k, v) received -> v <= best_from init received k.
Proof.
  induction received as [|[k0 v0] l IH]; intros init; [intros []|].
  intros [[= -> ->]|Hin].
  - unfold best_from. simpl. rewrite String.eqb_refl.
    eapply Rle_trans; [apply Rmax_r|]. apply best_from_ge.
  - unfold best_from. simpl. destruct (String.eqb k0 k); now apply IH.
Qed.

Lemma pow_fades m : 0.6 ^ (10 + m) <= 0.01.
Proof.
  induction m as [|m IH].
  - simpl. lra.
  - replace (10 + S m)%nat with (S (10 + m)) by lia.
    change (0.6 ^ S (10 + m)) with (0.6 * 0.6 ^ (10 + m)).
    pose proof (pow_decay_le (10 + m)). lra.
Qed.

(** On a built graph one node only has a given id: the seed test on the
    ids is the seed test on the node. *)
Lemma seed_of_node g query k n :
  consistent g -> tidy g ->
  get k (nodes g) = Some n ->
  existsb (fun m => String.eqb (node_id m) k && is_seed query m) (all_nodes g)
  = is_seed query n.
Proof.
  intros Hg Ht Hn. apply eq_true_iff_eq. rewrite existsb_exists. split.
  - intros [m [Hm E]]. apply andb_true_iff in E. destruct E as [E Hs].
    apply String.eqb_eq in E. apply (in_all_nodes_iff m Hg Ht) in Hm.
    rewrite E, Hn in Hm. now injection Hm as ->.
  - intros Hs. exists n. split; [apply (get_all_nodes _ _ Hn)|].
    rewrite Hs, andb_true_r. apply String.eqb_eq.
    apply (proj1 Hg), get_in, Hn.
Qed.

(** X12: the scores of the Graph-Traversal search are 1 and the powers of
    0.6 only.  On a built graph the search returns; a returned node whose
    signature contains a token of the query has the score 1, and any other
    returned node has the score [0.6 ^ j] of the nearest hop [j] at which it
    was reached, with [j] between 1 and 9 and not above [walk_depth]: its
    score lies between 0.01 and 0.6. *)
Theorem graph_scores_discrete g walk_depth query limit :
  built g ->
  exists results,
    GraphTraversal.search walk_depth g query limit = Some results /\
    forall r, In r results ->
      (is_seed query (node r) = true /\ score r = 1) \/
      (is_seed query (node r) = false /\
       exists j, (1 <= j <= 9)%nat /\ (Z.of_nat j <= walk_depth)%Z /\
                 score r = 0.6 ^ j /\ 0.01 < score r <= 0.6).
Proof.
  intros Hb. pose proof (built_tidy Hb) as Ht. apply built_consistent in Hb.
  destruct (search_run walk_depth query limit Hb)
    as [hs [results [Hhs [Hlen [_ [_ [_ [Hsearch Hres]]]]]]]].
  set (base := GraphTraversal.base_scores g (GraphTraversal.keywords query)) in *.
  exists (slice_to (sort_desc score results) limit). split; [exact Hsearch|].
  intros r Hr. apply in_slice_to, in_sort_desc in Hr.
  destruct (Hres r Hr) as [k [Hin Hget]].
  assert (Hval : forall i received k v,
             nth_error hs i = Some received -> In (k, v) received ->
             v = 0.6 ^ S i /\ 0.01 < v).
  { intros i received k' v Hnth Hv.
    assert (H1 : forall k v, In (k, v) base -> v = 1)
      by (intros k0 v0; apply base_scores_one).
    destruct (@hops_values g (Z.to_nat walk_depth) base 1 hs H1 Hhs
                i received k' v Hnth Hv) as [-> Hlt].
    split; [lra | exact Hlt]. }
  assert (Hpushed : forall k v, In (k, v) (List.concat hs) ->
             exists j, (1 <= j <= 9)%nat /\ (Z.of_nat j <= walk_depth)%Z /\
                       v = 0.6 ^ j /\ 0.01 < v <= 0.6).
  { intros k' v Hv. apply in_concat in Hv. destruct Hv as [received [Hrec Hv]].
    apply In_nth_error in Hrec. destruct Hrec as [i Hi].
    destruct (Hval i received k' v Hi Hv) as [E Hlt].
    assert (Hi' : (i < List.length hs)%nat)
      by (apply nth_error_Some; congruence).
    exists (S i). split; [split; [lia|]|split; [lia|split; [exact E|]]].
    - destruct (le_lt_dec (S i) 9) as [Hle|Hgt]; [exact Hle|].
      pose proof (pow_fades (S i - 10)) as Hf.
      replace (10 + (S i - 10))%nat with (S i) in Hf by lia. lra.
    - split; [exact Hlt|]. rewrite E. pose proof (pow_decay_le i). simpl. lra. }
  assert (Hscore : score r = Rmax (get_or k 0 base) (best (List.concat hs) k)).
  { pose proof Hin as Hin'. apply in_get in Hin'; [|apply combine_NoDup].
    assert (Hsc : get_or k 0 (GraphTraversal.combine base
                                (absorb [] (List.concat hs))) = score r)
      by (unfold get_or; now rewrite Hin').
    rewrite <- Hsc. unfold best.
    replace (best_from 0 (List.concat hs) k)
      with (get_or k 0 (absorb [] (List.concat hs)))
      by (rewrite absorb_get; reflexivity).
    apply combine_get.
    - apply base_scores_keys.
    - apply absorb_NoDup. constructor.
    - unfold get_or. destruct (get k base) as [v|] eqn:E; [|lra].
      apply get_in, base_scores_one in E. lra.
    - rewrite absorb_get. apply best_from_ge. }
  assert (Hbest : best (List.concat hs) k <= 0.6).
  { apply best_from_le; [lra|]. intros k' v Hv.
    destruct (Hpushed k' v Hv) as [j [_ [_ [_ Hb']]]]. lra. }
  pose proof (base_scores_get g query k) as Hbase. fold base in Hbase.
  rewrite (@seed_of_node g query k (node r) Hb Ht Hget) in Hbase.
  destruct (is_seed query (node r)).
  - left. split; [reflexivity|]. rewrite Hscore. unfold get_or. rewrite Hbase.
    apply Rmax_left. lra.
  - right. split; [reflexivity|].
    assert (Hzero : get_or k 0 base = 0) by (unfold get_or; now rewrite Hbase).
    assert (Hk : In k (map fst (List.concat hs))).
    { assert (Hkc : In k (keys (GraphTraversal.combine base
                                  (absorb [] (List.concat hs)))))
        by (apply in_map_iff; exists (k, score r); auto).
      apply combine_keys in Hkc. destruct Hkc as [Hkc|Hkc].
      - apply get_none_iff in Hbase. contradiction.
      - apply absorb_keys in Hkc. destruct Hkc as [[]|Hkc]. exact Hkc. }
    apply in_map_iff in Hk. destruct Hk as [[k' v] [E Hv]]. simpl in E. subst k'.
    pose proof (@best_from_reaches (List.concat hs) k v 0 Hv) as Hlow.
    destruct (Hpushed k v Hv) as [_ [_ [_ [_ [Hv1 _]]]]].
    destruct (best_from_cases (List.concat hs) k 0) as [E|[v' [Hv' E]]].
    + rewrite E in Hlow. lra.
    + destruct (Hpushed k v' Hv') as [j [Hj [Hd [Ej Hb']]]].
      assert (Es : score r = v').
      { rewrite Hscore, Hzero. unfold best. rewrite E. apply Rmax_right. lra. }
      exists j. rewrite Es. auto.
Qed.

(** ** A search without a hop *)

(** A list already in descending order is left as it is by the sort. *)
Lemma sort_desc_id (A : Type) (key : A -> R) l :
  descending key l -> sort_desc key l = l.
Proof.
  induction l as [|x l IH]; intros H; [reflexivity|].
  apply StronglySorted_inv in H. destruct H as [Hl Hx].
  simpl. rewrite (IH Hl). destruct l as [|y l']; [reflexivity|].
  simpl. inversion Hx; subst.
  destruct (Rlt_dec (key x) (key y)); [lra | reflexivity].
Qed.

Lemma descending_const (A : Type) (key : A -> R) c l :
  (forall x, In x l -> key x = c) -> descending key l.
Proof.
  induction l as [|x l IH]; intros H; constructor.
  - apply IH. intros y Hy. apply H. now right.
  - apply Forall_forall. intros y Hy.
    rewrite (H x (or_introl eq_refl)), (H y (or_intror Hy)). lra.
Qed.

(** With distinct ids the seed map lists the seeds in the order of the
    nodes. *)
Lemma base_scores_list kw (l : list Node) : forall acc,
  NoDup (keys acc ++ map node_id l) ->
  fold_left
    (fun base node =>
       if GraphTraversal.seeded kw node then set (node_id node) 1 base else base)
    l acc
  = (acc ++ map (fun n => (node_id n, 1)) (filter (GraphTraversal.seeded kw) l))%list.
Proof.
  induction l as [|n l IH]; intros acc Hnd; simpl; [now rewrite app_nil_r|].
  destruct (GraphTraversal.seeded kw n).
  - rewrite HybridFacts.set_fresh.
    + rewrite IH; [simpl; now rewrite <- app_assoc|].
      unfold keys in *. rewrite map_app, <- app_assoc. exact Hnd.
    + apply NoDup_remove_2 in Hnd. rewrite in_app_iff in Hnd. tauto.
  - apply IH. now apply NoDup_remove_1 in Hnd.
Qed.

Lemma add_base_list base : forall acc,
  NoDup (keys acc ++ keys base) ->
  fold_left (fun c kv => set (fst kv) (get_or (fst kv) 0 c + snd kv) c) base acc
  = (acc ++ base)%list.
Proof.
  induction base as [|[k v] base IH]; intros acc Hnd; simpl; [now rewrite app_nil_r|].
  simpl in Hnd.
  assert (Hfresh : ~ In k (keys acc)).
  { apply NoDup_remove_2 in Hnd. rewrite in_app_iff in Hnd. tauto. }
  rewrite HybridFacts.set_fresh by exact Hfresh.
  rewrite (@get_or_absent _ k 0 acc Hfresh), Rplus_0_l.
  rewrite IH; [now rewrite <- app_assoc|].
  unfold keys in *. rewrite map_app, <- app_assoc. exact Hnd.
Qed.

Lemma collect_listed g (l : list Node) v :
  consistent g -> tidy g ->
  (forall n, In n l -> In n (all_nodes g)) ->
  GraphTraversal.collect g (map (fun n => (node_id n, v)) l)
  = Some (map (fun n => {| node := n; score := v;
                           strategy := GraphTraversal.name |}) l).
Proof.
  intros Hg Ht. induction l as [|n l IH]; intros Hin; simpl; [reflexivity|].
  rewrite (proj1 (in_all_nodes_iff n Hg Ht) (Hin n (or_introl eq_refl))). simpl.
  rewrite IH by (intros m Hm; apply Hin; now right). reflexivity.
Qed.

(** X13: a search without a hop.  With a [walk_depth] of 0, or a negative
    one, the Graph-Traversal search on a built graph makes no hop and
    returns the seeds only: the nodes whose signature contains a token of
    the query, each with the score 1, in the order in which the graph holds
    its nodes, cut by [limit]. *)
Theorem graph_depth_zero g walk_depth query limit :
  built g ->
  (walk_depth <= 0)%Z ->
  GraphTraversal.search walk_depth g query limit
  = Some (slice_to
            (map (fun n => {| node := n; score := 1;
                              strategy := GraphTraversal.name |})
                 (filter (is_seed query) (all_nodes g)))
            limit).
Proof.
  intros Hb Hd. pose proof (built_tidy Hb) as Ht. apply built_consistent in Hb.
  unfold GraphTraversal.search.
  replace (Z.to_nat walk_depth) with 0%nat by lia. simpl.
  assert (Hbase : GraphTraversal.base_scores g (GraphTraversal.keywords query)
                  = map (fun n => (node_id n, 1))
                        (filter (is_seed query) (all_nodes g))).
  { unfold GraphTraversal.base_scores. rewrite base_scores_list.
    - simpl. f_equal. apply filter_ext. intros n. apply seeded_is_seed.
    - simpl. rewrite (all_nodes_ids Hb). apply Ht. }
  rewrite Hbase.
  assert (Hids : NoDup (keys (map (fun n => (node_id n, 1))
                                  (filter (is_seed query) (all_nodes g))))).
  { assert (Hn : NoDup (map node_id (all_nodes g)))
      by (rewrite (all_nodes_ids Hb); apply Ht).
    unfold keys. rewrite map_map.
    exact (@ResultFacts.NoDup_map_filter _ _ node_id (is_seed query)
             (all_nodes g) Hn). }
  unfold GraphTraversal.combine. simpl.
  rewrite add_base_list by exact Hids. simpl.
  rewrite collect_listed; try assumption.
  - simpl. rewrite sort_desc_id; [reflexivity|].
    apply descending_const with (c := 1). intros x Hx.
    apply in_map_iff in Hx. destruct Hx as [n [<- _]]. reflexivity.
  - intros n Hn. apply filter_In in Hn. apply Hn.
Qed.

End ReachFacts.

(* ================================================================== *)
(** * Which nodes the Vector and the Ontology-Lens searches find *)
(* ================================================================== *)

Module MatchFacts.

Import Py PyFacts Data DataFacts.
Local Open Scope R_scope.

(** ** A fresh Vector instance *)

Lemma ln_ge_0 x : 1 <= x -> 0 <= ln x.
Proof.
  intros [H|<-]; [|rewrite ln_1; lra].
  left. rewrite <- ln_1. apply ln_increasing; lra.
Qed.

Lemma idf_value_ge (N df : nat) : (df <= N)%nat -> 1 <= idf_value N df.
Proof.
  intros H. unfold idf_value.
  assert (Ha : INR (df + 1) <= INR (N + 1)) by (apply le_INR; lia).
  assert (Hb : 0 < INR (df + 1)) by (apply lt_0_INR; lia).
  assert (Hq : 1 <= INR (N + 1) / INR (df + 1)).
  { apply Rmult_le_reg_r with (INR (df + 1)); [exact Hb|].
    unfold Rdiv. rewrite Rmult_assoc, Rinv_l by lra. lra. }
  pose proof (ln_ge_0 Hq). lra.
Qed.

Lemma inb_iff x l : inb x l = true <-> In x l.
Proof. unfold inb. destruct (in_dec string_dec x l); split; auto; discriminate. Qed.

Lemma doc_frequency_bounds nodes n term :
  In n nodes -> In term (Vector._tokenize (text_signature n)) ->
  (1 <= doc_frequency nodes term <= List.length nodes)%nat.
Proof.
  intros Hn Ht. split; [|apply count_le].
  unfold doc_frequency, count.
  assert (Hin : In n (filter (fun node =>
                                inb term (Vector._tokenize (text_signature node)))
                             nodes))
    by (apply filter_In; split; [exact Hn | now apply inb_iff]).
  destruct (filter _ nodes); [destruct Hin | simpl; lia].
Qed.

(** What a query term adds to the score of a node of the indexed graph:
    nothing when the node lacks the term, 1 at least when it has it. *)
Lemma contribution_fresh nodes n term :
  In n nodes ->
  let tf := term_frequency n term in
  let c := if (tf =? 0)%nat then 0
           else (1 + ln (INR tf)) * get_or term 0 (Vector._build_index nodes) in
  0 <= c /\ (tf <> 0%nat -> 1 <= c).
Proof.
  intros Hn tf c. subst c. destruct (Nat.eqb_spec tf 0) as [E|Hne].
  - split; [lra | contradiction].
  - assert (Ht : In term (Vector._tokenize (text_signature n))).
    { apply (count_occ_In string_dec). unfold tf, term_frequency in Hne. lia. }
    destruct (doc_frequency_bounds nodes n term Hn Ht) as [Hlo Hhi].
    unfold get_or. rewrite VectorFacts.build_index_get.
    destruct (Nat.eqb_spec (doc_frequency nodes term) 0) as [E|_]; [lia|].
    pose proof (idf_value_ge Hhi) as Hidf.
    assert (Htf : 1 <= INR tf) by (change 1 with (INR 1); apply le_INR; lia).
    pose proof (ln_ge_0 Htf) as Hln.
    assert (Hc : 1 <= (1 + ln (INR tf))
                      * idf_value (List.length nodes) (doc_frequency nodes term))
      by nra.
    split; [lra | intros _; exact Hc].
Qed.

Lemma Rsum_ge_0 l : (forall x, In x l -> 0 <= x) -> 0 <= Rsum l.
Proof.
  induction l as [|a l IH]; simpl; intros H; [lra|].
  pose proof (H a (or_introl eq_refl)).
  assert (0 <= Rsum l) by (apply IH; intros x Hx; apply H; now right). lra.
Qed.

Lemma Rsum_ge_1 l :
  (forall x, In x l -> 0 <= x) -> (exists x, In x l /\ 1 <= x) -> 1 <= Rsum l.
Proof.
  induction l as [|a l IH]; simpl; intros H [x [Hx H1]]; [destruct Hx|].
  pose proof (H a (or_introl eq_refl)) as Ha.
  assert (Hl : 0 <= Rsum l) by (apply Rsum_ge_0; intros y Hy; apply H; now right).
  destruct Hx as [->|Hx]; [lra|].
  assert (1 <= Rsum l); [|lra].
  apply IH; [intros y Hy; apply H; now right | now exists x].
Qed.

Lemma Rsum_zero l : (forall x, In x l -> x = 0) -> Rsum l = 0.
Proof.
  induction l as [|a l IH]; simpl; intros H; [reflexivity|].
  rewrite (H a (or_introl eq_refl)), IH; [lra|]. intros x Hx. apply H. now right.
Qed.

Lemma shares_token_iff query n :
  shares_token query n = true <->
  exists term, In term (Vector._tokenize query) /\ term_frequency n term <> 0%nat.
Proof.
  unfold shares_token, term_frequency. rewrite existsb_exists.
  split; intros [term [Hq Hn]]; exists term; split; try exact Hq.
  - apply inb_iff, (count_occ_In string_dec) in Hn. lia.
  - apply inb_iff, (count_occ_In string_dec). lia.
Qed.

Lemma tfidf_fresh nodes n query :
  In n nodes ->
  let s := tfidf (Vector._build_index nodes) n (Vector._tokenize query) in
  (shares_token query n = true -> 1 <= s) /\
  (shares_token query n = false -> s = 0).
Proof.
  intros Hn s. subst s. unfold tfidf. split.
  - intros H. apply shares_token_iff in H. destruct H as [term [Hq Hne]].
    apply Rsum_ge_1.
    + intros x Hx. apply in_map_iff in Hx. destruct Hx as [t [<- _]].
      apply (contribution_fresh nodes n t Hn).
    + eexists. split; [apply in_map_iff; exists term; split; [reflexivity | exact Hq]|].
      now apply (contribution_fresh nodes n term Hn).
  - intros H. apply Rsum_zero. intros x Hx.
    apply in_map_iff in Hx. destruct Hx as [t [<- Ht]].
    destruct (Nat.eqb_spec (term_frequency n t) 0) as [_|Hne]; [reflexivity|].
    assert (Hs : shares_token query n = true)
      by (apply shares_token_iff; now exists t).
    congruence.
Qed.

(** X14: what a fresh Vector instance finds.  The first search of an
    instance, which builds the table over the graph it searches, ranks
    exactly the nodes of the graph whose signature has a token of the query
    among its own tokens, each with a score of 1 at least; the list returned
    is that ranking cut by [limit]. *)
Theorem vector_fresh_finds g query limit :
  exists ranked,
    fst (Vector.search [] g query limit) = slice_to ranked limit /\
    descending score ranked /\
    (forall n,
        (exists x, In x ranked /\ node x = n) <->
        In n (all_nodes g) /\ shares_token query n = true) /\
    (forall x, In x ranked -> 1 <= score x).
Proof.
  set (table := Vector._build_index (all_nodes g)).
  set (mk := fun n => {| node := n;
                         score := Vector._score table n (Vector._tokenize query);
                         strategy := Vector.name |}).
  exists (filter (fun r => if Rlt_dec 0 (score r) then true else false)
                 (sort_desc score (map mk (all_nodes g)))).
  split; [reflexivity|].
  split; [apply descending_filter, sort_desc_sorted|].
  assert (Hmk : forall n, In n (all_nodes g) ->
             (shares_token query n = true -> 1 <= score (mk n)) /\
             (shares_token query n = false -> score (mk n) = 0)).
  { intros n Hn. simpl. rewrite VectorFacts.score_tfidf.
    apply (tfidf_fresh (all_nodes g) n query Hn). }
  split.
  - intros n. split.
    + intros [x [Hx <-]]. apply filter_In in Hx. destruct Hx as [Hx Hpos].
      apply in_sort_desc, in_map_iff in Hx. destruct Hx as [m [<- Hm]].
      split; [exact Hm|]. simpl.
      destruct (shares_token query m) eqn:E; [reflexivity|].
      apply VectorFacts.positive_filter in Hpos.
      rewrite (proj2 (Hmk m Hm) E) in Hpos. lra.
    + intros [Hn Hs]. exists (mk n). split; [|reflexivity].
      apply filter_In. split; [apply in_sort_desc, in_map, Hn|].
      apply VectorFacts.positive_filter. pose proof (proj1 (Hmk n Hn) Hs). lra.
  - intros x Hx. apply filter_In in Hx. destruct Hx as [Hx Hpos].
    apply in_sort_desc, in_map_iff in Hx. destruct Hx as [m [<- Hm]].
    destruct (shares_token query m) eqn:E; [now apply (Hmk m Hm)|].
    apply VectorFacts.positive_filter in Hpos.
    rewrite (proj2 (Hmk m Hm) E) in Hpos. lra.
Qed.

(** ** The Ontology-Lens search *)

Lemma count_pos_iff (A : Type) (p : A -> bool) l :
  (count p l =? 0)%nat = negb (existsb p l).
Proof.
  unfold count. induction l as [|x l IH]; simpl; [reflexivity|].
  destruct (p x); simpl; [reflexivity | exact IH].
Qed.

Lemma count_all_iff (A : Type) (p : A -> bool) l :
  count p l = List.length l <-> forallb p l = true.
Proof.
  unfold count. induction l as [|x l IH]; simpl; [tauto|].
  pose proof (filter_length_le p l) as Hle.
  destruct (p x); simpl.
  - rewrite <- IH. lia.
  - split; [lia | discriminate].
Qed.

Lemma ratio_one (m n : nat) : (0 < n)%nat -> (INR m / INR n = 1 <-> m = n).
Proof.
  intros Hn. assert (Hp : 0 < INR n) by now apply lt_0_INR.
  split.
  - intros H. apply INR_eq.
    apply (Rmult_eq_compat_r (INR n)) in H.
    unfold Rdiv in H. rewrite Rmult_assoc, Rinv_l in H by lra. lra.
  - intros ->. unfold Rdiv. apply Rinv_r. lra.
Qed.

(** X15: what the Ontology-Lens search finds.  It ranks exactly the nodes
    of the graph with a tag that contains one of the facets of the query;
    a ranked node has the score 1 exactly when every facet matches it; and
    for a query of one facet the ranking is the matching nodes in the order
    in which the graph holds them, each with the score 1.  The list returned
    is the ranking cut by [limit]. *)
Theorem ontology_finds g query limit :
  let facets := OntologyLens.filters query in
  exists ranked,
    OntologyLens.search g query limit = slice_to ranked limit /\
    descending score ranked /\
    (forall n,
        (exists x, In x ranked /\ node x = n) <->
        In n (all_nodes g) /\ existsb (facet_matches n) facets = true) /\
    (forall x, In x ranked ->
       (score x = 1 <-> forallb (facet_matches (node x)) facets = true)) /\
    (List.length facets = 1%nat ->
     ranked = map (fun n => {| node := n; score := 1;
                               strategy := OntologyLens.name |})
                  (filter (fun n => existsb (facet_matches n) facets)
                          (all_nodes g))).
Proof.
  intros facets.
  set (mk := fun n => {| node := n;
                         score := INR (OntologyLens.match_count facets n)
                                  / INR (List.length facets);
                         strategy := OntologyLens.name |}).
  set (matched := filter (fun n => negb (OntologyLens.match_count facets n =? 0)%nat)
                         (all_nodes g)).
  assert (Hmatched : matched = filter (fun n => existsb (facet_matches n) facets)
                                      (all_nodes g)).
  { apply filter_ext. intros n.
    rewrite OntologyFacts.match_count_facets, count_pos_iff. apply negb_involutive. }
  exists (sort_desc score (map mk matched)).
  split; [|split; [|split; [|split]]].
  - unfold OntologyLens.search. fold facets.
    rewrite OntologyFacts.matched_fold. reflexivity.
  - apply sort_desc_sorted.
  - intros n. rewrite Hmatched. split.
    + intros [x [Hx <-]]. apply in_sort_desc, in_map_iff in Hx.
      destruct Hx as [m [<- Hm]]. apply filter_In in Hm. exact Hm.
    + intros Hn. exists (mk n). split; [|reflexivity].
      apply in_sort_desc, in_map, filter_In, Hn.
  - intros x Hx. apply in_sort_desc, in_map_iff in Hx.
    destruct Hx as [m [<- Hm]]. rewrite Hmatched in Hm.
    apply filter_In in Hm. destruct Hm as [_ Hm]. simpl.
    rewrite OntologyFacts.match_count_facets, <- count_all_iff.
    apply ratio_one. destruct facets; [discriminate | simpl; lia].
  - intros Hone. rewrite <- Hmatched.
    assert (E : map mk matched
                = map (fun n => {| node := n; score := 1;
                                   strategy := OntologyLens.name |}) matched).
    { apply map_ext_in. intros n Hn. unfold matched in Hn.
      apply filter_In in Hn. destruct Hn as [_ Hn].
      apply negb_true_iff, Nat.eqb_neq in Hn.
      pose proof (count_le (facet_matches n) facets) as Hle.
      rewrite <- OntologyFacts.match_count_facets, Hone in Hle.
      unfold mk. f_equal. rewrite Hone.
      replace (OntologyLens.match_count facets n) with 1%nat by lia.
      simpl. lra. }
    rewrite E. apply ReachFacts.sort_desc_id.
    apply ReachFacts.descending_const with (c := 1). intros x Hx.
    apply in_map_iff in Hx. destruct Hx as [n [<- _]]. reflexivity.
Qed.

End MatchFacts.

(* ================================================================== *)
(** * The weights and the rounds of the league *)
(* ================================================================== *)

Module RoundFacts.

Import Py PyFacts Data DataFacts League LeagueFacts.
Local Open Scope R_scope.

(** ** [update_weights] *)

Lemma update_weights_get performance : forall weights learning_rate n,
  NoDup (keys performance) ->
  get n (Hybrid.update_weights weights performance learning_rate) =
  match get n performance with
  | Some p => Some (max 0.1 (get_or n 1 weights + learning_rate * p))
  | None => get n weights
  end.
Proof.
  unfold Hybrid.update_weights.
  induction performance as [|[k0 p0] perf IH]; intros w lr n Hnd; simpl;
    [reflexivity|].
  inversion Hnd as [|? ? Hout Hnd']; subst.
  rewrite (IH _ lr n Hnd'). simpl.
  destruct (String.eqb_spec n k0) as [->|Hne].
  - apply get_none_iff in Hout. rewrite Hout. apply get_set_eq.
  - rewrite get_or_set, get_set. apply String.eqb_neq in Hne. now rewrite Hne.
Qed.

Lemma update_weights_in_keys performance : forall weights learning_rate n,
  In n (keys (Hybrid.update_weights weights performance learning_rate)) <->
  In n (keys weights) \/ In n (keys performance).
Proof.
  unfold Hybrid.update_weights.
  induction performance as [|[k0 p0] perf IH]; intros w lr n; simpl; [tauto|].
  rewrite IH, in_keys_set. simpl. intuition congruence.
Qed.

Lemma update_weights_keys performance : forall weights learning_rate,
  (forall n, In n (keys performance) -> In n (keys weights)) ->
  keys (Hybrid.update_weights weights performance learning_rate) = keys weights.
Proof.
  unfold Hybrid.update_weights.
  induction performance as [|[k0 p0] perf IH]; intros w lr Hin; simpl;
    [reflexivity|].
  assert (Hk : keys (set k0 (max 0.1 (get_or k0 1 w + lr * p0)) w) = keys w).
  { rewrite keys_set.
    assert (Hh : has k0 w = true) by (apply has_iff, Hin; now left).
    now rewrite Hh. }
  rewrite IH; [exact Hk|].
  intros n Hn. rewrite Hk. apply Hin. now right.
Qed.

(** X16: what [update_weights] changes.  For a performance map, whose keys
    are distinct as those of a [dict] are, the weight of a name of the map
    becomes [max(0.1, w + learning_rate * delta)], where [w] is the weight
    the name had, or 1.0 when it had none; the weight of any other name is
    left as it is; the names of the result are those of the weights and of
    the performance map; and when every name of the performance map has a
    weight already, no key is added or moved. *)
Theorem update_weights_spec weights performance learning_rate :
  NoDup (keys performance) ->
  (forall n,
      get n (Hybrid.update_weights weights performance learning_rate) =
      match get n performance with
      | Some delta => Some (max 0.1 (get_or n 1 weights + learning_rate * delta))
      | None => get n weights
      end) /\
  (forall n,
      In n (keys (Hybrid.update_weights weights performance learning_rate)) <->
      In n (keys weights) \/ In n (keys performance)) /\
  ((forall n, In n (keys performance) -> In n (keys weights)) ->
   keys (Hybrid.update_weights weights performance learning_rate) = keys weights).
Proof.
  intros Hnd. split; [|split].
  - intros n. now apply update_weights_get.
  - intros n. apply update_weights_in_keys.
  - apply update_weights_keys.
Qed.

(** ** A round runs to its end *)

Lemma names_keys_from v l : forall d : Dict R,
  keys (fold_left (fun d s => set (name s) v d) l d)
  = fold_left (fun ks n => set_add n ks) (map name l) (keys d).
Proof.
  induction l as [|s l IH]; intros d; simpl; [reflexivity|].
  now rewrite IH, keys_set_add.
Qed.

Lemma initial_weights_keys l : keys (initial_weights l) = set_of (map name l).
Proof. unfold initial_weights, set_of. now rewrite names_keys_from. Qed.

(** On a consistent graph a round runs to its end, whatever the weights. *)
Lemma run_round_run l :
  consistent (graph l) ->
  exists t,
    tally_ok (map name (strategies l)) (set_of (map name (strategies l))) t /\
    evaluate (graph l) (hybrid_weights l) (evaluation_set l)
      {| objects := strategies l; performance := zeros (strategies l);
         hybrid_performance := zeros (strategies l) |} = Some t /\
    run_round l =
    Some (map_values
            (fun v => v / INR (Nat.max (List.length (evaluation_set l)) 1))
            (performance t),
          {| graph := graph l; strategies := objects t;
             evaluation_set := evaluation_set l;
             hybrid_weights :=
               Hybrid.update_weights (hybrid_weights l)
                 (map_values
                    (fun v => v / INR (Nat.max (List.length (evaluation_set l)) 1))
                    (hybrid_performance t))
                 0.1 |}).
Proof.
  intros Hb.
  set (names := map name (strategies l)).
  set (t0 := {| objects := strategies l; performance := zeros (strategies l);
                hybrid_performance := zeros (strategies l) |}).
  assert (H0 : tally_ok names (set_of names) t0).
  { repeat split; simpl; try apply zeros_keys.
    - intros n Hn. now apply in_set_of.
    - intros k v H. apply zeros_values in H. lra. }
  destruct (@evaluate_total (graph l) (hybrid_weights l) names (set_of names)
              (evaluation_set l) Hb t0 H0) as [t [Ht Hok]].
  exists t. split; [exact Hok|]. split; [exact Ht|].
  destruct Hok as [Hn [Hkp [Hkh _]]].
  unfold run_round. fold t0. rewrite Ht. simpl.
  rewrite normalize_keys.
  - reflexivity.
  - rewrite Hkp. apply NoDup_set_of.
  - congruence.
Qed.

(** ** The scores of a round *)

Lemma share_bound k (f : Strategy -> R) l :
  (forall s, 0 <= f s <= 1) ->
  0 <= share k f l <= INR (count (fun s => String.eqb (name s) k) l).
Proof.
  intros Hf. induction l as [|s l IH].
  - unfold share, Rsum, count. simpl. lra.
  - rewrite share_cons. unfold count in *. simpl.
    destruct (String.eqb (name s) k).
    + change (List.length (s :: filter (fun s0 => String.eqb (name s0) k) l))
        with (S (List.length (filter (fun s0 => String.eqb (name s0) k) l))).
      rewrite S_INR. pose proof (Hf s). lra.
    + lra.
Qed.

Lemma precision_total_bound g subs examples k :
  0 <= precision_total g subs examples k
    <= INR (List.length examples)
       * INR (count (fun s => String.eqb (name s) k) subs).
Proof.
  induction examples as [|example examples IH].
  - unfold precision_total, Rsum. simpl. lra.
  - rewrite precision_total_cons.
    change (List.length (example :: examples)) with (S (List.length examples)).
    rewrite S_INR.
    pose proof (@share_bound k
                  (fun s => _precision_at_k (results_of g s (query example))
                                            (relevant_ids example) 5)
                  subs
                  (fun s => PrecisionFacts.precision_bounds _ _ _)) as Hs.
    lra.
Qed.

Lemma count_name_le_one k l :
  NoDup (map name l) -> (count (fun s => String.eqb (name s) k) l <= 1)%nat.
Proof.
  unfold count. induction l as [|s l IH]; simpl; intros H; [lia|].
  inversion H as [|? ? Hout Hnd]; subst.
  destruct (String.eqb_spec (name s) k) as [E|_]; [|now apply IH].
  simpl. rewrite ResultFacts.filter_none; [simpl; lia|].
  intros x Hx. apply String.eqb_neq. intros Ex. apply Hout.
  rewrite E, <- Ex. now apply in_map.
Qed.

(** Every score of a round lies between 0 and the number of strategies of
    its name. *)
Lemma round_scores_bound l t k v :
  evaluate (graph l) (hybrid_weights l) (evaluation_set l)
    {| objects := strategies l; performance := zeros (strategies l);
       hybrid_performance := zeros (strategies l) |} = Some t ->
  get k (map_values
           (fun v => v / INR (Nat.max (List.length (evaluation_set l)) 1))
           (performance t)) = Some v ->
  0 <= v <= INR (count (fun s => String.eqb (name s) k) (strategies l)).
Proof.
  intros Ht Hv.
  assert (Hsame : same_calls (graph l) (strategies l) (strategies l)).
  { unfold same_calls. clear. induction (strategies l) as [|s subs IH].
    - constructor.
    - constructor; [now left | exact IH]. }
  destruct (@evaluate_sums (graph l) (hybrid_weights l) (strategies l)
              (evaluation_set l)
              {| objects := strategies l; performance := zeros (strategies l);
                 hybrid_performance := zeros (strategies l) |}
              t Hsame Ht k) as [G1 _].
  assert (Hz : get_or k 0 (zeros (strategies l)) = 0).
  { unfold get_or. destruct (get k (zeros (strategies l))) as [z|] eqn:E;
      [apply (zeros_values _ _ E) | reflexivity]. }
  simpl in G1. rewrite Hz, Rplus_0_l in G1.
  rewrite get_map_values in Hv.
  destruct (get k (performance t)) as [p|] eqn:Ep; [|discriminate].
  injection Hv as <-. unfold get_or in G1. rewrite Ep in G1. subst p.
  pose proof (precision_total_bound (graph l) (strategies l) (evaluation_set l) k)
    as Hb.
  set (c := INR (count (fun s => String.eqb (name s) k) (strategies l))) in *.
  set (total := precision_total (graph l) (strategies l) (evaluation_set l) k) in *.
  assert (Hc : 0 <= c) by apply pos_INR.
  destruct (evaluation_set l) as [|e es].
  - simpl in *. lra.
  - assert (Hmax : Nat.max (List.length (e :: es)) 1 = List.length (e :: es))
      by (simpl; lia).
    rewrite Hmax.
    assert (Hlen : 0 < INR (List.length (e :: es))) by (apply lt_0_INR; simpl; lia).
    set (n := INR (List.length (e :: es))) in *.
    assert (Hinv : 0 < / n) by now apply Rinv_0_lt_compat.
    unfold Rdiv. split.
    + apply Rmult_le_pos; lra.
    + apply Rmult_le_reg_r with n; [exact Hlen|].
      rewrite Rmult_assoc, Rinv_l by lra. lra.
Qed.

(** X17: the scores of a round.  On a built graph [run_round] returns, and
    each score it returns lies between 0 and the number of strategies that
    carry its name: between 0 and 1 when the strategies have distinct names,
    while strategies that share a name add their precisions up under that
    one name. *)
Theorem round_scores_bounded l :
  built (graph l) ->
  exists scores l',
    run_round l = Some (scores, l') /\
    (forall k v, get k scores = Some v ->
       0 <= v <= INR (count (fun s => String.eqb (name s) k) (strategies l))) /\
    (NoDup (map name (strategies l)) ->
     forall k v, get k scores = Some v -> 0 <= v <= 1).
Proof.
  intros Hb. apply built_consistent in Hb.
  destruct (run_round_run l Hb) as [t [_ [Ht Hrun]]].
  eexists. eexists. split; [exact Hrun|].
  split.
  - intros k v Hv. apply (round_scores_bound l k Ht Hv).
  - intros Hnd k v Hv. pose proof (round_scores_bound l k Ht Hv) as [H0 H1].
    split; [exact H0|]. eapply Rle_trans; [exact H1|].
    change 1 with (INR 1). apply le_INR, count_name_le_one, Hnd.
Qed.

(** ** The champion *)

Lemma max_by_split scores names : forall best,
  exists pre post,
    best :: names = (pre ++ max_by scores best names :: post)%list /\
    (forall k, In k pre ->
       get_or k 0 scores < get_or (max_by scores best names) 0 scores) /\
    (forall k, In k post ->
       get_or k 0 scores <= get_or (max_by scores best names) 0 scores).
Proof.
  induction names as [|n names IH]; intros best; simpl.
  - exists [], []. repeat split; intros k [].
  - destruct (Rlt_dec (get_or best 0 scores) (get_or n 0 scores)) as [Hlt|Hge].
    + destruct (IH n) as [pre [post [E [Hpre Hpost]]]].
      exists (best :: pre), post. split; [simpl; now rewrite E|].
      split; [|exact Hpost].
      intros k [<-|Hk]; [|now apply Hpre].
      destruct pre as [|p pre].
      * simpl in E. injection E as E _. rewrite <- E. exact Hlt.
      * simpl in E. injection E as E _. subst p.
        pose proof (Hpre n (or_introl eq_refl)). lra.
    + destruct (IH best) as [pre [post [E [Hpre Hpost]]]].
      destruct pre as [|p pre].
      * simpl in E. injection E as E1 E2.
        exists [], (n :: post). split; [simpl; now rewrite <- E1, E2|].
        split; [intros k []|].
        intros k [<-|Hk]; [rewrite <- E1; lra | now apply Hpost].
      * simpl in E. injection E as E1 E2. subst p.
        exists (best :: n :: pre), post.
        split; [simpl; do 2 f_equal; exact E2|].
        split; [|exact Hpost].
        intros k [<-|[<-|Hk]].
        -- apply Hpre. now left.
        -- pose proof (Hpre best (or_introl eq_refl)). lra.
        -- apply Hpre. now right.
Qed.

Lemma find_name b l :
  In b (map name l) ->
  exists s, find (fun s' => String.eqb (name s') b) l = Some s /\ name s = b.
Proof.
  induction l as [|s l IH]; simpl; [intros []|].
  destruct (String.eqb_spec (name s) b) as [E|Hne].
  - intros _. now exists s.
  - intros [H|H]; [contradiction | now apply IH].
Qed.

(** With a strategy at least, the champion is found among the strategies. *)
Lemma champion_run l :
  consistent (graph l) ->
  strategies l <> [] ->
  exists scores l' s pre post,
    run_round l = Some (scores, l') /\
    champion l = Some (s, l') /\
    find (fun s' => String.eqb (name s') (name s)) (strategies l') = Some s /\
    keys scores = (pre ++ name s :: post)%list /\
    (forall k, In k pre -> get_or k 0 scores < get_or (name s) 0 scores) /\
    (forall k, In k post -> get_or k 0 scores <= get_or (name s) 0 scores).
Proof.
  intros Hb Hne.
  destruct (run_round_run l Hb) as [t [Hok [_ Hrun]]].
  destruct Hok as [Hn [Hkp _]].
  set (scores := map_values
                   (fun v => v / INR (Nat.max (List.length (evaluation_set l)) 1))
                   (performance t)) in *.
  assert (Hkeys : keys scores = set_of (map name (strategies l)))
    by (unfold scores; now rewrite keys_map_values).
  destruct (keys scores) as [|n names] eqn:Ek.
  { destruct (strategies l) as [|s subs]; [contradiction|].
    assert (Hin : In (name s) (set_of (map name (s :: subs))))
      by (apply in_set_of; now left).
    rewrite <- Hkeys in Hin. destruct Hin. }
  destruct (max_by_split scores names n) as [pre [post [E [Hpre Hpost]]]].
  set (b := max_by scores n names) in *.
  assert (Hb' : In b (map name (objects t))).
  { rewrite Hn. apply in_set_of. rewrite <- Hkeys, E, in_app_iff. right. now left. }
  destruct (find_name b (objects t) Hb') as [s [Hfind Hs]].
  assert (Hch : champion l = option_map (fun r => (s, snd r)) (run_round l)).
  { unfold champion. rewrite Hrun. simpl. fold scores.
    unfold best_name. rewrite Ek. simpl. fold b. rewrite Hfind. reflexivity. }
  rewrite Hrun in Hch. simpl in Hch.
  clearbody b. subst b.
  eexists. eexists. exists s, pre, post.
  split; [exact Hrun|]. split; [exact Hch|]. split; [exact Hfind|].
  split; [rewrite Ek; exact E|]. split; assumption.
Qed.

(** X18: the champion.  On a built graph [champion] runs a round and, with
    a strategy at least, returns the first strategy object that carries the
    name of the greatest score, the first such name when scores are equal:
    the final [return self.hybrid] is never reached.  Without a strategy the
    score map is empty and [max] raises. *)
Theorem champion_spec l :
  built (graph l) ->
  (strategies l = [] -> champion l = None) /\
  (strategies l <> [] ->
   exists scores l' s pre post,
     run_round l = Some (scores, l') /\
     champion l = Some (s, l') /\
     find (fun s' => String.eqb (name s') (name s)) (strategies l') = Some s /\
     keys scores = (pre ++ name s :: post)%list /\
     (forall k, In k pre -> get_or k 0 scores < get_or (name s) 0 scores) /\
     (forall k, In k post -> get_or k 0 scores <= get_or (name s) 0 scores)).
Proof.
  intros Hb. apply built_consistent in Hb. split.
  - intros He. destruct (run_round_run l Hb) as [t [Hok [_ Hrun]]].
    destruct Hok as [_ [Hkp _]].
    unfold champion. rewrite Hrun. simpl. unfold best_name.
    rewrite keys_map_values, Hkp, He. reflexivity.
  - now apply champion_run.
Qed.

(** ** Round after round *)

(** What a round keeps of the league. *)
Lemma round_keeps l :
  consistent (graph l) ->
  keys (hybrid_weights l) = set_of (map name (strategies l)) ->
  floored 0.1 (hybrid_weights l) ->
  exists scores l',
    run_round l = Some (scores, l') /\
    keys scores = set_of (map name (strategies l)) /\
    graph l' = graph l /\
    evaluation_set l' = evaluation_set l /\
    map name (strategies l') = map name (strategies l) /\
    keys (hybrid_weights l') = keys (hybrid_weights l) /\
    floored 0.1 (hybrid_weights l').
Proof.
  intros Hb Hk Hf.
  destruct (run_round_run l Hb) as [t [Hok [_ Hrun]]].
  destruct Hok as [Hn [Hkp [Hkh _]]].
  eexists. eexists. split; [exact Hrun|]. simpl.
  split; [now rewrite keys_map_values|].
  split; [reflexivity|]. split; [reflexivity|]. split; [exact Hn|]. split.
  - apply update_weights_keys. intros n. now rewrite keys_map_values, Hkh, Hk.
  - now apply WeightFacts.update_weights_floored.
Qed.

Lemma rounds_keep_from n : forall l,
  consistent (graph l) ->
  keys (hybrid_weights l) = set_of (map name (strategies l)) ->
  floored 0.1 (hybrid_weights l) ->
  exists l',
    rounds n l = Some l' /\
    graph l' = graph l /\
    evaluation_set l' = evaluation_set l /\
    map name (strategies l') = map name (strategies l) /\
    keys (hybrid_weights l') = keys (hybrid_weights l) /\
    floored 0.1 (hybrid_weights l').
Proof.
  induction n as [|n IH]; intros l Hb Hk Hf; simpl.
  - exists l. repeat split; auto.
  - destruct (round_keeps l Hb Hk Hf)
      as [scores [l1 [-> [_ [Hg [He [Hn [Hw Hf1]]]]]]]]. simpl.
    destruct (IH l1) as [l' [Hr [Hg' [He' [Hn' [Hw' Hf']]]]]].
    + now rewrite Hg.
    + now rewrite Hw, Hn.
    + exact Hf1.
    + exists l'. split; [exact Hr|].
      repeat split; try congruence. exact Hf'.
Qed.

(** X19: round after round.  On a built graph any number of rounds of a
    new league run to their end, and the league keeps its graph, its
    examples and the names of its strategies in their order, while the
    weight map of its hybrid keeps exactly one weight for each name, in the
    order of the first occurrences, and every weight stays at 0.1 or
    above. *)
Theorem rounds_keep g subs examples n :
  built g ->
  exists l',
    rounds n (new g subs examples) = Some l' /\
    graph l' = g /\
    evaluation_set l' = examples /\
    map name (strategies l') = map name subs /\
    keys (hybrid_weights l') = set_of (map name subs) /\
    (forall k w, get k (hybrid_weights l') = Some w -> 0.1 <= w).
Proof.
  intros Hb. apply built_consistent in Hb.
  destruct (@rounds_keep_from n (new g subs examples)) as [l' [Hr [Hg [He [Hn [Hw Hf]]]]]].
  - exact Hb.
  - simpl. apply initial_weights_keys.
  - intros k w H. simpl in H. apply WeightFacts.initial_weights_one in H. lra.
  - exists l'. simpl in *. rewrite initial_weights_keys in Hw.
    repeat split; assumption.
Qed.

(** ** A league without an example *)

(** X20: a round over an empty evaluation set.  On any graph it makes no
    search and returns the score 0 for the name of every strategy; the
    strategies are left as they are; and every weight of 0.1 or more is left
    as it is: the division is by 1, not by the number of examples. *)
Theorem round_without_examples l :
  evaluation_set l = [] ->
  exists scores l',
    run_round l = Some (scores, l') /\
    keys scores = set_of (map name (strategies l)) /\
    (forall k v, get k scores = Some v -> v = 0) /\
    strategies l' = strategies l /\
    (forall k w, get k (hybrid_weights l) = Some w -> 0.1 <= w ->
       get k (hybrid_weights l') = Some w) /\
    (forall k, In k (map name (strategies l)) ->
       get k (hybrid_weights l) = None ->
       get k (hybrid_weights l') = Some 1).
Proof.
  intros He. unfold run_round. rewrite He. simpl.
  rewrite normalize_keys; [|rewrite zeros_keys; apply NoDup_set_of | reflexivity].
  eexists. eexists. split; [reflexivity|]. simpl.
  assert (Hadv : forall k,
             get k (map_values (fun v => v / 1) (zeros (strategies l)))
             = if has k (zeros (strategies l)) then Some (0 / 1) else None).
  { intros k. rewrite get_map_values. unfold has.
    destruct (get k (zeros (strategies l))) as [z|] eqn:E; [|reflexivity].
    apply zeros_values in E. now subst z. }
  assert (Hnd : NoDup (keys (map_values (fun v => v / 1) (zeros (strategies l)))))
    by (rewrite keys_map_values, zeros_keys; apply NoDup_set_of).
  split; [now rewrite keys_map_values, zeros_keys|].
  split; [|split; [reflexivity|split]].
  - intros k v. rewrite Hadv. destruct (has k (zeros (strategies l))); [|discriminate].
    intros [= <-]. lra.
  - intros k w Hw Hlow. rewrite (@update_weights_get _ (hybrid_weights l) 0.1 k Hnd), Hadv.
    destruct (has k (zeros (strategies l))); [|exact Hw].
    unfold get_or. rewrite Hw. f_equal. unfold max.
    destruct (Rlt_dec 0.1 (w + 0.1 * (0 / 1))); lra.
  - intros k Hk Hw. rewrite (@update_weights_get _ (hybrid_weights l) 0.1 k Hnd), Hadv.
    assert (Hh : has k (zeros (strategies l)) = true)
      by (apply has_iff; rewrite zeros_keys; now apply in_set_of).
    rewrite Hh. unfold get_or. rewrite Hw. f_equal. unfold max.
    destruct (Rlt_dec 0.1 (1 + 0.1 * (0 / 1))); lra.
Qed.

(** ** The demo league *)

(** X21: the league of [build_demo_league] on any built graph, as the
    repository's test exercises it on the demo graph: a round returns and
    its scores are those of [vector], [graph] and [ontology], in this order,
    each between 0 and 1; and [champion], called next, returns a strategy
    whose name is among them. *)
Theorem demo_league_round g :
  built g ->
  exists scores l1 s l2,
    run_round (build_demo_league g) = Some (scores, l1) /\
    keys scores = ["vector"; "graph"; "ontology"]%string /\
    (forall k v, get k scores = Some v -> 0 <= v <= 1) /\
    champion l1 = Some (s, l2) /\
    In (name s) (keys scores) /\
    In s (strategies l2).
Proof.
  intros Hb. apply built_consistent in Hb.
  set (l := build_demo_league g).
  assert (Hnames : set_of (map name (strategies l))
                   = ["vector"; "graph"; "ontology"]%string) by reflexivity.
  destruct (run_round_run l Hb) as [t [Hok [Ht Hrun]]].
  destruct Hok as [Hn [Hkp _]].
  match type of Hrun with _ = Some (?sc, ?lg) =>
    set (scores := sc) in *; set (l1 := lg) in * end.
  assert (Hne : strategies l1 <> []).
  { simpl. intros E. rewrite E in Hn. discriminate. }
  destruct (@champion_run l1 Hb Hne)
    as [scores2 [l2 [s [pre [post [Hrun2 [Hch [Hfind [Hkeys _]]]]]]]]].
  exists scores, l1, s, l2.
  assert (Hk : keys scores = ["vector"; "graph"; "ontology"]%string)
    by (unfold scores; now rewrite keys_map_values, Hkp).
  split; [exact Hrun|]. split; [exact Hk|]. split; [|split; [exact Hch|split]].
  - intros k v Hv. pose proof (round_scores_bound l k Ht Hv) as [H0 H1].
    split; [exact H0|]. eapply Rle_trans; [exact H1|].
    change 1 with (INR 1). apply le_INR, count_name_le_one.
    simpl. repeat constructor; simpl; intuition discriminate.
  - destruct (run_round_run l1 Hb) as [t2 [[Hn2 _] [_ Hrun2']]].
    rewrite Hrun2 in Hrun2'. injection Hrun2' as _ Hl2.
    apply find_some in Hfind. destruct Hfind as [Hin _].
    rewrite Hl2 in Hin. simpl in Hin.
    rewrite Hk, <- Hnames. apply in_set_of. rewrite <- Hn.
    change (objects t) with (strategies l1). rewrite <- Hn2.
    apply in_map, Hin.
  - apply find_some in Hfind. apply Hfind.
Qed.

End RoundFacts.

(* ================================================================== *)
(** * A hybrid of one strategy *)
(* ================================================================== *)

Module FusionFacts.

Import Py PyFacts Data DataFacts StoreFacts.
Local Open Scope R_scope.

Lemma in_enumerate_ge (A : Type) (l : list A) : forall n i x,
  In (i, x) (enumerate n l) -> (n <= i)%nat.
Proof.
  induction l as [|a l IH]; intros n i x; simpl; [intros []|].
  intros [[= <- _]|H]; [lia|]. apply IH in H. lia.
Qed.

(** Ranks of nodes not seen before are appended, each with its own
    contribution. *)
Lemma fuse_list_fresh weight ranked : forall sbn no,
  keys sbn = keys no ->
  NoDup (keys sbn ++ map (fun ir => node_id (node (snd ir))) ranked) ->
  fold_left (Hybrid.fuse_one weight) ranked (sbn, no)
  = ((sbn ++ map (fun ir : nat * SearchResult =>
                    (node_id (node (snd ir)), weight / INR (fst ir))) ranked)%list,
     (no ++ map (fun ir : nat * SearchResult =>
                   (node_id (node (snd ir)), node (snd ir))) ranked)%list).
Proof.
  induction ranked as [|[i r] ranked IH]; intros sbn no Hk Hnd; simpl.
  - now rewrite !app_nil_r.
  - simpl in Hnd.
    assert (Hfresh : ~ In (node_id (node r)) (keys sbn)).
    { apply NoDup_remove_2 in Hnd. rewrite in_app_iff in Hnd. tauto. }
    rewrite (@GraphFacts.get_or_absent _ (node_id (node r)) 0 sbn Hfresh), Rplus_0_l.
    rewrite !HybridFacts.set_fresh by (try rewrite <- Hk; exact Hfresh).
    rewrite IH.
    + now rewrite <- !app_assoc.
    + unfold keys in *. rewrite !map_app, Hk. reflexivity.
    + unfold keys in *. rewrite map_app, <- app_assoc. exact Hnd.
Qed.

Lemma merge_listed (ranked : list (nat * SearchResult)) weight no :
  (forall ir, In ir ranked ->
     get (node_id (node (snd ir))) no = Some (node (snd ir))) ->
  Hybrid.merge no (map (fun ir : nat * SearchResult =>
                          (node_id (node (snd ir)), weight / INR (fst ir))) ranked)
  = Some (map (fun ir : nat * SearchResult =>
                 {| node := node (snd ir); score := weight / INR (fst ir);
                    strategy := Hybrid.name |}) ranked).
Proof.
  induction ranked as [|ir ranked IH]; intros H; simpl; [reflexivity|].
  rewrite (H ir (or_introl eq_refl)). simpl.
  rewrite IH by (intros x Hx; apply H; now right). reflexivity.
Qed.

Lemma ranks_descending weight (r : list SearchResult) : forall n,
  0 < weight -> (0 < n)%nat ->
  descending score
    (map (fun ir : nat * SearchResult =>
            {| node := node (snd ir); score := weight / INR (fst ir);
               strategy := Hybrid.name |}) (enumerate n r)).
Proof.
  induction r as [|x r IH]; intros n Hw Hn; simpl; constructor.
  - apply IH; [exact Hw | lia].
  - apply Forall_forall. intros y Hy. apply in_map_iff in Hy.
    destruct Hy as [[i z] [<- Hi]]. simpl. apply in_enumerate_ge in Hi.
    assert (Hn' : 0 < INR n) by (apply lt_0_INR; lia).
    assert (Hi' : INR n <= INR i) by (apply le_INR; lia).
    unfold Rdiv. apply Rmult_le_compat_l; [lra|].
    apply Rinv_le_contravar; assumption.
Qed.

(** X22: a hybrid of one strategy keeps the ranking of that strategy.  On
    a built graph, with a [limit] that is not negative and a positive
    weight [w] for the name of the strategy, the hybrid over the single
    strategy returns the nodes the strategy returns, in the same order, the
    node at the 1-based rank [i] with the score [w / i]. *)
Theorem hybrid_of_one s weights g query limit :
  built g ->
  (0 <= limit)%Z ->
  0 < get_or (name s) 1 weights ->
  exists r s',
    search s g query limit = Some (r, s') /\
    search (HybridSelfImprovingSearch [s] weights) g query limit
    = Some (map (fun ir : nat * SearchResult =>
                   {| node := node (snd ir);
                      score := get_or (name s) 1 weights / INR (fst ir);
                      strategy := Hybrid.name |})
                (enumerate 1 r),
            HybridSelfImprovingSearch [s'] weights).
Proof.
  intros Hb Hl Hw. pose proof (built_tidy Hb) as Ht. apply built_consistent in Hb.
  destruct (HybridFacts.search_total Hb s query limit) as [[r s'] Hs].
  exists r, s'. split; [exact Hs|].
  pose proof (@ResultFacts.search_distinct g s query limit r s' Hb Ht Hs) as Hnd.
  assert (Hlen : (List.length r <= Z.to_nat limit)%nat).
  { destruct (ResultFacts.search_shape _ _ _ _ Hs) as [full [-> _]].
    now apply ResultFacts.slice_to_length. }
  simpl. rewrite Hs. simpl.
  unfold Hybrid.rank_fusion, Hybrid.fuse. simpl.
  set (w := get_or (name s) 1 weights) in *.
  rewrite fuse_list_fresh.
  - simpl. rewrite merge_listed.
    + simpl. rewrite ReachFacts.sort_desc_id by (apply ranks_descending; [exact Hw | lia]).
      rewrite slice_to_nonneg by exact Hl.
      rewrite firstn_all2; [reflexivity|].
      rewrite length_map.
      assert (E : List.length (enumerate 1 r) = List.length r).
      { rewrite <- (HybridFacts.enumerate_snd r 1) at 2. now rewrite length_map. }
      lia.
    + intros ir Hir. apply in_get.
      * unfold keys. rewrite map_map. simpl.
        rewrite <- (map_map snd (fun x => node_id (node x))).
        now rewrite HybridFacts.enumerate_snd.
      * apply (in_map (fun ir : nat * SearchResult =>
                         (node_id (node (snd ir)), node (snd ir)))), Hir.
  - reflexivity.
  - simpl. rewrite <- (map_map snd (fun x => node_id (node x))).
    now rewrite HybridFacts.enumerate_snd.
Qed.

End FusionFacts.

(* ================================================================== *)
(** * The signature of a node and its tokens *)
(* ================================================================== *)

Module SignatureFacts.

Import Py PyFacts Data DataFacts StoreFacts GraphFacts.
Local Open Scope R_scope.

(** ** [split] over the parts of a string *)

Lemma app_assoc_string (a b c : string) :
  ((a ++ b) ++ c)%string = (a ++ b ++ c)%string.
Proof. induction a as [|x a IH]; simpl; congruence. Qed.

Lemma split_run_blank s : forall cur,
  blank s = true -> split_run cur s = if truthy cur then [cur] else [].
Proof.
  induction s as [|c s IH]; intros cur H; simpl; [reflexivity|].
  simpl in H. apply andb_true_iff in H. destruct H as [-> H].
  rewrite (IH EmptyString H). simpl. reflexivity.
Qed.

Lemma rstrip_empty_blank s : rstrip s = EmptyString -> blank s = true.
Proof.
  induction s as [|c s IH]; simpl; [reflexivity|].
  destruct (rstrip s) as [|d r]; [|discriminate].
  destruct (isspace c); [intros _; now apply IH | discriminate].
Qed.

Lemma split_run_rstrip s : forall cur, split_run cur (rstrip s) = split_run cur s.
Proof.
  induction s as [|c s IH]; intros cur; [reflexivity|].
  simpl rstrip. destruct (rstrip s) as [|d r] eqn:E.
  - pose proof (rstrip_empty_blank s E) as Hb.
    destruct (isspace c) eqn:Ec; simpl; rewrite Ec.
    + rewrite (split_run_blank s EmptyString Hb). simpl. reflexivity.
    + rewrite (split_run_blank s _ Hb). now destruct cur.
  - simpl. destruct (isspace c); [destruct (truthy cur)|]; now rewrite <- IH.
Qed.

Lemma split_lstrip s : split (lstrip s) = split s.
Proof.
  unfold split. induction s as [|c s IH]; simpl; [reflexivity|].
  destruct (isspace c) eqn:Ec; [exact IH|]. simpl. now rewrite Ec.
Qed.

(** [s.strip().split()] is [s.split()]. *)
Lemma split_strip s : split (strip s) = split s.
Proof. unfold strip, split. rewrite split_run_rstrip. apply split_lstrip. Qed.

(** The words of two strings joined by a space. *)
Lemma split_run_space a : forall cur b,
  split_run cur (a ++ String " " b) = (split_run cur a ++ split b)%list.
Proof.
  induction a as [|c a IH]; intros cur b; simpl.
  - unfold split. now destruct (truthy cur).
  - destruct (isspace c); [destruct (truthy cur)|]; simpl; now rewrite IH.
Qed.

(** The words of [" ".join(l)]. *)
Lemma split_join l : split (join " " l) = flat_map split l.
Proof.
  unfold join. induction l as [|x l IH]; [reflexivity|].
  destruct l as [|y l].
  - simpl. now rewrite app_nil_r.
  - change (String.concat " " (x :: y :: l))
      with (x ++ String " " (String.concat " " (y :: l)))%string.
    unfold split at 1. rewrite split_run_space, IH. reflexivity.
Qed.

Lemma tokenize_app a b :
  Vector._tokenize (a ++ String " " b)
  = (Vector._tokenize a ++ Vector._tokenize b)%list.
Proof.
  unfold Vector._tokenize. unfold split at 1.
  now rewrite split_run_space, filter_app, map_app.
Qed.

(** X23: the tokens of a node.  The tokens of the signature of a node are
    the tokens of its label, of its kind, of its description and of each of
    its tags, in this order: the fields are joined by spaces, and the final
    [strip] changes no token. *)
Theorem tokens_of_signature n :
  Vector._tokenize (text_signature n)
  = (Vector._tokenize (label n) ++ Vector._tokenize (kind n)
     ++ Vector._tokenize (description n)
     ++ flat_map Vector._tokenize (tags n))%list.
Proof.
  assert (Hstrip : forall s, Vector._tokenize (strip s) = Vector._tokenize s).
  { intros s. unfold Vector._tokenize. now rewrite split_strip. }
  unfold text_signature. rewrite Hstrip.
  change (label n ++ " " ++ kind n ++ " " ++ description n ++ " "
          ++ join " " (tags n))%string
    with (label n ++ String " " (kind n ++ String " "
            (description n ++ String " " (join " " (tags n)))))%string.
  rewrite !tokenize_app. do 3 f_equal.
  unfold Vector._tokenize. rewrite split_join.
  induction (tags n) as [|t l IH]; simpl; [reflexivity|].
  now rewrite filter_app, map_app, IH.
Qed.

(** ** What the Vector search finds, the Graph-Traversal search seeds *)

Lemma lower_app a b : lower (a ++ b) = (lower a ++ lower b)%string.
Proof. induction a as [|c a IH]; simpl; congruence. Qed.

(** A word of a string is a part of it. *)
Lemma split_run_part s : forall cur tok,
  In tok (split_run cur s) ->
  exists a b, (cur ++ s)%string = (a ++ tok ++ b)%string.
Proof.
  induction s as [|c s IH]; intros cur tok; simpl.
  - destruct (truthy cur); [|intros []]. intros [<-|[]].
    exists EmptyString, EmptyString. simpl.
    clear. induction cur as [|x cur IH]; simpl; congruence.
  - destruct (isspace c).
    + assert (Hrest : In tok (split_run EmptyString s) ->
                      exists a b, (cur ++ String c s)%string = (a ++ tok ++ b)%string).
      { intros H. apply IH in H. destruct H as [a [b E]]. simpl in E.
        exists (cur ++ String c a)%string, b.
        rewrite app_assoc_string. simpl. now rewrite E. }
      destruct (truthy cur); [|exact Hrest].
      intros [<-|H]; [|now apply Hrest].
      exists EmptyString, (String c s). reflexivity.
    + intros H. apply IH in H. destruct H as [a [b E]].
      exists a, b. rewrite <- E, app_assoc_string. reflexivity.
Qed.

Lemma token_in_signature term s :
  In term (Vector._tokenize s) -> contains term (lower s) = true.
Proof.
  unfold Vector._tokenize. rewrite in_map_iff. intros [tok [<- Hin]].
  apply filter_In in Hin. destruct Hin as [Hin _].
  apply split_run_part in Hin. destruct Hin as [a [b E]]. simpl in E.
  apply contains_iff. exists (lower a), (lower b).
  now rewrite E, !lower_app.
Qed.

Lemma shares_token_seed query n : shares_token query n = true -> is_seed query n = true.
Proof.
  unfold shares_token, is_seed, lowercased_tokens.
  rewrite !existsb_exists. intros [term [Hq Hn]].
  exists term. split; [exact Hq|].
  apply token_in_signature. unfold inb in Hn.
  now destruct (in_dec string_dec term (Vector._tokenize (text_signature n))).
Qed.

Lemma collect_has g : forall combined rs k v m,
  GraphTraversal.collect g combined = Some rs ->
  In (k, v) combined -> get k (nodes g) = Some m ->
  In {| node := m; score := v; strategy := GraphTraversal.name |} rs.
Proof.
  induction combined as [|[k0 v0] combined IH]; simpl; intros rs k v m;
    [intros _ []|].
  destruct (get k0 (nodes g)) as [n0|] eqn:E0; [|discriminate]. simpl.
  destruct (GraphTraversal.collect g combined) as [rs'|]; [|discriminate].
  intros [= <-] [[= -> ->]|Hin] Hm.
  - left. congruence.
  - right. now apply (IH rs' k v m).
Qed.

(** X24: what a fresh Vector search finds, the Graph-Traversal search
    seeds.  A node whose signature shares a token with the query has the
    token inside its lowercased signature; so on a built graph, with a
    [limit] that is not below the number of nodes, the Graph-Traversal
    search returns every such node of the graph with the score 1, whatever
    its [walk_depth]. *)
Theorem vector_hits_are_seeds g walk_depth query limit n :
  built g ->
  In n (all_nodes g) ->
  shares_token query n = true ->
  (Z.of_nat (List.length (all_nodes g)) <= limit)%Z ->
  is_seed query n = true /\
  exists results,
    GraphTraversal.search walk_depth g query limit = Some results /\
    In {| node := n; score := 1; strategy := GraphTraversal.name |} results.
Proof.
  intros Hb Hn Hs Hl. pose proof (built_tidy Hb) as Ht. apply built_consistent in Hb.
  pose proof (shares_token_seed query n Hs) as Hseed.
  split; [exact Hseed|].
  destruct (search_run walk_depth query limit Hb)
    as [hs [results [Hhs [_ [_ [Hreg [Hcollect [Hsearch _]]]]]]]].
  set (base := GraphTraversal.base_scores g (GraphTraversal.keywords query)) in *.
  set (combined := GraphTraversal.combine base (absorb [] (List.concat hs))) in *.
  exists (slice_to (sort_desc score results) limit). split; [exact Hsearch|].
  assert (Hget : get (node_id n) (nodes g) = Some n)
    by now apply in_all_nodes_iff.
  assert (Hbase : get (node_id n) base = Some 1).
  { unfold base. rewrite base_scores_get.
    rewrite (@ReachFacts.seed_of_node g query (node_id n) n Hb Ht Hget).
    now rewrite Hseed. }
  assert (Hk : In (node_id n) (keys combined)).
  { apply combine_keys. left. eapply get_some_in_keys, Hbase. }
  destruct (in_keys_get _ _ Hk) as [v Hv].
  assert (Hone : v = 1).
  { assert (Hsc : get_or (node_id n) 0 combined = v)
      by (unfold get_or; now rewrite Hv).
    rewrite <- Hsc. unfold combined. rewrite combine_get.
    - unfold get_or at 1. rewrite Hbase. apply Rmax_left.
      rewrite absorb_get. apply best_from_le; [unfold get_or; simpl; lra|].
      intros k' v' Hv'. apply in_concat in Hv'. destruct Hv' as [received [Hrec Hv']].
      apply In_nth_error in Hrec. destruct Hrec as [i Hi].
      assert (H1 : forall k v, In (k, v) base -> v = 1)
        by (intros k0 v0; apply base_scores_one).
      destruct (@hops_values g (Z.to_nat walk_depth) base 1 hs H1 Hhs
                  i received k' v' Hi Hv') as [-> _].
      pose proof (pow_decay_le i). simpl. lra.
    - apply base_scores_keys.
    - apply absorb_NoDup. constructor.
    - unfold get_or. rewrite Hbase. lra.
    - rewrite absorb_get. apply best_from_ge. }
  subst v. apply get_in in Hv.
  pose proof (@collect_has g combined results (node_id n) 1 n Hcollect Hv Hget)
    as Hin.
  assert (Hlen : (List.length results <= List.length (all_nodes g))%nat).
  { destruct (@ResultFacts.collect_ids g combined results Hb Hcollect) as [Hids _].
    rewrite <- (length_map (fun r => node_id (node r)) results), Hids.
    rewrite <- (length_map node_id (all_nodes g)), (all_nodes_ids Hb).
    apply NoDup_incl_length; [apply combine_NoDup|].
    intros k Hk'. apply has_iff. now apply Hreg. }
  unfold slice_to. destruct (Z.leb_spec 0 limit) as [_|Hneg]; [|lia].
  rewrite firstn_all2.
  - now apply in_sort_desc.
  - rewrite (Permutation_length (sort_desc_perm score results)). lia.
Qed.

End SignatureFacts.

(* ================================================================== *)
(** * Edges connect, and depth only adds *)
(* ================================================================== *)

Module LinkFacts.

Import Py PyFacts Data DataFacts StoreFacts GraphFacts.
Local Open Scope R_scope.

(** ** The index is complete *)

Lemma indexed_empty : indexed empty.
Proof. intros eid e nid H. discriminate H. Qed.

Lemma indexed_add_node g n : indexed g -> indexed (add_node g n).
Proof.
  intros H eid e nid He Hn. simpl in *.
  rewrite get_or_setdefault_same. now apply (H eid e nid).
Qed.

Lemma indexed_add_hyperedge g e0 : indexed g -> indexed (add_hyperedge g e0).
Proof.
  intros H eid e nid He Hn. simpl in *. rewrite get_set in He.
  destruct (String.eqb_spec eid (edge_id e0)) as [->|Hne].
  - injection He as <-. now apply link_all_in.
  - apply link_all_keeps. now apply (H eid e nid).
Qed.

Lemma built_indexed g : built g -> indexed g.
Proof.
  induction 1.
  - apply indexed_empty.
  - now apply indexed_add_node.
  - now apply indexed_add_hyperedge.
Qed.

(** X25: a stored edge connects its nodes.  On a built graph two stored
    nodes of different ids that a stored edge both lists are neighbors of
    each other: [neighbors] of the id of each yields the other. *)
Theorem edges_connect g e n m :
  built g ->
  In e (all_edges g) -> In n (all_nodes g) -> In m (all_nodes g) ->
  In (node_id n) (node_ids e) -> In (node_id m) (node_ids e) ->
  node_id n <> node_id m ->
  exists ns ms,
    neighbors g (node_id n) = Some ns /\ In m ns /\
    neighbors g (node_id m) = Some ms /\ In n ms.
Proof.
  intros Hb He Hn Hm Hne Hme Hdiff.
  pose proof (built_tidy Hb) as Ht. pose proof (built_indexed Hb) as Hi.
  pose proof (built_consistent Hb) as Hc.
  assert (Hget : get (edge_id e) (hyperedges g) = Some e)
    by (apply (get_edge_iff (edge_id e) e Ht); auto).
  assert (Hgn : get (node_id n) (nodes g) = Some n) by now apply in_all_nodes_iff.
  assert (Hgm : get (node_id m) (nodes g) = Some m) by now apply in_all_nodes_iff.
  destruct (neighbors_total (node_id n) Hc) as [ns [Hns _]].
  destruct (neighbors_total (node_id m) Hc) as [ms [Hms _]].
  exists ns, ms. split; [exact Hns|]. split; [|split; [exact Hms|]].
  - apply (neighbors_members _ _ Hns).
    exists (edge_id e), e, (node_id m).
    split; [now apply (Hi (edge_id e) e)|]. split; [exact Hget|].
    split; [exact Hme|]. split; [congruence | exact Hgm].
  - apply (neighbors_members _ _ Hms).
    exists (edge_id e), e, (node_id n).
    split; [now apply (Hi (edge_id e) e)|]. split; [exact Hget|].
    split; [exact Hne|]. split; [congruence | exact Hgn].
Qed.

(** ** More hops *)

Lemma hops_prefix g b : forall a frontier hs',
  hops g (a + b) frontier = Some hs' ->
  exists hs rest, hops g a frontier = Some hs /\ hs' = (hs ++ rest)%list.
Proof.
  induction a as [|a IH]; intros frontier hs'; simpl.
  - intros H. exists [], hs'. auto.
  - destruct (spread g frontier) as [next|]; [|discriminate]. simpl.
    destruct (hops g (a + b) next) as [more|] eqn:E; [|discriminate].
    intros [= <-]. destruct (IH next more E) as [hs [rest [-> ->]]].
    exists (next :: hs), rest. auto.
Qed.

Lemma pow_le_mono i m : 0.6 ^ (i + m) <= 0.6 ^ i.
Proof.
  induction m as [|m IH].
  - rewrite Nat.add_0_r. lra.
  - replace (i + S m)%nat with (S (i + m)) by lia.
    change (0.6 ^ S (i + m)) with (0.6 * 0.6 ^ (i + m)).
    pose proof (pow_decay_le (i + m)). lra.
Qed.

(** With a [limit] that is not below the number of nodes nothing is cut. *)
Lemma graph_uncut g combined results limit :
  consistent g ->
  (forall k, In k (keys combined) -> registered g k) ->
  NoDup (keys combined) ->
  GraphTraversal.collect g combined = Some results ->
  (Z.of_nat (List.length (all_nodes g)) <= limit)%Z ->
  forall r, In r (slice_to (sort_desc score results) limit) <-> In r results.
Proof.
  intros Hg Hreg Hnd Hcollect Hl r.
  assert (Hlen : (List.length results <= List.length (all_nodes g))%nat).
  { destruct (@ResultFacts.collect_ids g combined results Hg Hcollect) as [Hids _].
    rewrite <- (length_map (fun r => node_id (node r)) results), Hids.
    rewrite <- (length_map node_id (all_nodes g)), (all_nodes_ids Hg).
    apply NoDup_incl_length; [exact Hnd|].
    intros k Hk. apply has_iff. now apply Hreg. }
  unfold slice_to. destruct (Z.leb_spec 0 limit) as [_|Hneg]; [|lia].
  rewrite firstn_all2.
  - apply in_sort_desc.
  - rewrite (Permutation_length (sort_desc_perm score results)). lia.
Qed.

(** X26: more depth only adds results.  On a built graph, with a [limit]
    that is not below the number of nodes, every result of the
    Graph-Traversal search with a [walk_depth] is a result, with the same
    score, of the search with any greater [walk_depth]: a node keeps the
    score of the first hop that reaches it. *)
Theorem graph_depth_monotone g depth depth' query limit :
  built g ->
  (depth <= depth')%Z ->
  (Z.of_nat (List.length (all_nodes g)) <= limit)%Z ->
  exists results results',
    GraphTraversal.search depth g query limit = Some results /\
    GraphTraversal.search depth' g query limit = Some results' /\
    forall r, In r results -> In r results'.
Proof.
  intros Hb Hd Hl. apply built_consistent in Hb.
  destruct (search_run depth query limit Hb)
    as [hs [results [Hhs [Hlen [_ [Hreg [Hcollect [Hsearch Hres]]]]]]]].
  destruct (search_run depth' query limit Hb)
    as [hs' [results' [Hhs' [_ [_ [Hreg' [Hcollect' [Hsearch' _]]]]]]]].
  set (base := GraphTraversal.base_scores g (GraphTraversal.keywords query)) in *.
  exists (slice_to (sort_desc score results) limit),
         (slice_to (sort_desc score results') limit).
  split; [exact Hsearch|]. split; [exact Hsearch'|].
  assert (Hsplit : exists rest, hs' = (hs ++ rest)%list).
  { pose proof Hhs' as Hp.
    replace (Z.to_nat depth')
      with (Z.to_nat depth + (Z.to_nat depth' - Z.to_nat depth))%nat in Hp by lia.
    destruct (@hops_prefix g (Z.to_nat depth' - Z.to_nat depth) (Z.to_nat depth)
                base hs' Hp) as [hs0 [rest [H0 ->]]].
    rewrite Hhs in H0. injection H0 as <-. now exists rest. }
  destruct Hsplit as [rest ->].
  assert (H1 : forall k v, In (k, v) base -> v = 1)
    by (intros k v; apply base_scores_one).
  assert (Hval : forall i received k v,
             nth_error (hs ++ rest) i = Some received -> In (k, v) received ->
             v = 0.6 ^ S i).
  { intros i received k v Hnth Hv.
    destruct (@hops_values g (Z.to_nat depth') base 1 (hs ++ rest)%list H1 Hhs'
                i received k v Hnth Hv) as [-> _]. lra. }
  assert (Hscore : forall l k v,
             In (k, v) (GraphTraversal.combine base (absorb [] l)) ->
             v = Rmax (get_or k 0 base) (best l k)).
  { intros l k v Hin. apply in_get in Hin; [|apply combine_NoDup].
    assert (Hsc : get_or k 0 (GraphTraversal.combine base (absorb [] l)) = v)
      by (unfold get_or; now rewrite Hin).
    rewrite <- Hsc. unfold best.
    replace (best_from 0 l k) with (get_or k 0 (absorb [] l))
      by (rewrite absorb_get; reflexivity).
    apply combine_get.
    - apply base_scores_keys.
    - apply absorb_NoDup. constructor.
    - unfold get_or. destruct (get k base) as [b|] eqn:E; [|lra].
      apply get_in, base_scores_one in E. lra.
    - rewrite absorb_get. apply best_from_ge. }
  assert (Hle : forall l k,
             (forall k' v, In (k', v) l -> v <= 0.6) -> best l k <= 0.6).
  { intros l k Hall. apply best_from_le; [lra | exact Hall]. }
  assert (Hsmall : forall k v, In (k, v) (List.concat (hs ++ rest)) -> v <= 0.6).
  { intros k v Hv. apply in_concat in Hv. destruct Hv as [received [Hrec Hv]].
    apply In_nth_error in Hrec. destruct Hrec as [i Hi].
    rewrite (Hval i received k v Hi Hv). pose proof (pow_decay_le i). simpl. lra. }
  intros r Hr.
  apply (@graph_uncut g _ results limit Hb Hreg (combine_NoDup _ _) Hcollect Hl r)
    in Hr.
  apply (@graph_uncut g _ results' limit Hb Hreg' (combine_NoDup _ _) Hcollect' Hl r).
  destruct (Hres r Hr) as [k [Hin Hget]].
  destruct (@ResultFacts.collect_ids g _ results Hb Hcollect) as [_ Hlab].
  destruct (Hlab r Hr) as [_ Hname].
  assert (Hk' : In k (keys (GraphTraversal.combine base
                              (absorb [] (List.concat (hs ++ rest)))))).
  { assert (Hk : In k (keys (GraphTraversal.combine base
                               (absorb [] (List.concat hs)))))
      by (apply in_map_iff; exists (k, score r); auto).
    apply combine_keys in Hk. apply combine_keys.
    destruct Hk as [Hk|Hk]; [now left|]. right.
    apply absorb_keys in Hk. apply absorb_keys.
    destruct Hk as [Hk|Hk]; [now left|]. right.
    rewrite concat_app, map_app, in_app_iff. now left. }
  destruct (in_keys_get _ _ Hk') as [v' Hv']. apply get_in in Hv'.
  assert (E : v' = score r).
  { rewrite (Hscore _ k v' Hv'), (Hscore _ k (score r) Hin).
    destruct (get k base) as [b|] eqn:Eb.
    - assert (Hone : get_or k 0 base = 1).
      { unfold get_or. rewrite Eb. apply get_in, base_scores_one in Eb. exact Eb. }
      rewrite Hone, !Rmax_left; [reflexivity| |].
      + assert (best (List.concat hs) k <= 0.6); [|lra].
        apply Hle. intros k' v Hv. apply (Hsmall k' v).
        rewrite concat_app, in_app_iff. now left.
      + pose proof (Hle (List.concat (hs ++ rest)) k Hsmall). lra.
    - assert (Hk : In k (map fst (List.concat hs))).
      { assert (Hkc : In k (keys (GraphTraversal.combine base
                                    (absorb [] (List.concat hs)))))
          by (apply in_map_iff; exists (k, score r); auto).
        apply combine_keys in Hkc. destruct Hkc as [Hkc|Hkc].
        - apply get_none_iff in Eb. contradiction.
        - apply absorb_keys in Hkc. destruct Hkc as [[]|Hkc]. exact Hkc. }
      apply in_map_iff in Hk. destruct Hk as [[k0 v0] [Ek Hv0]].
      simpl in Ek. subst k0.
      pose proof (@ReachFacts.best_from_reaches (List.concat hs) k v0 0 Hv0) as Hlow.
      fold (best (List.concat hs) k) in Hlow.
      assert (Hv0' : 0.6 ^ List.length hs <= v0).
      { apply in_concat in Hv0. destruct Hv0 as [received [Hrec Hv0]].
        apply In_nth_error in Hrec. destruct Hrec as [i Hi].
        assert (Hi' : (i < List.length hs)%nat)
          by (apply nth_error_Some; congruence).
        rewrite (Hval i received k v0); [|rewrite nth_error_app1 by exact Hi'; exact Hi
                                         |exact Hv0].
        replace (List.length hs) with (S i + (List.length hs - S i))%nat by lia.
        apply pow_le_mono. }
      f_equal. unfold best, best_from.
      rewrite concat_app, fold_left_app.
      fold (best_from 0 (List.concat hs) k). fold (best (List.concat hs) k).
      fold (best_from (best (List.concat hs) k) (List.concat rest) k).
      apply Rle_antisym; [|apply best_from_ge].
      apply best_from_le; [lra|].
      intros k' v Hv. apply in_concat in Hv. destruct Hv as [received [Hrec Hv]].
      apply In_nth_error in Hrec. destruct Hrec as [j Hj].
      rewrite (Hval (List.length hs + j)%nat received k' v);
        [|rewrite nth_error_app2 by lia;
          replace (List.length hs + j - List.length hs)%nat with j by lia; exact Hj
         |exact Hv].
      replace (S (List.length hs + j)) with (List.length hs + S j)%nat by lia.
      pose proof (pow_le_mono (List.length hs) (S j)). lra. }
  subst v'.
  pose proof (@SignatureFacts.collect_has g _ results' k (score r) (node r)
                Hcollect' Hv' Hget) as Hin'.
  destruct r as [rn rs rl]. simpl in *. now subst rl.
Qed.

End LinkFacts.

(* ================================================================== *)
(** * The Graph-Traversal search, from the seeds to the ranking *)
(* ================================================================== *)

Module GraphSpec.

Import Py PyFacts Data DataFacts StoreFacts GraphFacts.
Local Open Scope R_scope.

(** What one hop pushes, and to whom: the neighbors of the nodes of the
    frontier, as long as the value pushed is above 0.01. *)
Lemma spread_members g x frontier : forall received,
  (forall k v, In (k, v) frontier -> v = x) ->
  spread g frontier = Some received ->
  forall k,
    In k (map fst received) <->
    0.01 < x * 0.6 /\
    exists nid ns m,
      In nid (map fst frontier) /\ neighbors g nid = Some ns /\
      In m ns /\ node_id m = k.
Proof.
  induction frontier as [|[nid0 sc] frontier IH]; intros received Hx; simpl.
  - intros [= <-] k. simpl. split; [intros [] | intros [_ [nid [ns [m [[] _]]]]]].
  - destruct (neighbors g nid0) as [ns0|] eqn:En; [|discriminate].
    destruct (spread g frontier) as [rest|] eqn:Er; [|discriminate].
    intros [= <-] k. simpl.
    assert (Hsc : sc = x) by (apply (Hx nid0); now left). subst sc.
    assert (Hx' : forall k v, In (k, v) frontier -> v = x)
      by (intros k' v' H; apply (Hx k'); now right).
    rewrite map_app, in_app_iff, (@IH rest Hx' eq_refl k).
    unfold spread1. destruct (Rlt_dec 0.01 (x * 0.6)) as [Hlt|Hge].
    + rewrite map_map. simpl. rewrite in_map_iff. split.
      * intros [[m [<- Hm]]|[_ [nid [ns [m [Hn [Hns [Hm <-]]]]]]]].
        -- split; [exact Hlt|]. exists nid0, ns0, m. auto.
        -- split; [exact Hlt|]. exists nid, ns, m. auto.
      * intros [_ [nid [ns [m [[<-|Hn] [Hns [Hm <-]]]]]]].
        -- left. exists m. rewrite En in Hns. injection Hns as <-. auto.
        -- right. split; [exact Hlt|]. exists nid, ns, m. auto.
    + simpl. split; [intros [[]|[Hlt _]]; contradiction | intros [Hlt _]; contradiction].
Qed.

Lemma frontier_at_next base next rest j :
  frontier_at base (next :: rest) (S j) = frontier_at next rest j.
Proof. destruct j; reflexivity. Qed.

(** The same, hop after hop. *)
Lemma hops_members g depth : forall frontier x hs,
  (forall k v, In (k, v) frontier -> v = x) ->
  hops g depth frontier = Some hs ->
  forall i received k,
    nth_error hs i = Some received ->
    (In k (map fst received) <->
     0.01 < x * 0.6 ^ S i /\
     exists nid ns m,
       In nid (map fst (frontier_at frontier hs i)) /\
       neighbors g nid = Some ns /\ In m ns /\ node_id m = k).
Proof.
  induction depth as [|depth IH]; intros frontier x hs Hx; simpl.
  - intros [= <-] [|i] received k; discriminate.
  - destruct (spread g frontier) as [next|] eqn:En; [|discriminate].
    destruct (hops g depth next) as [rest|] eqn:Er; [|discriminate].
    intros [= <-] [|i] received k.
    + simpl. intros [= <-].
      rewrite (@spread_members g x frontier next Hx En k).
      replace (x * (0.6 * 1)) with (x * 0.6) by ring. reflexivity.
    + intros Hnth. simpl in Hnth.
      assert (Hnext : forall k v, In (k, v) next -> v = x * 0.6).
      { intros k' v' H. now destruct (spread_values _ _ Hx En _ _ H). }
      rewrite (IH next (x * 0.6) rest Hnext Er i received k Hnth).
      rewrite frontier_at_next.
      replace (x * 0.6 * 0.6 ^ S i) with (x * 0.6 ^ S (S i)) by (simpl; ring).
      reflexivity.
Qed.

(** C1: the seeds are the nodes whose lowercased signature contains a
    lowercased token of the query, each with score 1.0.  The loop of the
    code makes exactly [walk_depth] hops: the hop of index [i] pushes
    [0.6 ^ (i + 1)], as long as that is above 0.01, to every neighbor of
    every node of its frontier, the seeds for the first hop and what the hop
    before pushed for any other; anything else is dropped; and the map
    [propagation] the loop builds holds, for exactly the nodes that were
    pushed a value, the greatest value they were pushed (the maximum, not the
    sum).  The search returns, cut by [limit], the descending ranking that
    has exactly one result for each seed and for each node of [propagation],
    with the node the graph stores under that id and the greater of its seed
    score and of its propagated score, which is exactly 1.0 for a seed. *)
Theorem graph_search_spec g walk_depth query limit :
  built g ->
  let base := GraphTraversal.base_scores g (GraphTraversal.keywords query) in
  (forall k,
      get k base =
      if existsb (fun n => String.eqb (node_id n) k && is_seed query n) (all_nodes g)
      then Some 1 else None) /\
  exists hs propagation ranked,
    hops g (Z.to_nat walk_depth) base = Some hs /\
    List.length hs = Z.to_nat walk_depth /\
    (forall i received k,
        nth_error hs i = Some received ->
        (In k (map fst received) <->
         0.01 < 0.6 ^ S i /\
         exists nid ns m,
           In nid (map fst (frontier_at base hs i)) /\
           neighbors g nid = Some ns /\ In m ns /\ node_id m = k)) /\
    (forall i received k v,
        nth_error hs i = Some received -> In (k, v) received ->
        v = 0.6 ^ S i /\ 0.01 < v) /\
    GraphTraversal.walk g (Z.to_nat walk_depth) [] base = Some propagation /\
    NoDup (keys propagation) /\
    (forall k, In k (keys propagation) <-> In k (map fst (List.concat hs))) /\
    (forall k, get_or k 0 propagation = best (List.concat hs) k) /\
    GraphTraversal.search walk_depth g query limit
    = Some (slice_to (sort_desc score ranked) limit) /\
    descending score (slice_to (sort_desc score ranked) limit) /\
    NoDup (map (fun r => node_id (node r)) ranked) /\
    (forall k,
        In k (map (fun r => node_id (node r)) ranked) <->
        In k (keys base) \/ In k (keys propagation)) /\
    (List.length ranked <= List.length (all_nodes g))%nat /\
    forall r, In r ranked ->
      let k := node_id (node r) in
      In (node r) (all_nodes g) /\
      get k (nodes g) = Some (node r) /\
      strategy r = GraphTraversal.name /\
      score r = Rmax (get_or k 0 base) (best (List.concat hs) k) /\
      (has k base = true -> score r = 1).
Proof.
  intros Hb base. apply built_consistent in Hb.
  split; [intros k; apply base_scores_get|].
  destruct (search_run walk_depth query limit Hb)
    as [hs [results [Hhs [Hlen [Hwalk [Hreg [Hcollect [Hsearch Hres]]]]]]]].
  fold base in Hhs, Hwalk, Hreg, Hcollect, Hres.
  assert (H1 : forall k v, In (k, v) base -> v = 1)
    by (intros k' v'; apply base_scores_one).
  assert (Hval : forall i received k v,
             nth_error hs i = Some received -> In (k, v) received ->
             v = 0.6 ^ S i /\ 0.01 < v).
  { intros i received k v Hnth Hin.
    destruct (@hops_values g (Z.to_nat walk_depth) base 1 hs H1 Hhs
                i received k v Hnth Hin) as [-> Hlt].
    split; [lra | exact Hlt]. }
  assert (Hmem : forall i received k,
             nth_error hs i = Some received ->
             (In k (map fst received) <->
              0.01 < 0.6 ^ S i /\
              exists nid ns m,
                In nid (map fst (frontier_at base hs i)) /\
                neighbors g nid = Some ns /\ In m ns /\ node_id m = k)).
  { intros i received k Hnth.
    rewrite (@hops_members g (Z.to_nat walk_depth) base 1 hs H1 Hhs
               i received k Hnth).
    now rewrite Rmult_1_l. }
  destruct (@ResultFacts.collect_ids g _ results Hb Hcollect) as [Hids Hlab].
  exists hs, (absorb [] (List.concat hs)), results.
  split; [exact Hhs|]. split; [exact Hlen|]. split; [exact Hmem|].
  split; [exact Hval|]. split; [exact Hwalk|].
  split; [apply absorb_NoDup; constructor|].
  split; [intros k; rewrite absorb_keys; simpl; tauto|].
  split; [intros k; rewrite absorb_get; reflexivity|].
  split; [exact Hsearch|].
  split; [apply descending_slice_to, sort_desc_sorted|].
  split; [rewrite Hids; apply combine_NoDup|].
  split; [intros k; rewrite Hids; apply combine_keys|].
  split.
  { rewrite <- (length_map (fun r => node_id (node r)) results), Hids.
    rewrite <- (length_map node_id (all_nodes g)), (all_nodes_ids Hb).
    apply NoDup_incl_length; [apply combine_NoDup|].
    intros k Hk. apply has_iff. now apply Hreg. }
  intros r Hr k.
  destruct (Hres r Hr) as [k' [Hin Hget]].
  assert (Hk : k' = k) by (symmetry; apply (proj1 Hb), get_in, Hget). subst k'.
  assert (Hscore : score r = Rmax (get_or k 0 base) (best (List.concat hs) k)).
  { apply in_get in Hin; [|apply combine_NoDup].
    assert (Hsc : get_or k 0 (GraphTraversal.combine base
                                (absorb [] (List.concat hs))) = score r)
      by (unfold get_or; now rewrite Hin).
    rewrite <- Hsc. unfold best.
    replace (best_from 0 (List.concat hs) k)
      with (get_or k 0 (absorb [] (List.concat hs)))
      by (rewrite absorb_get; reflexivity).
    apply combine_get.
    - apply base_scores_keys.
    - apply absorb_NoDup. constructor.
    - unfold get_or. destruct (get k base) as [v|] eqn:E; [|lra].
      apply get_in, base_scores_one in E. lra.
    - rewrite absorb_get. apply best_from_ge. }
  split; [apply (get_all_nodes _ _ Hget)|]. split; [exact Hget|].
  split; [apply (Hlab r Hr)|]. split; [exact Hscore|].
  intros Hseed. rewrite Hscore.
  assert (Hone : get_or k 0 base = 1).
  { unfold has in Hseed. unfold get_or.
    destruct (get k base) as [v|] eqn:E; [|discriminate].
    apply get_in, base_scores_one in E. exact E. }
  assert (Hbest : best (List.concat hs) k <= 0.6).
  { apply best_from_le; [lra|]. intros k' v Hv.
    apply in_concat in Hv. destruct Hv as [received [Hrec Hv]].
    apply In_nth_error in Hrec. destruct Hrec as [i Hi].
    destruct (Hval i received k' v Hi Hv) as [-> _].
    pose proof (pow_decay_le i). simpl. lra. }
  rewrite Hone. apply Rmax_left. lra.
Qed.

End GraphSpec.

(* ================================================================== *)
(** * Queries of two parts, strategies of one name *)
(* ================================================================== *)

Module ComposeFacts.

Import Py PyFacts Data DataFacts.
Local Open Scope R_scope.

Lemma Rsum_app a b : Rsum (a ++ b) = Rsum a + Rsum b.
Proof. unfold Rsum. induction a as [|x a IH]; simpl; [|rewrite IH]; lra. Qed.

(** X27: a query of two parts.  For the query made of two queries with a
    space between them, the Vector score of a node, whatever the table, is
    the sum of its scores for the two parts, and the seeds of the
    Graph-Traversal search are the seeds of either part. *)
Theorem queries_compose idf n query1 query2 :
  let query := (query1 ++ " " ++ query2)%string in
  Vector._tokenize query
  = (Vector._tokenize query1 ++ Vector._tokenize query2)%list /\
  Vector._score idf n (Vector._tokenize query)
  = Vector._score idf n (Vector._tokenize query1)
    + Vector._score idf n (Vector._tokenize query2) /\
  is_seed query n = is_seed query1 n || is_seed query2 n.
Proof.
  intros query.
  assert (Htok : Vector._tokenize query
                 = (Vector._tokenize query1 ++ Vector._tokenize query2)%list)
    by apply SignatureFacts.tokenize_app.
  split; [exact Htok|]. split.
  - rewrite Htok, !VectorFacts.score_tfidf. unfold tfidf.
    now rewrite map_app, Rsum_app.
  - unfold is_seed, lowercased_tokens.
    change (map lower (filter (fun token => truthy (strip token)) (split query)))
      with (Vector._tokenize query).
    rewrite Htok. apply existsb_app.
Qed.

(** X28: two strategies of one name.  The hybrid stores the lists of its
    constituents under their names, so of two constituents of the same name
    the list of the second replaces that of the first: on a built graph the
    hybrid over the two returns what the hybrid over the second alone
    returns. *)
Theorem hybrid_same_name s1 s2 weights g query limit :
  built g ->
  name s1 = name s2 ->
  exists results after1 after2,
    search (HybridSelfImprovingSearch [s1; s2] weights) g query limit
    = Some (results, HybridSelfImprovingSearch [after1; after2] weights) /\
    search (HybridSelfImprovingSearch [s2] weights) g query limit
    = Some (results, HybridSelfImprovingSearch [after2] weights).
Proof.
  intros Hb Hname. apply built_consistent in Hb.
  destruct (HybridFacts.search_total Hb s1 query limit) as [[r1 a1] H1].
  destruct (HybridFacts.search_total Hb s2 query limit) as [[r2 a2] H2].
  destruct (HybridFacts.rank_fusion_total weights [(name s2, r2)] limit)
    as [merged [Hf _]].
  exists (slice_to (sort_desc score merged) limit), a1, a2.
  simpl. rewrite H1, H2. simpl. rewrite Hname, String.eqb_refl, Hf.
  split; reflexivity.
Qed.

End ComposeFacts.

(* ================================================================== *)
(** * The further theorems on the small corpus *)
(* ================================================================== *)

Module MoreExamples.

Import Py PyFacts Data League.
Local Open Scope R_scope.
Local Open Scope string_scope.

(** [graph_search_spec] on the corpus, for the query ["protein"] and two
    hops: the seed [alphafold] is returned with the score 1 and its
    neighbor [attention], reached by the first hop, with the score 0.6. *)
Lemma graph_search_witness :
  built Demo.graph /\
  exists results,
    GraphTraversal.search 2 Demo.graph "protein" 5 = Some results /\
    (exists r, In r results /\ node r = Demo.alphafold /\ score r = 1%R) /\
    (exists r, In r results /\ node r = Demo.attention /\ score r = 0.6%R).
Proof.
  split; [apply Examples.graph_built|].
  destruct (@GraphSpec.graph_search_spec Demo.graph 2 "protein" 5
              Examples.graph_built)
    as [Hbase [hs [prop [ranked [Hhs [Hlen [Hmem [Hval [Hwalk [Hpnd [Hpk
         [Hpget [Hsearch [Hdesc [Hnd [Hids [Hlenr Hres]]]]]]]]]]]]]]]]].
  set (base := GraphTraversal.base_scores Demo.graph
                 (GraphTraversal.keywords "protein")) in *.
  exists (slice_to (sort_desc score ranked) 5). split; [exact Hsearch|].
  assert (Hkeep : forall r, In r ranked ->
                            In r (slice_to (sort_desc score ranked) 5)).
  { intros r Hr. unfold slice_to. change (0 <=? 5)%Z with true. cbv iota.
    rewrite firstn_all2; [apply in_sort_desc, Hr|].
    rewrite (Permutation_length (sort_desc_perm score ranked)).
    change (List.length (all_nodes Demo.graph)) with 2%nat in Hlenr.
    change (Z.to_nat 5) with 5%nat. lia. }
  assert (Ea : get "paper:alphafold" base = Some 1%R)
    by (rewrite Hbase; reflexivity).
  assert (En : get "paper:attention_is_all_you_need" base = None)
    by (rewrite Hbase; reflexivity).
  split.
  - assert (Hk : In "paper:alphafold" (map (fun r => node_id (node r)) ranked))
      by (apply Hids; left; apply (get_some_in_keys _ _ Ea)).
    apply in_map_iff in Hk. destruct Hk as [r [Ek Hr]].
    destruct (Hres r Hr) as [_ [Hget [_ [_ Hseed]]]].
    rewrite Ek in Hget, Hseed.
    change (get "paper:alphafold" (nodes Demo.graph))
      with (Some Demo.alphafold) in Hget.
    exists r. split; [apply Hkeep, Hr|]. split; [congruence|].
    apply Hseed. unfold has. now rewrite Ea.
  - destruct hs as [|h0 hs']; [discriminate Hlen|].
    assert (H0 : nth_error (h0 :: hs') 0 = Some h0) by reflexivity.
    assert (Hk0 : In "paper:attention_is_all_you_need" (map fst h0)).
    { apply (Hmem 0%nat h0 _ H0). split; [simpl; lra|].
      exists "paper:alphafold", [Demo.attention], Demo.attention.
      split; [apply (get_some_in_keys _ _ Ea)|].
      split; [reflexivity|]. split; [now left | reflexivity]. }
    assert (Hk : In "paper:attention_is_all_you_need"
                    (map (fun r => node_id (node r)) ranked)).
    { apply Hids. right. apply Hpk. simpl.
      rewrite map_app, in_app_iff. now left. }
    apply in_map_iff in Hk. destruct Hk as [r [Ek Hr]].
    destruct (Hres r Hr) as [_ [Hget [_ [Hscore _]]]].
    rewrite Ek in Hget, Hscore.
    change (get "paper:attention_is_all_you_need" (nodes Demo.graph))
      with (Some Demo.attention) in Hget.
    exists r. split; [apply Hkeep, Hr|]. split; [congruence|].
    assert (Hz : get_or "paper:attention_is_all_you_need" 0%R base = 0%R)
      by (unfold get_or; now rewrite En).
    assert (Hup : (best (List.concat (h0 :: hs'))
                        "paper:attention_is_all_you_need" <= 0.6)%R).
    { apply GraphFacts.best_from_le; [lra|]. intros k v Hv.
      apply in_concat in Hv. destruct Hv as [received [Hrec Hv]].
      apply In_nth_error in Hrec. destruct Hrec as [i Hi].
      destruct (Hval i received k v Hi Hv) as [-> _].
      pose proof (GraphFacts.pow_decay_le i). simpl. lra. }
    assert (Hlow : (0.6 <= best (List.concat (h0 :: hs'))
                                "paper:attention_is_all_you_need")%R).
    { apply in_map_iff in Hk0. destruct Hk0 as [[k v] [E Hv]].
      simpl in E. subst k.
      destruct (Hval 0%nat h0 _ v H0 Hv) as [Ev _].
      assert (E6 : v = 0.6%R) by (rewrite Ev; simpl; lra).
      rewrite <- E6. apply ReachFacts.best_from_reaches.
      simpl. apply in_app_iff. now left. }
    rewrite Hscore, Hz. rewrite Rmax_right by lra. lra.
Defined.

(** [add_node_upsert]: storing [alphafold] again keeps the ids distinct and
    in their places. *)
Lemma add_node_upsert_witness :
  built Demo.graph /\
  get "paper:alphafold" (nodes (add_node Demo.graph Demo.alphafold))
  = Some Demo.alphafold /\
  NoDup (map node_id (all_nodes (add_node Demo.graph Demo.alphafold))).
Proof.
  split; [apply Examples.graph_built|].
  destruct (@StoreFacts.add_node_upsert Demo.graph Demo.alphafold
              Examples.graph_built) as [Hget [_ [_ [_ [Hnd _]]]]].
  split; [exact Hget | exact Hnd].
Defined.

(** [neighbors_spec] on the corpus. *)
Lemma neighbors_spec_witness :
  built Demo.graph /\
  exists ns, neighbors Demo.graph "paper:alphafold" = Some ns.
Proof.
  split; [apply Examples.graph_built|].
  destruct (@StoreFacts.neighbors_spec Demo.graph "paper:alphafold"
              Examples.graph_built) as [ns [Hns _]].
  exists ns. exact Hns.
Defined.

(** [related_edges_spec] on the corpus. *)
Lemma related_edges_spec_witness :
  built Demo.graph /\
  exists es,
    related_edges Demo.graph "paper:alphafold" = Some es /\
    NoDup (map edge_id es).
Proof.
  split; [apply Examples.graph_built|].
  destruct (@StoreFacts.related_edges_spec Demo.graph "paper:alphafold"
              Examples.graph_built) as [es [Hes [_ [Hnd _]]]].
  exists es. split; [exact Hes | exact Hnd].
Defined.

(** [edge_before_node]: the edge is added to the empty graph, its node
    afterwards. *)
Lemma edge_before_node_witness :
  built empty /\
  In "paper:attention_is_all_you_need" (node_ids Demo.deep_learning) /\
  In (node_id Demo.alphafold) (node_ids Demo.deep_learning) /\
  exists ns,
    neighbors (add_node (add_hyperedge empty Demo.deep_learning) Demo.alphafold)
              "paper:attention_is_all_you_need" = Some ns /\
    In Demo.alphafold ns.
Proof.
  assert (Ha : In "paper:attention_is_all_you_need" (node_ids Demo.deep_learning))
    by (left; reflexivity).
  assert (Hnb : In (node_id Demo.alphafold) (node_ids Demo.deep_learning))
    by (right; left; reflexivity).
  assert (Hne : "paper:attention_is_all_you_need" <> node_id Demo.alphafold)
    by discriminate.
  split; [constructor|]. split; [exact Ha|]. split; [exact Hnb|].
  exact (proj2 (@StoreFacts.edge_before_node empty Demo.deep_learning
                  Demo.alphafold "paper:attention_is_all_you_need"
                  built_empty Ha Hnb Hne)).
Defined.

(** [search_ranked_and_cut] on an Ontology-Lens search of the corpus: the
    call with the limit [-1] returns the ranking without its last result. *)
Lemma search_ranked_and_cut_witness :
  search OntologyLensSearch Demo.graph "deep learning" 5
  = Some (OntologyLens.search Demo.graph "deep learning" 5, OntologyLensSearch) /\
  descending score (OntologyLens.search Demo.graph "deep learning" 5) /\
  exists ranking cut,
    descending score ranking /\
    search OntologyLensSearch Demo.graph "deep learning" 5
    = Some (firstn 5 ranking, OntologyLensSearch) /\
    search OntologyLensSearch Demo.graph "deep learning" (-1)
    = Some (cut, OntologyLensSearch) /\
    cut = firstn (List.length ranking - 1) ranking /\
    List.length cut = (List.length ranking - 1)%nat.
Proof.
  assert (H : search OntologyLensSearch Demo.graph "deep learning" 5
              = Some (OntologyLens.search Demo.graph "deep learning" 5,
                      OntologyLensSearch)) by reflexivity.
  assert (H5 : (0 <= 5)%Z) by lia.
  assert (Hm : (-1 < 0)%Z) by lia.
  split; [exact H|].
  destruct (@ResultFacts.search_ranked_and_cut _ _ _ _ _ _ H)
    as [Hd [_ [_ Hplain]]].
  split; [exact Hd|].
  destruct (Hplain eq_refl) as [ranking [Hr Hall]].
  destruct (Hall 5%Z) as [cut5 [Hs5 [Hc5 _]]].
  destruct (Hall (-1)%Z) as [cut [Hs [_ Hc]]].
  exists ranking, cut. split; [exact Hr|]. split.
  - rewrite Hs5. now rewrite (Hc5 H5).
  - split; [exact Hs | exact (Hc Hm)].
Defined.

(** [search_results_wellformed] on the hybrid over the corpus. *)
Lemma search_results_wellformed_witness :
  built Demo.graph /\
  exists r s',
    search (new_hybrid Demo.strategies) Demo.graph "protein" 5 = Some (r, s') /\
    NoDup (map (fun x => node_id (node x)) r).
Proof.
  split; [apply Examples.graph_built|].
  destruct (@ResultFacts.search_results_wellformed Demo.graph
              (new_hybrid Demo.strategies) "protein" 5 Examples.graph_built)
    as [r [s' [Hs [Hnd _]]]].
  exists r, s'. split; [exact Hs | exact Hnd].
Defined.

(** [blank_query_finds_nothing] on the hybrid over the corpus. *)
Lemma blank_query_witness :
  blank "  " = true /\
  exists s',
    search (new_hybrid Demo.strategies) Demo.graph "  " 5 = Some ([], s').
Proof.
  assert (H : blank "  " = true) by reflexivity.
  split; [exact H|].
  destruct (@ResultFacts.blank_query_finds_nothing (new_hybrid Demo.strategies)
              Demo.graph "  " 5 H) as [s' [Hs _]].
  exists s'. exact Hs.
Defined.

(** [graph_depth_cap]: twelve hops on the corpus are nine. *)
Lemma graph_depth_cap_witness :
  built Demo.graph /\
  (9 <= 12)%Z /\
  exists results,
    GraphTraversal.search 9 Demo.graph "protein" 5 = Some results /\
    GraphTraversal.search 12 Demo.graph "protein" 5 = Some results.
Proof.
  assert (Hd : (9 <= 12)%Z) by lia.
  split; [apply Examples.graph_built|]. split; [exact Hd|].
  exact (proj2 (@ReachFacts.graph_depth_cap Demo.graph 12 "protein" 5
                  Examples.graph_built Hd)).
Defined.

(** [graph_scores_discrete] on the corpus. *)
Lemma graph_scores_witness :
  built Demo.graph /\
  exists results,
    GraphTraversal.search 2 Demo.graph "protein" 5 = Some results /\
    forall r, In r results -> is_seed "protein" (node r) = true -> score r = 1%R.
Proof.
  split; [apply Examples.graph_built|].
  destruct (@ReachFacts.graph_scores_discrete Demo.graph 2 "protein" 5
              Examples.graph_built) as [results [Hs Hres]].
  exists results. split; [exact Hs|].
  intros r Hr Hseed. destruct (Hres r Hr) as [[_ H1]|[Hno _]]; [exact H1|].
  rewrite Hseed in Hno. discriminate Hno.
Defined.

(** [graph_depth_zero] on the corpus. *)
Lemma graph_depth_zero_witness :
  built Demo.graph /\
  (0 <= 0)%Z /\
  GraphTraversal.search 0 Demo.graph "protein" 5
  = Some (slice_to
            (map (fun n => {| node := n; score := 1%R;
                              strategy := GraphTraversal.name |})
                 (filter (is_seed "protein") (all_nodes Demo.graph)))
            5).
Proof.
  assert (Hd : (0 <= 0)%Z) by lia.
  split; [apply Examples.graph_built|]. split; [exact Hd|].
  exact (@ReachFacts.graph_depth_zero Demo.graph 0 "protein" 5
           Examples.graph_built Hd).
Defined.

(** [update_weights_spec] on one advantage for a name without a weight. *)
Lemma update_weights_witness :
  NoDup (keys [("vector", 0.5%R)]) /\
  get "vector" (Hybrid.update_weights [] [("vector", 0.5%R)] 0.1)
  = Some (Py.max 0.1 (1 + 0.1 * 0.5)).
Proof.
  assert (Hnd : NoDup (keys [("vector", 0.5%R)]))
    by (simpl; repeat constructor; simpl; tauto).
  split; [exact Hnd|].
  exact (proj1 (@RoundFacts.update_weights_spec [] [("vector", 0.5%R)] 0.1 Hnd)
               "vector").
Defined.

(** [round_scores_bounded] on the league of the corpus. *)
Lemma round_scores_witness :
  built (graph Demo.league) /\
  NoDup (map name (strategies Demo.league)) /\
  exists scores l',
    run_round Demo.league = Some (scores, l') /\
    forall k v, get k scores = Some v -> (0 <= v <= 1)%R.
Proof.
  assert (Hnames : NoDup (map name (strategies Demo.league))).
  { simpl. repeat constructor; simpl; intuition discriminate. }
  split; [apply Examples.graph_built|]. split; [exact Hnames|].
  destruct (@RoundFacts.round_scores_bounded Demo.league Examples.graph_built)
    as [scores [l' [Hrun [_ Hb]]]].
  exists scores, l'. split; [exact Hrun | exact (Hb Hnames)].
Defined.

(** [champion_spec] on the league of the corpus. *)
Lemma champion_witness :
  built (graph Demo.league) /\
  exists s l', champion Demo.league = Some (s, l').
Proof.
  split; [apply Examples.graph_built|].
  assert (Hne : strategies Demo.league <> []) by discriminate.
  destruct (proj2 (@RoundFacts.champion_spec Demo.league Examples.graph_built) Hne)
    as [scores [l' [s [pre [post [_ [Hch _]]]]]]].
  exists s, l'. exact Hch.
Defined.

(** [rounds_keep]: three rounds of the league of the corpus. *)
Lemma rounds_keep_witness :
  built Demo.graph /\
  exists l',
    rounds 3 Demo.league = Some l' /\
    keys (hybrid_weights l') = ["vector"; "graph"; "ontology"] /\
    forall k w, get k (hybrid_weights l') = Some w -> (0.1 <= w)%R.
Proof.
  split; [apply Examples.graph_built|].
  destruct (@RoundFacts.rounds_keep Demo.graph Demo.strategies
              (evaluation_set Demo.league) 3 Examples.graph_built)
    as [l' [Hr [_ [_ [_ [Hk Hf]]]]]].
  exists l'. split; [exact Hr|]. split; [exact Hk | exact Hf].
Defined.

(** [round_without_examples] on a league of the corpus without examples. *)
Lemma round_without_examples_witness :
  evaluation_set (new Demo.graph Demo.strategies []) = [] /\
  exists scores l',
    run_round (new Demo.graph Demo.strategies []) = Some (scores, l') /\
    forall k v, get k scores = Some v -> v = 0%R.
Proof.
  assert (He : evaluation_set (new Demo.graph Demo.strategies []) = [])
    by reflexivity.
  split; [exact He|].
  destruct (@RoundFacts.round_without_examples _ He)
    as [scores [l' [Hrun [_ [Hz _]]]]].
  exists scores, l'. split; [exact Hrun | exact Hz].
Defined.

(** [demo_league_round] on the corpus. *)
Lemma demo_league_witness :
  built Demo.graph /\
  exists scores l1,
    run_round (build_demo_league Demo.graph) = Some (scores, l1) /\
    keys scores = ["vector"; "graph"; "ontology"].
Proof.
  split; [apply Examples.graph_built|].
  destruct (@RoundFacts.demo_league_round Demo.graph Examples.graph_built)
    as [scores [l1 [s [l2 [Hrun [Hk _]]]]]].
  exists scores, l1. split; [exact Hrun | exact Hk].
Defined.

(** [hybrid_of_one] on the hybrid over the Ontology-Lens search alone. *)
Lemma hybrid_of_one_witness :
  built Demo.graph /\
  (0 <= 5)%Z /\
  (0 < get_or (name OntologyLensSearch) 1 [])%R /\
  exists r s',
    search OntologyLensSearch Demo.graph "deep learning" 5 = Some (r, s') /\
    search (HybridSelfImprovingSearch [OntologyLensSearch] [])
           Demo.graph "deep learning" 5
    = Some (map (fun ir : nat * SearchResult =>
                   {| node := node (snd ir);
                      score := (get_or (name OntologyLensSearch) 1 [] / INR (fst ir))%R;
                      strategy := Hybrid.name |})
                (enumerate 1 r),
            HybridSelfImprovingSearch [s'] []).
Proof.
  assert (Hl : (0 <= 5)%Z) by lia.
  assert (Hw : (0 < get_or (name OntologyLensSearch) 1 [])%R)
    by (unfold get_or; simpl; lra).
  split; [apply Examples.graph_built|]. split; [exact Hl|]. split; [exact Hw|].
  exact (@FusionFacts.hybrid_of_one OntologyLensSearch [] Demo.graph
           "deep learning" 5 Examples.graph_built Hl Hw).
Defined.

(** [vector_hits_are_seeds] on the corpus: [alphafold] for ["protein"]. *)
Lemma vector_hits_witness :
  built Demo.graph /\
  In Demo.alphafold (all_nodes Demo.graph) /\
  shares_token "protein" Demo.alphafold = true /\
  (Z.of_nat (List.length (all_nodes Demo.graph)) <= 5)%Z /\
  exists results,
    GraphTraversal.search 2 Demo.graph "protein" 5 = Some results /\
    In {| node := Demo.alphafold; score := 1%R; strategy := GraphTraversal.name |}
       results.
Proof.
  assert (Hn : In Demo.alphafold (all_nodes Demo.graph))
    by (right; left; reflexivity).
  assert (Hs : shares_token "protein" Demo.alphafold = true) by reflexivity.
  assert (Hl : (Z.of_nat (List.length (all_nodes Demo.graph)) <= 5)%Z)
    by (simpl; lia).
  split; [apply Examples.graph_built|]. split; [exact Hn|].
  split; [exact Hs|]. split; [exact Hl|].
  exact (proj2 (@SignatureFacts.vector_hits_are_seeds Demo.graph 2 "protein" 5
                  Demo.alphafold Examples.graph_built Hn Hs Hl)).
Defined.

(** [edges_connect] on the corpus: the two papers of the topic edge. *)
Lemma edges_connect_witness :
  built Demo.graph /\
  In Demo.deep_learning (all_edges Demo.graph) /\
  In Demo.attention (all_nodes Demo.graph) /\
  In Demo.alphafold (all_nodes Demo.graph) /\
  exists ns ms,
    neighbors Demo.graph (node_id Demo.attention) = Some ns /\
    In Demo.alphafold ns /\
    neighbors Demo.graph (node_id Demo.alphafold) = Some ms /\
    In Demo.attention ms.
Proof.
  assert (He : In Demo.deep_learning (all_edges Demo.graph))
    by (left; reflexivity).
  assert (Hn : In Demo.attention (all_nodes Demo.graph)) by (left; reflexivity).
  assert (Hm : In Demo.alphafold (all_nodes Demo.graph))
    by (right; left; reflexivity).
  assert (Hne : In (node_id Demo.attention) (node_ids Demo.deep_learning))
    by (left; reflexivity).
  assert (Hme : In (node_id Demo.alphafold) (node_ids Demo.deep_learning))
    by (right; left; reflexivity).
  assert (Hd : node_id Demo.attention <> node_id Demo.alphafold) by discriminate.
  split; [apply Examples.graph_built|]. split; [exact He|].
  split; [exact Hn|]. split; [exact Hm|].
  exact (@LinkFacts.edges_connect Demo.graph Demo.deep_learning Demo.attention
           Demo.alphafold Examples.graph_built He Hn Hm Hne Hme Hd).
Defined.

(** [graph_depth_monotone] on the corpus: one hop, then two. *)
Lemma graph_depth_monotone_witness :
  built Demo.graph /\
  (1 <= 2)%Z /\
  (Z.of_nat (List.length (all_nodes Demo.graph)) <= 5)%Z /\
  exists results results',
    GraphTraversal.search 1 Demo.graph "protein" 5 = Some results /\
    GraphTraversal.search 2 Demo.graph "protein" 5 = Some results' /\
    forall r, In r results -> In r results'.
Proof.
  assert (Hd : (1 <= 2)%Z) by lia.
  assert (Hl : (Z.of_nat (List.length (all_nodes Demo.graph)) <= 5)%Z)
    by (simpl; lia).
  split; [apply Examples.graph_built|]. split; [exact Hd|]. split; [exact Hl|].
  exact (@LinkFacts.graph_depth_monotone Demo.graph 1 2 "protein" 5
           Examples.graph_built Hd Hl).
Defined.

(** [hybrid_same_name] on two Graph-Traversal searches of different
    depths. *)
Lemma hybrid_same_name_witness :
  built Demo.graph /\
  name (GraphTraversalSearch 0) = name (GraphTraversalSearch 2) /\
  exists results after1 after2,
    search (HybridSelfImprovingSearch
              [GraphTraversalSearch 0; GraphTraversalSearch 2] [])
           Demo.graph "protein" 5
    = Some (results, HybridSelfImprovingSearch [after1; after2] []) /\
    search (HybridSelfImprovingSearch [GraphTraversalSearch 2] [])
           Demo.graph "protein" 5
    = Some (results, HybridSelfImprovingSearch [after2] []).
Proof.
  assert (Hn : name (GraphTraversalSearch 0) = name (GraphTraversalSearch 2))
    by reflexivity.
  split; [apply Examples.graph_built|]. split; [exact Hn|].
  exact (@ComposeFacts.hybrid_same_name (GraphTraversalSearch 0)
           (GraphTraversalSearch 2) [] Demo.graph "protein" 5
           Examples.graph_built Hn).
Defined.

End MoreExamples.
